(** * BookSorter: the classification engine of [sort_books.py]

    A shallow embedding of the name normalisation, the pattern language,
    the group tree with its builder, the recursive classifier and the
    placement planner, followed by the properties stated for them.

    Text.  In the classifier a Python [str] is modelled by [string]: a
    character is a code point below U+0100, and the character classes
    ([str.isspace], the regular expression class [\s], [str.lower]) are
    Python's on that range.  The name normalisation is also modelled for
    every [str], as a list of code points of any size with the lower case
    of the Unicode character database ([Unicode.normalize_name]); on the
    code points below U+0100 the two agree ([latin1_normalize_name]).

    Library code.  Four services of the Python runtime are interfaces here
    (type classes): the regular expression engine behind [re.search], the
    platform flavour of [os.path], [str()] applied to a value that is
    not a string, and the interpreter's bound on nested calls.

    Stack.  The recursion of the builder is bounded by the interpreter
    and raises [RecursionError] beyond the bound.  The classifier
    recurses over the trees that the builder returned, one call for each
    level as the builder does; the few frames that it needs beyond those
    of the builder are taken to be there. *)

From Stdlib Require Import List String Ascii Bool Arith NArith ZArith Lia.
From Stdlib Require Import Numbers.DecimalString.
From Stdlib Require Import Sorting.Sorted Sorting.Permutation.
Import ListNotations.

Set Warnings "-register-all".

Local Open Scope list_scope.
Local Open Scope string_scope.

(* ------------------------------------------------------------------ *)
(** ** Exceptions *)

Inductive exn : Type :=
| re_error
| ValueError (msg : string)
| TypeError
| AttributeError
| IndexError
| RecursionError
| OverflowError.

Inductive result (A : Type) : Type :=
| Ok (a : A)
| Raise (e : exn).

Arguments Ok {A} a.
Arguments Raise {A} e.

Definition bind {A B : Type} (m : result A) (k : A -> result B) : result B :=
  match m with
  | Ok a => k a
  | Raise e => Raise e
  end.

Notation "x <- m ;; k" := (bind m (fun x => k))
  (at level 61, m at next level, right associativity).

(** [try: body except E: handler] for a handler that does not use the
    exception object. *)
Definition try_except {A : Type} (body : result A) (catches : exn -> bool)
    (handler : result A) : result A :=
  match body with
  | Ok a => Ok a
  | Raise e => if catches e then handler else Raise e
  end.

Definition is_re_error (e : exn) : bool :=
  match e with
  | re_error => true
  | _ => false
  end.

(* ------------------------------------------------------------------ *)
(** ** Characters and the [str] methods the program calls *)

Module Char.

Definition code (c : ascii) : N := N_of_ascii c.

Definition between (lo hi : N) (c : ascii) : bool :=
  ((lo <=? code c) && (code c <=? hi))%N.

(** [str.isspace] on one character, which is also the class [\s] of a
    [str] pattern: TAB..CR, FS..US, SPACE, NEL and NBSP. *)
Definition isspace (c : ascii) : bool :=
  between 9 13 c || between 28 32 c || (code c =? 133)%N || (code c =? 160)%N.

(** [str.lower] on one character: A..Z and the capital letters
    U+00C0..U+00DE (the multiplication sign U+00D7 is not a letter). *)
Definition lower (c : ascii) : ascii :=
  if between 65 90 c || (between 192 222 c && negb (code c =? 215)%N)
  then ascii_of_N (code c + 32)
  else c.

(** The class [[._\-]]. *)
Definition is_sep (c : ascii) : bool :=
  (c =? ".")%char || (c =? "_")%char || (c =? "-")%char.

End Char.

Module Str.

Definition is_empty (s : string) : bool :=
  match s with
  | EmptyString => true
  | String _ _ => false
  end.

(** Truth value of a [str]. *)
Definition truthy (s : string) : bool := negb (is_empty s).

Fixpoint lstrip (s : string) : string :=
  match s with
  | EmptyString => EmptyString
  | String c r => if Char.isspace c then lstrip r else s
  end.

Fixpoint rstrip (s : string) : string :=
  match s with
  | EmptyString => EmptyString
  | String c r =>
      let r' := rstrip r in
      if Char.isspace c && is_empty r' then EmptyString else String c r'
  end.

(** [s.strip()] *)
Definition strip (s : string) : string := lstrip (rstrip s).

(** [s.lower()] *)
Fixpoint lower (s : string) : string :=
  match s with
  | EmptyString => EmptyString
  | String c r => String (Char.lower c) (lower r)
  end.

(** [s.startswith(p)] *)
Definition startswith (p s : string) : bool := String.prefix p s.

(** [s[n:]] *)
Fixpoint drop (n : nat) (s : string) : string :=
  match n, s with
  | O, _ => s
  | S _, EmptyString => EmptyString
  | S n', String _ r => drop n' r
  end.

(** [needle in hay] *)
Fixpoint contains (needle hay : string) : bool :=
  String.prefix needle hay ||
  match hay with
  | EmptyString => false
  | String _ r => contains needle r
  end.

(** [s.split(sep)] for a separator of one character. *)
Fixpoint split (sep : ascii) (s : string) : list string :=
  match s with
  | EmptyString => [EmptyString]
  | String c r =>
      if (c =? sep)%char then EmptyString :: split sep r
      else match split sep r with
           | [] => [String c EmptyString]
           | h :: t => String c h :: t
           end
  end.

(** [re.sub(r'C+', ' ', s)] for a character class [C]: every maximal run
    of characters of the class becomes one space.  [in_run] tells that
    the previous character belonged to the run being replaced. *)
Fixpoint sub_runs (cls : ascii -> bool) (in_run : bool) (s : string) : string :=
  match s with
  | EmptyString => EmptyString
  | String c r =>
      if cls c then
        if in_run then sub_runs cls true r
        else String " " (sub_runs cls true r)
      else String c (sub_runs cls false r)
  end.

(** [re.split(r'\s*\|\s*', s)].  A separator is a bar with the white
    space around it.  [cur] is the piece being read, [ws] the white space
    seen after it (part of the separator if a bar follows, of the piece
    otherwise); [skip] holds while the white space after a bar is being
    consumed. *)
Fixpoint re_split_bar_from (skip : bool) (cur ws : string) (s : string)
  : list string :=
  match s with
  | EmptyString => [cur ++ ws]
  | String c r =>
      if (c =? "|")%char then cur :: re_split_bar_from true EmptyString EmptyString r
      else if Char.isspace c then
        if skip then re_split_bar_from true cur ws r
        else re_split_bar_from false cur (ws ++ String c EmptyString) r
      else re_split_bar_from false (cur ++ ws ++ String c EmptyString) EmptyString r
  end.

Definition re_split_bar (s : string) : list string :=
  re_split_bar_from false EmptyString EmptyString s.

End Str.

(* ------------------------------------------------------------------ *)
(** ** helpers *)

(** [normalize_name], lines 30-33. *)
Definition normalize_name (name : string) : string :=
  let s := Str.sub_runs Char.is_sep false name in
  let s := Str.sub_runs Char.isspace false s in
  Str.lower (Str.strip s).

(* ------------------------------------------------------------------ *)
(** ** patterns *)

(** [re.search(pattern, text, flags=re.IGNORECASE | re.UNICODE)] as the
    program sees it.  [Ok b] when the call returns, [b] telling whether it
    returned a match object.  [Raise e] when the call raises [e]:
    [re.error] for a pattern that the engine rejects, and whatever else
    the engine raises, such as [OverflowError] for a repetition count
    that is too large, [ValueError] for an inline flag that contradicts
    [re.UNICODE], or [RecursionError]. *)
Class Regex : Type := { re_search : string -> string -> result bool }.

Record Pattern : Type := mkPattern {
  raw : string;
  alternatives : list string;
  priority : nat
}.

(** [max(len(alt) for alt in alternatives)], for a list that is not empty. *)
Definition max_len (alts : list string) : nat :=
  fold_right Nat.max 0 (map String.length alts).

(** [Pattern.__init__], lines 42-45. *)
Definition new_Pattern (raw0 : string) : Pattern :=
  let raw := Str.strip raw0 in
  let alternatives :=
    map Str.strip
        (filter (fun alt => Str.truthy (Str.strip alt)) (Str.re_split_bar raw)) in
  let priority :=
    match alternatives with
    | [] => String.length raw
    | _ :: _ => max_len alternatives
    end in
  mkPattern raw alternatives priority.

Section Matching.

Context {engine : Regex}.

(** The body of the loop of [Pattern.matches], lines 49-64, for one
    alternative: [Ok true] where the body executes [return True], and
    [Ok false] where it falls through to the next alternative. *)
Definition alt_matches (alt text_norm : string) : result bool :=
  if Str.startswith "regex:" alt then
    let pattern := Str.drop (String.length "regex:") alt in
    try_except (re_search pattern text_norm) is_re_error (Ok false)
  else if Str.contains "*" alt then
    let tokens :=
      map normalize_name
          (filter (fun t => Str.truthy (Str.strip t)) (Str.split "*" alt)) in
    Ok (forallb (fun tok => Str.contains tok text_norm) tokens)
  else
    let tok := normalize_name alt in
    Ok (Str.contains tok text_norm).

Fixpoint matches_from (alts : list string) (text_norm : string) : result bool :=
  match alts with
  | [] => Ok false
  | alt :: rest =>
      hit <- alt_matches alt text_norm ;;
      if hit then Ok true else matches_from rest text_norm
  end.

(** [Pattern.matches], lines 47-65. *)
Definition matches (p : Pattern) (text_norm : string) : result bool :=
  matches_from (alternatives p) text_norm.

(** [any(p.matches(text) for p in patterns)] *)
Fixpoint any_matches (patterns : list Pattern) (text_norm : string) : result bool :=
  match patterns with
  | [] => Ok false
  | p :: rest =>
      hit <- matches p text_norm ;;
      if hit then Ok true else any_matches rest text_norm
  end.

End Matching.

(* ------------------------------------------------------------------ *)
(** ** groups *)

(** The functions of [os.path] the program calls; which module [os.path]
    is depends on the platform. *)
Class OsPath : Type := {
  basename : string -> string;
  splitext : string -> string * string;
  join : string -> list string -> string
}.

(** A [Group].  The tree owns its subgroups; the back reference [parent],
    which only [full_name] follows, is kept as the names met on the way up,
    nearest ancestor first. *)
Inductive Group : Type := mkGroup {
  name : string;
  parent : list string;
  subgroups : list Group;
  include_patterns : list Pattern;
  exclude_patterns : list Pattern
}.

Definition is_nil {A : Type} (l : list A) : bool :=
  match l with
  | [] => true
  | _ :: _ => false
  end.

Section Classifier.

Context {engine : Regex} {os_path : OsPath}.

(** [Group.full_name], lines 78-84. *)
Definition full_name (g : Group) : string :=
  match rev (name g :: parent g) with
  | [] => EmptyString
  | a :: p => join a p
  end.

(** [file_matches_group_name], lines 129-141. *)
Definition file_matches_group_name (file_path : string) (group : Group)
  : result bool :=
  if is_nil (include_patterns group) then Ok false
  else
    let base := basename file_path in
    let name_no_ext := fst (splitext base) in
    let normalized := normalize_name name_no_ext in
    inc <- any_matches (include_patterns group) normalized ;;
    if negb inc then Ok false
    else
      exc <- any_matches (exclude_patterns group) normalized ;;
      if exc then Ok false else Ok true.

(** [for g in groups: matches.extend(f(g))] *)
Definition extend_each (f : Group -> result (list Group))
  : list Group -> list Group -> result (list Group) :=
  fix loop (matches : list Group) (groups : list Group) {struct groups}
    : result (list Group) :=
    match groups with
    | [] => Ok matches
    | g :: rest =>
        found <- f g ;;
        loop (matches ++ found)%list rest
    end.

(** [match_file_recursively], lines 143-149. *)
Fixpoint match_file_recursively (file_path : string) (group : Group)
    {struct group} : result (list Group) :=
  matches <-
    (fix loop (matches : list Group) (subs : list Group) {struct subs}
       : result (list Group) :=
       match subs with
       | [] => Ok matches
       | sub :: rest =>
           found <- match_file_recursively file_path sub ;;
           loop (matches ++ found)%list rest
       end) [] (subgroups group) ;;
  if is_nil matches then
    direct <- file_matches_group_name file_path group ;;
    if direct then Ok (matches ++ [group])%list else Ok matches
  else Ok matches.

(** Lines 199-201 of [process_all]: the matches of one file over the
    roots of the forest. *)
Definition match_forest (top_groups : list Group) (src_path : string)
  : result (list Group) :=
  extend_each (match_file_recursively src_path) [] top_groups.

End Classifier.

(* ------------------------------------------------------------------ *)
(** ** processing *)

(** [sorted(l, key=key)]: Python's sort is stable, and a stable sort has
    one possible result ([sorted_is_the_stable_sort] below).  It is
    computed here by inserting each element, from the right end, before
    the first one whose key is not smaller. *)
Fixpoint insert_by {A : Type} (key : A -> Z) (x : A) (l : list A) : list A :=
  match l with
  | [] => [x]
  | y :: rest =>
      if (key x <=? key y)%Z then x :: l else y :: insert_by key x rest
  end.

Definition sorted {A : Type} (key : A -> Z) (l : list A) : list A :=
  fold_right (insert_by key) [] l.

(** The order of the sort: by key, ascending. *)
Definition key_le {A : Type} (key : A -> Z) (a b : A) : Prop :=
  (key a <= key b)%Z.

(** [max((p.priority for p in g.include_patterns), default=0)] *)
Definition max_priority (g : Group) : nat :=
  fold_right Nat.max 0 (map priority (include_patterns g)).

(** The key of line 206. *)
Definition sort_key (g : Group) : Z := (- Z.of_nat (max_priority g))%Z.

(** Lines 203-207 and 216 of [process_all]: [Ok None] where the loop
    executes [continue], otherwise the primary group [matches_sorted[0]] and
    the secondaries [matches_sorted[1:]]. *)
Definition plan (matches : list Group) : result (option (Group * list Group)) :=
  if is_nil matches then Ok None
  else
    let matches_sorted := sorted sort_key matches in
    match matches_sorted with
    | [] => Raise IndexError
    | primary :: secondaries => Ok (Some (primary, secondaries))
    end.

Section Processing.

Context {engine : Regex} {os_path : OsPath}.

(** The decision of [process_all] for one file. *)
Definition process_file (top_groups : list Group) (src_path : string)
  : result (option (Group * list Group)) :=
  matches <- match_forest top_groups src_path ;;
  plan matches.

(** The destinations of lines 208 and 217 for a file named [fname]. *)
Definition destinations (dst_dir fname : string)
    (decision : Group * list Group) : string * list string :=
  let dst g := join dst_dir [full_name g; fname] in
  (dst (fst decision), map dst (snd decision)).

End Processing.

(* ------------------------------------------------------------------ *)
(** ** [posixpath], the [os.path] of every platform but Windows *)

Module Posix.

(** [s.rfind(ch)], [-1] when [ch] does not occur. *)
Fixpoint rfind (ch : ascii) (s : string) : Z :=
  match s with
  | EmptyString => (-1)%Z
  | String c r =>
      let i := rfind ch r in
      if (0 <=? i)%Z then (i + 1)%Z
      else if (c =? ch)%char then 0%Z else (-1)%Z
  end.

(** [s[i:j]] for [0 <= i]. *)
Definition slice (i j : Z) (s : string) : string :=
  String.substring (Z.to_nat i) (Z.to_nat (j - i)) s.

(** [posixpath.basename] *)
Definition basename (p : string) : string :=
  let i := (rfind "/" p + 1)%Z in
  Str.drop (Z.to_nat i) p.

Fixpoint all_dots (s : string) : bool :=
  match s with
  | EmptyString => true
  | String c r => (c =? ".")%char && all_dots r
  end.

(** [posixpath.splitext], that is [genericpath._splitext] with the
    separator [/] and the extension separator [.]: the last dot splits
    the path unless only dots stand between the last separator and it. *)
Definition splitext (p : string) : string * string :=
  let sepIndex := rfind "/" p in
  let dotIndex := rfind "." p in
  if (sepIndex <? dotIndex)%Z
     && negb (all_dots (slice (sepIndex + 1) dotIndex p))
  then (slice 0 dotIndex p, Str.drop (Z.to_nat dotIndex) p)
  else (p, EmptyString).

Definition endswith_sep (s : string) : bool :=
  match String.length s with
  | O => false
  | S n => String.eqb (Str.drop n s) "/"
  end.

(** [posixpath.join] *)
Definition join (a : string) (p : list string) : string :=
  fold_left
    (fun path b =>
       if Str.startswith "/" b then b
       else if Str.is_empty path || endswith_sep path then path ++ b
       else path ++ "/" ++ b)
    p a.

End Posix.

#[export] Instance posixpath : OsPath := {
  basename := Posix.basename;
  splitext := Posix.splitext;
  join := Posix.join
}.

(* ------------------------------------------------------------------ *)
(** ** config *)

(** What [yaml.safe_load] returns: the program reads it through [get],
    [in], subscripts, [isinstance], truth tests, iteration and [str()]. *)
Inductive value : Type :=
| VNone
| VBool (b : bool)
| VInt (z : Z)
| VStr (s : string)
| VList (items : list value)
| VDict (entries : list (string * value)).

(** A dict with string keys, in insertion order, each key once. *)
Definition dict : Type := list (string * value).

(** [str(v)] for a [v] that is not a [str]. *)
Class Repr : Type := { repr : value -> string }.

Definition truthy (v : value) : bool :=
  match v with
  | VNone => false
  | VBool b => b
  | VInt z => negb (z =? 0)%Z
  | VStr s => Str.truthy s
  | VList items => negb (is_nil items)
  | VDict entries => negb (is_nil entries)
  end.

(** [a or b] *)
Definition or_else (a b : value) : value := if truthy a then a else b.

Fixpoint lookup (key : string) (d : dict) : option value :=
  match d with
  | [] => None
  | (k, v) :: rest => if String.eqb k key then Some v else lookup key rest
  end.

(** [d.get(key, default)] *)
Definition get_or (d : dict) (key : string) (default : value) : value :=
  match lookup key d with
  | Some v => v
  | None => default
  end.

(** [d.get(key)] *)
Definition get (d : dict) (key : string) : value := get_or d key VNone.

Fixpoint chars (s : string) : list value :=
  match s with
  | EmptyString => []
  | String c r => VStr (String c EmptyString) :: chars r
  end.

(** The elements a [for] loop over [v] visits. *)
Definition iterate (v : value) : result (list value) :=
  match v with
  | VList items => Ok items
  | VDict entries => Ok (map (fun kv => VStr (fst kv)) entries)
  | VStr s => Ok (chars s)
  | VNone | VBool _ | VInt _ => Raise TypeError
  end.

Definition is_str (v : value) : bool :=
  match v with
  | VStr _ => true
  | _ => false
  end.

(** The interpreter's bound on nested calls.  [max_nesting] is the number
    of calls of [build_node] that can be nested inside the call for a
    root node; one call more and the interpreter raises
    [RecursionError].  It is [sys.getrecursionlimit()], 1000 unless it was
    changed, less the frames that are in use when the root call is made
    and those that the calls made for one node take ([Group], [Pattern],
    [re.split]), which the model takes to be the same for every node. *)
Class Interpreter : Type := { max_nesting : nat }.

Section Config.

Context {builtins : Repr} {interpreter : Interpreter}.

(** [str(v)] *)
Definition str (v : value) : string :=
  match v with
  | VStr s => s
  | _ => repr v
  end.

(** [node.get('name') or node.get('Group')], line 98. *)
Definition node_name (node : dict) : value :=
  or_else (get node "name") (get node "Group").

(** The iterable of line 114. *)
Definition node_groups (node : dict) : value :=
  or_else (get_or node "groups" (VList [])) (get_or node "Groups" (VList [])).

(** One round of the loops of lines 102-107 and 108-113: the patterns
    that the key contributes. *)
Definition patterns_of (node : dict) (key : string) : result (list Pattern) :=
  match lookup key node with
  | None => Ok []
  | Some items =>
      let items := if is_str items then VList [items] else items in
      its <- iterate items ;;
      Ok (map (fun it => new_Pattern (str it)) its)
  end.

Definition patterns_of_keys (node : dict) (key1 key2 : string)
  : result (list Pattern) :=
  ps1 <- patterns_of node key1 ;;
  ps2 <- patterns_of node key2 ;;
  Ok (ps1 ++ ps2)%list.

(** [for child in children: if isinstance(child, dict):
    groups.append(build(child))] *)
Fixpoint append_built (build : dict -> result Group) (groups : list Group)
    (children : list value) : result (list Group) :=
  match children with
  | [] => Ok groups
  | VDict child :: rest =>
      g <- build child ;;
      append_built build (groups ++ [g])%list rest
  | _ :: rest => append_built build groups rest
  end.

(** [build_node], lines 97-117.  The recursion follows the nesting of
    the configuration; [depth] is the number of nested calls that the
    interpreter still allows, this one included. *)
Fixpoint build_node (depth : nat) (node : dict) (parent : list string)
  : result Group :=
  match depth with
  | O => Raise RecursionError
  | S depth' =>
      let name := node_name node in
      if negb (truthy name) then Raise (ValueError "Group without a name")
      else
        let name := str name in
        includes <- patterns_of_keys node "include" "Include" ;;
        excludes <- patterns_of_keys node "exclude" "Exclude" ;;
        children <- iterate (node_groups node) ;;
        subs <- append_built
                  (fun child => build_node depth' child (name :: parent))
                  [] children ;;
        Ok (mkGroup name parent subs includes excludes)
  end.

(** Lines 119-121. *)
Definition top_nodes (config : dict) : value :=
  let top := or_else (or_else (get config "groups") (get config "Groups"))
                     (VList []) in
  match top with
  | VDict _ => VList [top]
  | _ => top
  end.

(** [build_groups_from_config], lines 94-125. *)
Definition build_groups_from_config (config : value) : result (list Group) :=
  match config with
  | VDict config_entries =>
      tns <- iterate (top_nodes config_entries) ;;
      append_built (fun tn => build_node (S max_nesting) tn []) [] tns
  | _ => Raise AttributeError
  end.

End Config.

(* ------------------------------------------------------------------ *)
(** ** Instances used by the examples *)

Module Demo.

Definition is_plain_char (c : ascii) : bool :=
  Char.between 48 57 c || Char.between 65 90 c || Char.between 97 122 c
  || (c =? " ")%char.

Fixpoint is_plain (s : string) : bool :=
  match s with
  | EmptyString => true
  | String c r => is_plain_char c && is_plain r
  end.

Definition is_digit (c : ascii) : bool := Char.between 48 57 c.

(** The number that the digits of [s] write, after those read into [acc],
    when [s] is digits, at least one with [seen], and a closing brace. *)
Fixpoint count_then_brace (seen : bool) (acc : N) (s : string) : option N :=
  match s with
  | EmptyString => None
  | String c r =>
      if is_digit c then count_then_brace true (acc * 10 + (Char.code c - 48))%N r
      else if (c =? "}")%char && Str.is_empty r && seen then Some acc
      else None
  end.

(** A pattern [c{n}]: the character [c], [n] times. *)
Definition repetition (pattern : string) : option (ascii * N) :=
  match pattern with
  | String c (String b r) =>
      if is_plain_char c && (b =? "{")%char then
        match count_then_brace false 0 r with
        | Some n => Some (c, n)
        | None => None
        end
      else None
  | _ => None
  end.

(** [_sre.MAXREPEAT], the bound of a repetition count. *)
Definition MAXREPEAT : N := 4294967295.

Fixpoint repeated (c : ascii) (n : nat) : string :=
  match n with
  | O => EmptyString
  | S n' => String c (repeated c n')
  end.

(** A regular expression engine for the examples.  A pattern of ASCII
    letters, digits and spaces has no operator: it compiles, and with
    [re.IGNORECASE] it is found where the text contains it up to the case
    of letters.  A pattern [c{n}] is found where the text has [n] times
    [c] in a row, and the parser raises [OverflowError] ("the repetition
    number is too large") when [n] reaches [MAXREPEAT].  A pattern that
    sets the flag [a] before such letters is refused with the flag
    [re.UNICODE] that the program passes ([ValueError]).  The pattern "("
    does not compile ([re.error]: "missing ), unterminated subpattern").
    This engine knows no other operator and rejects every other pattern
    with [re.error] as well. *)
Definition plain_search (pattern text : string) : result bool :=
  if is_plain pattern
  then Ok (Str.contains (Str.lower pattern) (Str.lower text))
  else if Str.startswith "(?a)" pattern && is_plain (Str.drop 4 pattern)
  then Raise (ValueError "ASCII and UNICODE flags are incompatible")
  else
    match repetition pattern with
    | Some (c, n) =>
        if (MAXREPEAT <=? n)%N then Raise OverflowError
        else Ok (Str.contains (Str.lower (repeated c (N.to_nat n)))
                              (Str.lower text))
    | None => Raise re_error
    end.

Definition digits (z : Z) : string :=
  NilZero.string_of_int (Z.to_int z).

Definition join_comma (l : list string) : string :=
  String.concat ", " l.

(** [str()] of values that are not strings.  A string inside a list or a
    dict is printed between single quotes, which is Python's output when
    the string is printable and has no quote and no backslash. *)
Fixpoint show (v : value) : string :=
  match v with
  | VNone => "None"
  | VBool true => "True"
  | VBool false => "False"
  | VInt z => digits z
  | VStr s => "'" ++ s ++ "'"
  | VList items => "[" ++ join_comma (map show items) ++ "]"
  | VDict entries =>
      "{" ++ join_comma
               (map (fun kv => "'" ++ fst kv ++ "': " ++ show (snd kv)) entries)
          ++ "}"
  end.

End Demo.

#[export] Instance plain_engine : Regex := { re_search := Demo.plain_search }.

#[export] Instance show_repr : Repr := { repr := Demo.show }.

(** CPython started as a script, with the recursion limit it has by
    default, for nodes without patterns: the call of [build_node] for a
    root node runs in the fourth frame, and the deepest call needs one
    frame more for [Group(...)]. *)
#[export] Instance default_limit : Interpreter := { max_nesting := 995 }.

(* ------------------------------------------------------------------ *)
(** ** Vocabulary of the properties *)

(** The number of groups of a tree. *)
Fixpoint group_size (g : Group) : nat :=
  S (fold_right (fun sub n => group_size sub + n) 0 (subgroups g)).

(** The name the classifier looks at: the base name of the path, without
    its extension, normalised (lines 133-135). *)
Definition normalized_stem {os_path : OsPath} (file_path : string) : string :=
  normalize_name (fst (splitext (basename file_path))).

(* ------------------------------------------------------------------ *)
(** ** Example groups *)

Module Sample.

Definition python : Group :=
  mkGroup "Python" ["IT"] [] [new_Pattern "Python"] [].

Definition programming : Group :=
  mkGroup "Programming" ["IT"] [] [new_Pattern "Prog*Lang"] [].

(** A parent whose own rule matches what its subgroup matches. *)
Definition it_books : Group :=
  mkGroup "IT" [] [python; programming] [new_Pattern "Python"] [].

(** A parent that is only a container. *)
Definition it_shelf : Group :=
  mkGroup "IT" [] [python; programming] [] [].

Definition office : Group :=
  mkGroup "Office" [] [] [new_Pattern "Office"] [new_Pattern "Linux"].

Definition kids : Group :=
  mkGroup "Kids" [] [] [new_Pattern "kids"] [].

Definition biology : Group :=
  mkGroup "Biology" ["Science"] [] [new_Pattern "kids"] [].

Definition science : Group :=
  mkGroup "Science" [] [biology] [] [].

End Sample.

(* ------------------------------------------------------------------ *)
(** ** Vocabulary of the configuration properties *)


(** The elements of a list that are mappings. *)
Definition dicts_of (vs : list value) : list dict :=
  flat_map (fun v => match v with VDict d => [d] | _ => [] end) vs.

(** The value that a mapping holds under [key1] if that value counts as
    true, else the one under [key2] if that one does. *)
Definition first_true (d : dict) (key1 key2 : string) : option value :=
  let held key :=
    match lookup key d with
    | Some v => if truthy v then Some v else None
    | None => None
    end in
  match held key1 with
  | Some v => Some v
  | None => held key2
  end.

(** A node has a name: a value that counts as true under [name] or
    under [Group]. *)
Definition named (node : dict) : bool :=
  match first_true node "name" "Group" with
  | Some _ => true
  | None => false
  end.

(** The child nodes of a node: the mappings of the list under [groups],
    or of the one under [Groups]. *)
Definition children (node : dict) : list dict :=
  match first_true node "groups" "Groups" with
  | Some (VList items) => dicts_of items
  | _ => []
  end.

(** The root nodes of a configuration: the mappings of the list under
    [groups] or [Groups], or the one mapping that stands there. *)
Definition roots (config : value) : list dict :=
  match config with
  | VDict entries =>
      match first_true entries "groups" "Groups" with
      | Some (VList items) => dicts_of items
      | Some (VDict root) => [root]
      | _ => []
      end
  | _ => []
  end.



(** The texts of a field of patterns: the string, or the elements of the
    list, in their order. *)
Definition field_texts {builtins : Repr} (node : dict) (key : string)
  : list string :=
  match lookup key node with
  | Some (VStr s) => [s]
  | Some (VList items) => map str items
  | Some (VDict entries) => map fst entries
  | _ => []
  end.


(** The node has a name: line 98 finds one under [name] or [Group], and
    line 99 accepts it. *)
Definition has_name (node : dict) : bool := truthy (node_name node).






Module SampleConfig.

Definition python : value :=
  VDict [("name", VStr "Python"); ("include", VList [VStr "Python"])].

Definition programming : value :=
  VDict [("name", VStr "Programming"); ("include", VStr "Prog*Lang")].

(** Scenario A. *)
Definition named : value :=
  VDict [("groups",
          VList [VDict [("name", VStr "IT");
                        ("groups", VList [python; programming])]])].



(** Scenario B. *)
Definition office : value :=
  VDict [("groups",
          VList [VDict [("name", VStr "Office");
                        ("include", VList [VStr "Office"]);
                        ("exclude", VList [VStr "Linux"])]])].

(** Scenario C. *)
Definition kids : value :=
  VDict [("groups",
          VList [VDict [("name", VStr "Kids");
                        ("include", VList [VStr "kids"])];
                 VDict [("name", VStr "Science");
                        ("groups",
                         VList [VDict [("name", VStr "Biology");
                                       ("include", VList [VStr "kids"])]])]])].

End SampleConfig.

(* ------------------------------------------------------------------ *)
(** ** Tactics *)



(* ------------------------------------------------------------------ *)
(** ** Vocabulary of the further properties *)

(** Every character of the string satisfies [P]. *)
Fixpoint all_chars (P : ascii -> bool) (s : string) : bool :=
  match s with
  | EmptyString => true
  | String c r => P c && all_chars P r
  end.

Definition is_bar (c : ascii) : bool := ("|" =? c)%char.

(** The groups of a tree: the root, then the groups of each subtree in
    turn. *)
Fixpoint groups_of (g : Group) : list Group :=
  g :: (fix over (subs : list Group) : list Group :=
          match subs with
          | [] => []
          | sub :: rest => (groups_of sub ++ over rest)%list
          end) (subgroups g).

(** A name that is one component of a path: not empty and without a
    separator. *)
Definition plain_name (s : string) : bool :=
  negb (Str.is_empty s) && all_chars (fun c => negb ("/" =? c)%char) s.

Fixpoint last_char (s : string) : option ascii :=
  match s with
  | EmptyString => None
  | String c r =>
      match last_char r with
      | Some d => Some d
      | None => Some c
      end
  end.



(** [mirrors node ancestors g]: the group [g] is the image of the
    configuration node [node] met below groups named [ancestors]: it has
    the node's name, one pattern for each text of the node's fields, in
    their order, and one subgroup for each child node, in the order of
    the configuration. *)
Inductive mirrors {builtins : Repr} : dict -> list string -> Group -> Prop :=
| mirrors_node (node : dict) (ancestors : list string) (g : Group)
               (given : value) :
    first_true node "name" "Group" = Some given ->
    name g = str given ->
    parent g = ancestors ->
    include_patterns g
    = map new_Pattern
          (field_texts node "include" ++ field_texts node "Include")%list ->
    exclude_patterns g
    = map new_Pattern
          (field_texts node "exclude" ++ field_texts node "Exclude")%list ->
    Forall2 (fun child sub => mirrors child (name g :: ancestors) sub)
            (children node) (subgroups g) ->
    mirrors node ancestors g.

Module SampleMore.

Definition escaped : Group :=
  mkGroup "/etc" ["IT"] [] [new_Pattern "passwd"] [].


(** A group with a rule that is longer than that of [Sample.kids]. *)
Definition encyclopedias : Group :=
  mkGroup "Encyclopedias" [] [] [new_Pattern "kids*encyclopedia"] [].



(** A group whose first include pattern is a regular expression with a
    repetition count that the engine does not accept. *)
Definition overflowing : Group :=
  mkGroup "Python" [] []
          [new_Pattern "regex:a{4294967296}"; new_Pattern "Python"] [].

End SampleMore.

(* ------------------------------------------------------------------ *)
(** ** file ops, drive check and processing *)

(** What the file operations can raise besides the exceptions above. *)
Inductive exception : Type :=
| Exn (e : exn)
| OSError (msg : string).

Inductive outcome (A : Type) : Type :=
| Returned (a : A)
| Thrown (e : exception).

Arguments Returned {A} a.
Arguments Thrown {A} e.

Inductive level : Type := INFO | WARNING | ERROR.

(** The log messages of lines 155-240, by their format strings. *)
Inductive message : Type :=
| DryRunMkdir          (* "[dry-run] mkdir %s" *)
| DryRunLink           (* "[dry-run] link %s -> %s" *)
| HardlinkMade         (* "Hardlink: %s" *)
| HardlinkFailed       (* "Hardlink failed, copying: %s" *)
| DifferentDrives      (* the warning of lines 183-186 *)
| DryRunCopy           (* "[dry-run] copy %s -> %s" *)
| DryRunCopyFallback   (* "[dry-run] copy fallback %s -> %s" *)
| DryRunDelete         (* "[dry-run] delete %s" *)
| Deleted              (* "Deleted: %s" *)
| DeleteFailed.        (* "Failed to delete %s: %s" *)

Inductive logarg : Type :=
| Text (s : string)
| Exc (e : exception).

(** What the program asks of the world outside, in the order it asks:
    a log record, or a call that changes the file system. *)
Inductive event : Type :=
| Log (lvl : level) (msg : message) (args : list logarg)
| Makedirs (path : string)            (* os.makedirs(path, exist_ok=True) *)
| Copy2 (src dst : string)            (* shutil.copy2(src, dst) *)
| Link (src dst : string)             (* os.link(src, dst) *)
| Remove (path : string).             (* os.remove(path) *)

(** The operating system as the program uses it.  [world] is the state of
    the file system and of the process; a call returns or raises, and
    leaves a new state. *)
Class FileSystem : Type := {
  world : Type;
  nt : bool;                                         (* os.name == 'nt' *)
  abspath : world -> string -> string;               (* os.path.abspath *)
  splitdrive : string -> string * string;            (* os.path.splitdrive *)
  dirname : string -> string;                        (* os.path.dirname *)
  path_exists : world -> string -> bool;             (* os.path.exists *)
  makedirs : string -> world -> outcome unit * world;
  copy2 : string -> string -> world -> outcome unit * world;
  link : string -> string -> world -> outcome unit * world;
  remove : string -> world -> outcome unit * world
}.

Section FileOps.

Context {engine : Regex} {os_path : OsPath} {fs : FileSystem}.

(** A computation on the world: its outcome, the world it leaves and the
    events it caused, in order. *)
Definition io (A : Type) : Type := world -> outcome A * world * list event.

Definition ret {A : Type} (a : A) : io A := fun w => (Returned a, w, []).

Definition throw {A : Type} (e : exception) : io A := fun w => (Thrown e, w, []).

Definition io_bind {A B : Type} (m : io A) (k : A -> io B) : io B :=
  fun w =>
    match m w with
    | (Returned a, w1, t1) =>
        let '(r, w2, t2) := k a w1 in (r, w2, (t1 ++ t2)%list)
    | (Thrown e, w1, t1) => (Thrown e, w1, t1)
    end.

Definition and_then {A : Type} (m : io unit) (k : io A) : io A :=
  io_bind m (fun _ => k).

(** [try: body except Exception as e: handler(e)] *)
Definition try_except_all {A : Type} (body : io A) (handler : exception -> io A)
  : io A :=
  fun w =>
    match body w with
    | (Returned a, w1, t1) => (Returned a, w1, t1)
    | (Thrown e, w1, t1) =>
        let '(r, w2, t2) := handler e w1 in (r, w2, (t1 ++ t2)%list)
    end.

Definition call (ev : event) (op : world -> outcome unit * world) : io unit :=
  fun w => let '(r, w1) := op w in (r, w1, [ev]).

Definition log (lvl : level) (msg : message) (args : list logarg) : io unit :=
  fun w => (Returned tt, w, [Log lvl msg args]).

Definition read {A : Type} (f : world -> A) : io A :=
  fun w => (Returned (f w), w, []).

Definition lift {A : Type} (r : result A) : io A :=
  match r with
  | Ok a => ret a
  | Raise e => throw (Exn e)
  end.

(** [for x in xs: body(x)] *)
Fixpoint for_each {A : Type} (xs : list A) (body : A -> io unit) : io unit :=
  match xs with
  | [] => ret tt
  | x :: rest => and_then (body x) (for_each rest body)
  end.

(** A loop that updates one variable. *)
Fixpoint for_each_with {A S : Type} (xs : list A) (s : S) (body : S -> A -> io S)
  : io S :=
  match xs with
  | [] => ret s
  | x :: rest => io_bind (body s x) (fun s1 => for_each_with rest s1 body)
  end.

(** [s.lstrip(ch)] for one character [ch]. *)
Fixpoint lstrip_char (ch : ascii) (s : string) : string :=
  match s with
  | EmptyString => EmptyString
  | String c r => if (c =? ch)%char then lstrip_char ch r else s
  end.

(** [win_long_path], lines 20-28, in the world [w]. *)
Definition win_long_path (w : world) (path : string) : string :=
  if negb nt then path
  else
    let ab := abspath w path in
    if Str.startswith "\\?\" ab then ab
    else if Str.startswith "\\" ab then "\\?\UNC\" ++ lstrip_char "\" ab
    else "\\?\" ++ ab.


(** [ensure_dir], lines 153-157. *)
Definition ensure_dir (path : string) (dry_run : bool) : io unit :=
  if dry_run then log INFO DryRunMkdir [Text path]
  else call (Makedirs path) (makedirs path).

(** [create_hardlink_or_copy], lines 159-173. *)
Definition create_hardlink_or_copy (source link_path : string) (dry_run : bool)
  : io unit :=
  and_then (call (Makedirs (dirname link_path)) (makedirs (dirname link_path)))
    (if dry_run then log INFO DryRunLink [Text source; Text link_path]
     else
       try_except_all
         (io_bind (read (fun w => win_long_path w source)) (fun s =>
          io_bind (read (fun w => win_long_path w link_path)) (fun l =>
          io_bind (read (fun w => path_exists w l)) (fun there =>
          and_then (if there then call (Remove l) (remove l) else ret tt)
          (and_then (call (Link s l) (link s l))
                    (log INFO HardlinkMade [Text link_path]))))))
         (fun e =>
            and_then (log WARNING HardlinkFailed [Exc e])
                     (call (Copy2 source link_path) (copy2 source link_path)))).

(** [check_same_drive], lines 177-188. *)
Definition check_same_drive (src_dir dst_dir : string) : io bool :=
  if negb nt then ret true
  else
    io_bind (read (fun w => Str.lower (fst (splitdrive (abspath w src_dir)))))
      (fun src_drive =>
    io_bind (read (fun w => Str.lower (fst (splitdrive (abspath w dst_dir)))))
      (fun dst_drive =>
    if negb (String.eqb src_drive dst_drive) then
      and_then (log WARNING DifferentDrives [Text src_dir; Text dst_dir])
               (ret false)
    else ret true)).

(** The destination of a file named [fname] in the folder of [g]. *)
Definition destination (dst_dir fname : string) (g : Group) : string :=
  join dst_dir [full_name g; fname].

(** Lines 208-226 of [process_all]: the placement of one file that has a
    primary group. *)
Definition place (dst_dir : string) (hardlink_supported dry_run : bool)
    (src_path fname : string) (primary : Group) (secondaries : list Group)
  : io unit :=
  let dst_primary := destination dst_dir fname primary in
  and_then (ensure_dir (dirname dst_primary) dry_run)
  (and_then
     (if dry_run then log INFO DryRunCopy [Text src_path; Text dst_primary]
      else call (Copy2 src_path dst_primary) (copy2 src_path dst_primary))
     (for_each secondaries (fun g =>
        let link_path := destination dst_dir fname g in
        if hardlink_supported then
          create_hardlink_or_copy dst_primary link_path dry_run
        else
          let dst_fallback := destination dst_dir fname g in
          and_then (ensure_dir (dirname dst_fallback) dry_run)
            (if dry_run then
               log INFO DryRunCopyFallback [Text dst_primary; Text dst_fallback]
             else call (Copy2 dst_primary dst_fallback)
                       (copy2 dst_primary dst_fallback))))).

(** Lines 198-229: the body of the inner loop, for the file [fname] of the
    directory [root]; it returns the new value of [files_to_delete]. *)
Definition process_one (dst_dir : string) (top_groups : list Group)
    (hardlink_supported dry_run move : bool)
    (files_to_delete : list string) (root fname : string) : io (list string) :=
  let src_path := join root [fname] in
  io_bind (lift (process_file top_groups src_path)) (fun decision =>
    match decision with
    | None => ret files_to_delete
    | Some (primary, secondaries) =>
        and_then
          (place dst_dir hardlink_supported dry_run src_path fname
                 primary secondaries)
          (ret (if move then (files_to_delete ++ [src_path])%list
                else files_to_delete))
    end).

(** Lines 231-240: the deletion of the sources. *)
Definition delete_sources (dry_run : bool) (files_to_delete : list string)
  : io unit :=
  for_each files_to_delete (fun f =>
    if dry_run then log INFO DryRunDelete [Text f]
    else
      try_except_all
        (and_then (call (Remove f) (remove f)) (log INFO Deleted [Text f]))
        (fun e => log ERROR DeleteFailed [Text f; Exc e])).

(** Lines 196-229: the two loops.  [walk] is what [os.walk(src_dir)]
    yields during the run: each directory with the names of its files. *)
Definition place_all (dst_dir : string) (top_groups : list Group)
    (hardlink_supported dry_run move : bool)
    (walk : list (string * list string)) : io (list string) :=
  for_each_with walk [] (fun files_to_delete entry =>
    for_each_with (snd entry) files_to_delete (fun files_to_delete fname =>
      process_one dst_dir top_groups hardlink_supported dry_run move
                  files_to_delete (fst entry) fname)).

(** [process_all], lines 192-240. *)
Definition process_all (src_dir dst_dir : string) (top_groups : list Group)
    (dry_run move : bool) (walk : list (string * list string)) : io unit :=
  io_bind (check_same_drive src_dir dst_dir) (fun hardlink_supported =>
  io_bind (place_all dst_dir top_groups hardlink_supported dry_run move walk)
    (fun files_to_delete =>
  if move then delete_sources dry_run files_to_delete else ret tt)).

Definition outcome_of {A : Type} (run : outcome A * world * list event)
  : outcome A := fst (fst run).

Definition world_of {A : Type} (run : outcome A * world * list event)
  : world := snd (fst run).

Definition events_of {A : Type} (run : outcome A * world * list event)
  : list event := snd run.

End FileOps.

(** [posixpath.dirname] *)
Definition posix_dirname (p : string) : string :=
  let i := (Posix.rfind "/" p + 1)%Z in
  let head := Posix.slice 0 i p in
  if Str.truthy head && negb (all_chars (fun c => ("/" =? c)%char) head)
  then (fix rstrip_sep (s : string) : string :=
          match s with
          | EmptyString => EmptyString
          | String c r =>
              let r' := rstrip_sep r in
              if (c =? "/")%char && Str.is_empty r' then EmptyString
              else String c r'
          end) head
  else head.

Module MemoryFs.

(** A file system for the examples: the world is the list of the paths of
    the files there are; directories always exist. *)
Definition has (w : list string) (p : string) : bool :=
  existsb (String.eqb p) w.

Definition without (w : list string) (p : string) : list string :=
  filter (fun q => negb (String.eqb p q)) w.

Definition copy (src dst : string) (w : list string)
  : outcome unit * list string :=
  if has w src then (Returned tt, dst :: without w dst)
  else (Thrown (OSError "No such file or directory"), w).

Definition hardlink (src dst : string) (w : list string)
  : outcome unit * list string :=
  if has w dst then (Thrown (OSError "File exists"), w)
  else if has w src then (Returned tt, dst :: w)
  else (Thrown (OSError "No such file or directory"), w).

Definition unlink (p : string) (w : list string)
  : outcome unit * list string :=
  if has w p then (Returned tt, without w p)
  else (Thrown (OSError "No such file or directory"), w).

End MemoryFs.

#[export] Instance memory_fs : FileSystem := {
  world := list string;
  nt := false;
  abspath := fun _ p => p;
  splitdrive := fun p => (EmptyString, p);
  dirname := posix_dirname;
  path_exists := MemoryFs.has;
  makedirs := fun _ w => (Returned tt, w);
  copy2 := MemoryFs.copy;
  link := MemoryFs.hardlink;
  remove := MemoryFs.unlink
}.

Module SampleRun.

(** Scenario C, as a run: a library of two files, one of which belongs to
    two groups. *)
Definition forest : list Group := [Sample.kids; Sample.science].

Definition walk : list (string * list string) :=
  [("lib", ["kids_encyclopedia.pdf"; "notes.txt"])].

Definition library : @world memory_fs :=
  ["lib/kids_encyclopedia.pdf"; "lib/notes.txt"].

End SampleRun.

Section FileOpsVocabulary.

Context {engine : Regex} {os_path : OsPath} {fs : FileSystem}.

(** Every event that the computation causes, from whatever world it
    starts, satisfies [P]. *)
Definition emits {A : Type} (P : event -> Prop) (m : io A) : Prop :=
  forall w, Forall P (events_of (m w)).

Definition is_record (ev : event) : Prop :=
  match ev with
  | Log _ _ _ => True
  | _ => False
  end.

(** The file [fname] of the directory [root] of the walk has a decision:
    the primary group [primary] and the secondary groups
    [secondaries]. *)
Definition placed (top_groups : list Group)
    (walk : list (string * list string)) (root fname : string)
    (primary : Group) (secondaries : list Group) : Prop :=
  exists names,
    In (root, names) walk /\ In fname names
    /\ process_file top_groups (join root [fname])
       = Ok (Some (primary, secondaries)).

(** What a dry run may do: write log records, and create the directory
    of the destination of a file of the walk in one of its secondary
    groups. *)
Definition dry_event (dst_dir : string) (top_groups : list Group)
    (walk : list (string * list string)) (ev : event) : Prop :=
  match ev with
  | Log _ _ _ => True
  | Makedirs p =>
      exists root fname primary secondaries g,
        placed top_groups walk root fname primary secondaries
        /\ In g secondaries
        /\ p = dirname (destination dst_dir fname g)
  | _ => False
  end.

(** What the placement of files may do, besides writing log records.
    For a file of the walk that has a decision: create the directory of
    its destination in one of its groups; copy the file to its primary
    destination, or the primary copy to a secondary destination; link a
    secondary destination to the primary copy; remove what stands at a
    secondary destination. *)
Definition placement_event (dst_dir : string) (top_groups : list Group)
    (walk : list (string * list string)) (ev : event) : Prop :=
  match ev with
  | Log _ _ _ => True
  | Makedirs p =>
      exists root fname primary secondaries g,
        placed top_groups walk root fname primary secondaries
        /\ In g (primary :: secondaries)
        /\ p = dirname (destination dst_dir fname g)
  | Copy2 src dst =>
      exists root fname primary secondaries,
        placed top_groups walk root fname primary secondaries
        /\ ((src = join root [fname]
             /\ dst = destination dst_dir fname primary)
            \/ exists g,
                 In g secondaries
                 /\ src = destination dst_dir fname primary
                 /\ dst = destination dst_dir fname g)
  | Link s l =>
      exists root fname primary secondaries g w,
        placed top_groups walk root fname primary secondaries
        /\ In g secondaries
        /\ s = win_long_path w (destination dst_dir fname primary)
        /\ l = win_long_path w (destination dst_dir fname g)
  | Remove l =>
      exists root fname primary secondaries g w,
        placed top_groups walk root fname primary secondaries
        /\ In g secondaries
        /\ l = win_long_path w (destination dst_dir fname g)
  end.

(** The files of the walk that have a primary group. *)
Definition matched (top_groups : list Group) (walk : list (string * list string))
    (src_path : string) : Prop :=
  exists root files fname decision,
    In (root, files) walk /\ In fname files
    /\ src_path = join root [fname]
    /\ process_file top_groups src_path = Ok (Some decision).

End FileOpsVocabulary.

(** A computation that does nothing to the world, whether it returns or
    raises: it leaves the world as it found it and only writes log
    records. *)
Definition harmless {fs : FileSystem} {A : Type} (m : io A) : Prop :=
  forall w,
    world_of (m w) = w /\ Forall is_record (events_of (m w)).

(** A computation that does nothing to the world: it returns, leaves the
    world as it found it, and only writes log records. *)
Definition inert {fs : FileSystem} {A : Type} (m : io A) : Prop :=
  forall w,
    (exists a, outcome_of (m w) = Returned a)
    /\ world_of (m w) = w
    /\ Forall is_record (events_of (m w)).


(* ------------------------------------------------------------------ *)
(** ** Names over the whole of Unicode

    [normalize_name] once more, for every [str]: a sequence of code
    points of any size.  The model above is its restriction to the code
    points below U+0100 ([latin1_normalize_name] below). *)

Module Unicode.

Definition text : Type := list N.

(** What [normalize_name] takes from the Unicode character database:
    [isspace] is [str.isspace] on one character, which is also the class
    [\s] of a [str] pattern and what [str.strip] removes;
    [to_lower_full] is the lower case of one code point, which can be
    more than one code point; [is_cased] and [is_case_ignorable] are the
    two properties by which [str.lower] chooses the lower case of a
    capital sigma. *)
Class Database : Type := {
  isspace : N -> bool;
  to_lower_full : N -> list N;
  is_cased : N -> bool;
  is_case_ignorable : N -> bool
}.

Definition space : N := 32.

(** U+03A3, and its two lower case forms U+03C2 and U+03C3. *)
Definition capital_sigma : N := 931.
Definition final_sigma : N := 962.
Definition small_sigma : N := 963.

(** The class [[._\-]]. *)
Definition is_sep (c : N) : bool := ((c =? 46) || (c =? 95) || (c =? 45))%N.

Section Text.

Context {ucd : Database}.

(** [re.sub(r'C+', ' ', s)] for a character class [C]. *)
Fixpoint sub_runs (cls : N -> bool) (in_run : bool) (s : text) : text :=
  match s with
  | [] => []
  | c :: r =>
      if cls c then
        if in_run then sub_runs cls true r
        else space :: sub_runs cls true r
      else c :: sub_runs cls false r
  end.

Fixpoint lstrip (s : text) : text :=
  match s with
  | [] => []
  | c :: r => if isspace c then lstrip r else s
  end.

Fixpoint rstrip (s : text) : text :=
  match s with
  | [] => []
  | c :: r =>
      let r' := rstrip r in
      if isspace c && is_nil r' then [] else c :: r'
  end.

(** [s.strip()] *)
Definition strip (s : text) : text := lstrip (rstrip s).

(** The first character that is not case-ignorable. *)
Fixpoint first_solid (s : text) : option N :=
  match s with
  | [] => None
  | c :: r => if is_case_ignorable c then first_solid r else Some c
  end.

(** The context of a final sigma: a cased letter before it, and none
    after it, case-ignorable characters apart.  [before] holds the
    characters before the sigma, the nearest first. *)
Definition final_sigma_context (before after : text) : bool :=
  match first_solid before with
  | Some c =>
      is_cased c
      && match first_solid after with
         | Some d => negb (is_cased d)
         | None => true
         end
  | None => false
  end.

(** The lower case of the character [c] standing between [before] and
    [after]. *)
Definition lower_at (before : text) (c : N) (after : text) : list N :=
  if (c =? capital_sigma)%N then
    [if final_sigma_context before after then final_sigma else small_sigma]
  else to_lower_full c.

Fixpoint lower_from (before : text) (s : text) : text :=
  match s with
  | [] => []
  | c :: r => (lower_at before c r ++ lower_from (c :: before) r)%list
  end.

(** [s.lower()] *)
Definition lower (s : text) : text := lower_from [] s.

(** [normalize_name], lines 30-33. *)
Definition normalize_name (name : text) : text :=
  let s := sub_runs is_sep false name in
  let s := sub_runs isspace false s in
  lower (strip s).

(** *** Vocabulary *)

(** A character that [str.lower] leaves as it is, wherever it stands. *)
Definition lowered (c : N) : Prop :=
  c <> capital_sigma /\ to_lower_full c = [c].

(** The facts of the character database that the properties of
    [normalize_name] rest on.  The database of CPython has them
    ([cpython_laws]). *)
Record laws : Prop := {
  space_isspace : isspace space = true;
  sigma_not_space :
    isspace capital_sigma = false /\ isspace final_sigma = false
    /\ isspace small_sigma = false;
  sigmas_lowered :
    to_lower_full final_sigma = [final_sigma]
    /\ to_lower_full small_sigma = [small_sigma];
  lower_nonempty : forall c, c <> capital_sigma -> to_lower_full c <> [];
  lower_lowered :
    forall c d, c <> capital_sigma -> In d (to_lower_full c) -> lowered d;
  lower_space : forall c, isspace c = true -> to_lower_full c = [c];
  lower_sep : forall c, is_sep c = true -> to_lower_full c = [c];
  lower_not_space :
    forall c d, c <> capital_sigma -> isspace c = false ->
                In d (to_lower_full c) -> isspace d = false;
  lower_not_sep :
    forall c d, c <> capital_sigma -> is_sep c = false ->
                In d (to_lower_full c) -> is_sep d = false
}.

(** No character of the class [[._\-]]. *)
Definition no_sep (s : text) : bool := forallb (fun c => negb (is_sep c)) s.

(** Every white space character is a space that follows no other one;
    [prev] tells that the character before [s] is a space. *)
Fixpoint tidy (prev : bool) (s : text) : bool :=
  match s with
  | [] => true
  | c :: r =>
      if isspace c then (c =? space)%N && negb prev && tidy true r
      else tidy false r
  end.

(** The last character is not white space. *)
Fixpoint clean_end (s : text) : bool :=
  match s with
  | [] => true
  | c :: r =>
      match r with
      | [] => negb (isspace c)
      | _ :: _ => clean_end r
      end
  end.

(** A character that [normalize_name] turns into a space or drops. *)
Definition is_gap (c : N) : bool := is_sep c || isspace c.

(** The text with a space in place of each character of [[._\-]]. *)
Definition spaced (s : text) : text :=
  map (fun c => if is_sep c then space else c) s.

(** No capital sigma, the one character whose lower case depends on
    what stands around it. *)
Definition plain (s : text) : Prop := Forall (fun c => c <> capital_sigma) s.

(** The lower case of each character by itself. *)
Definition lower_each (s : text) : text := flat_map to_lower_full s.

(** What the lower case of a character can be. *)
Definition good_block (c : N) (blk : list N) : Prop :=
  blk <> []
  /\ Forall lowered blk
  /\ (isspace c = true -> blk = [c])
  /\ (isspace c = false -> Forall (fun d => isspace d = false) blk)
  /\ (is_sep c = false -> Forall (fun d => is_sep d = false) blk).

(** [image s s']: [s'] has, for each character of [s] and in the same
    order, a block that can be its lower case. *)
Inductive image : text -> text -> Prop :=
| image_nil : image [] []
| image_cons (c : N) (blk : list N) (s s' : text) :
    good_block c blk -> image s s' -> image (c :: s) (blk ++ s')%list.

End Text.

(** The character database of CPython 3.11, which is that of Unicode
    14.0.0, as tables of ranges of code points. *)
Module CPython.

(** How a row of the table of lower cases maps a code point: to the one
    [d] above it, to the one [d] below it, or to the code points [l]. *)
Inductive case_rule : Type :=
| Up (d : N)
| Down (d : N)
| Expands (l : list N).

Definition apply_rule (c : N) (r : case_rule) : list N :=
  match r with
  | Up d => [c + d]%N
  | Down d => [c - d]%N
  | Expands l => l
  end.

(** A row [(lo, hi, step, r)] gives the rule [r] to every [step]-th code
    point from [lo] to [hi]. *)
Definition in_row (c : N) (row : N * N * N * case_rule) : bool :=
  let '(lo, hi, step, _) := row in
  ((lo <=? c) && (c <=? hi) && ((c - lo) mod step =? 0))%N.

Definition in_ranges (ranges : list (N * N)) (c : N) : bool :=
  existsb (fun '(lo, hi) => ((lo <=? c) && (c <=? hi))%N) ranges.

(** The code points whose lower case is not themselves. *)
Definition lower_rows : list (N * N * N * case_rule) :=
  [
   (65, 90, 1, Up 32); (192, 214, 1, Up 32); (216, 222, 1, Up 32);
   (256, 302, 2, Up 1); (304, 304, 1, Expands [105; 775]);
   (306, 310, 2, Up 1); (313, 327, 2, Up 1); (330, 374, 2, Up 1);
   (376, 376, 1, Down 121); (377, 381, 2, Up 1); (385, 385, 1, Up 210);
   (386, 388, 2, Up 1); (390, 390, 1, Up 206); (391, 391, 1, Up 1);
   (393, 394, 1, Up 205); (395, 395, 1, Up 1); (398, 398, 1, Up 79);
   (399, 399, 1, Up 202); (400, 400, 1, Up 203); (401, 401, 1, Up 1);
   (403, 403, 1, Up 205); (404, 404, 1, Up 207); (406, 406, 1, Up 211);
   (407, 407, 1, Up 209); (408, 408, 1, Up 1); (412, 412, 1, Up 211);
   (413, 413, 1, Up 213); (415, 415, 1, Up 214); (416, 420, 2, Up 1);
   (422, 422, 1, Up 218); (423, 423, 1, Up 1); (425, 425, 1, Up 218);
   (428, 428, 1, Up 1); (430, 430, 1, Up 218); (431, 431, 1, Up 1);
   (433, 434, 1, Up 217); (435, 437, 2, Up 1); (439, 439, 1, Up 219);
   (440, 440, 1, Up 1); (444, 444, 1, Up 1); (452, 452, 1, Up 2);
   (453, 453, 1, Up 1); (455, 455, 1, Up 2); (456, 456, 1, Up 1);
   (458, 458, 1, Up 2); (459, 475, 2, Up 1); (478, 494, 2, Up 1);
   (497, 497, 1, Up 2); (498, 500, 2, Up 1); (502, 502, 1, Down 97);
   (503, 503, 1, Down 56); (504, 542, 2, Up 1); (544, 544, 1, Down 130);
   (546, 562, 2, Up 1); (570, 570, 1, Up 10795); (571, 571, 1, Up 1);
   (573, 573, 1, Down 163); (574, 574, 1, Up 10792); (577, 577, 1, Up 1);
   (579, 579, 1, Down 195); (580, 580, 1, Up 69); (581, 581, 1, Up 71);
   (582, 590, 2, Up 1); (880, 882, 2, Up 1); (886, 886, 1, Up 1);
   (895, 895, 1, Up 116); (902, 902, 1, Up 38); (904, 906, 1, Up 37);
   (908, 908, 1, Up 64); (910, 911, 1, Up 63); (913, 929, 1, Up 32);
   (931, 939, 1, Up 32); (975, 975, 1, Up 8); (984, 1006, 2, Up 1);
   (1012, 1012, 1, Down 60); (1015, 1015, 1, Up 1);
   (1017, 1017, 1, Down 7); (1018, 1018, 1, Up 1);
   (1021, 1023, 1, Down 130); (1024, 1039, 1, Up 80);
   (1040, 1071, 1, Up 32); (1120, 1152, 2, Up 1); (1162, 1214, 2, Up 1);
   (1216, 1216, 1, Up 15); (1217, 1229, 2, Up 1); (1232, 1326, 2, Up 1);
   (1329, 1366, 1, Up 48); (4256, 4293, 1, Up 7264);
   (4295, 4295, 1, Up 7264); (4301, 4301, 1, Up 7264);
   (5024, 5103, 1, Up 38864); (5104, 5109, 1, Up 8);
   (7312, 7354, 1, Down 3008); (7357, 7359, 1, Down 3008);
   (7680, 7828, 2, Up 1); (7838, 7838, 1, Down 7615);
   (7840, 7934, 2, Up 1); (7944, 7951, 1, Down 8);
   (7960, 7965, 1, Down 8); (7976, 7983, 1, Down 8);
   (7992, 7999, 1, Down 8); (8008, 8013, 1, Down 8);
   (8025, 8031, 2, Down 8); (8040, 8047, 1, Down 8);
   (8072, 8079, 1, Down 8); (8088, 8095, 1, Down 8);
   (8104, 8111, 1, Down 8); (8120, 8121, 1, Down 8);
   (8122, 8123, 1, Down 74); (8124, 8124, 1, Down 9);
   (8136, 8139, 1, Down 86); (8140, 8140, 1, Down 9);
   (8152, 8153, 1, Down 8); (8154, 8155, 1, Down 100);
   (8168, 8169, 1, Down 8); (8170, 8171, 1, Down 112);
   (8172, 8172, 1, Down 7); (8184, 8185, 1, Down 128);
   (8186, 8187, 1, Down 126); (8188, 8188, 1, Down 9);
   (8486, 8486, 1, Down 7517); (8490, 8490, 1, Down 8383);
   (8491, 8491, 1, Down 8262); (8498, 8498, 1, Up 28);
   (8544, 8559, 1, Up 16); (8579, 8579, 1, Up 1); (9398, 9423, 1, Up 26);
   (11264, 11311, 1, Up 48); (11360, 11360, 1, Up 1);
   (11362, 11362, 1, Down 10743); (11363, 11363, 1, Down 3814);
   (11364, 11364, 1, Down 10727); (11367, 11371, 2, Up 1);
   (11373, 11373, 1, Down 10780); (11374, 11374, 1, Down 10749);
   (11375, 11375, 1, Down 10783); (11376, 11376, 1, Down 10782);
   (11378, 11378, 1, Up 1); (11381, 11381, 1, Up 1);
   (11390, 11391, 1, Down 10815); (11392, 11490, 2, Up 1);
   (11499, 11501, 2, Up 1); (11506, 11506, 1, Up 1);
   (42560, 42604, 2, Up 1); (42624, 42650, 2, Up 1);
   (42786, 42798, 2, Up 1); (42802, 42862, 2, Up 1);
   (42873, 42875, 2, Up 1); (42877, 42877, 1, Down 35332);
   (42878, 42886, 2, Up 1); (42891, 42891, 1, Up 1);
   (42893, 42893, 1, Down 42280); (42896, 42898, 2, Up 1);
   (42902, 42920, 2, Up 1); (42922, 42922, 1, Down 42308);
   (42923, 42923, 1, Down 42319); (42924, 42924, 1, Down 42315);
   (42925, 42925, 1, Down 42305); (42926, 42926, 1, Down 42308);
   (42928, 42928, 1, Down 42258); (42929, 42929, 1, Down 42282);
   (42930, 42930, 1, Down 42261); (42931, 42931, 1, Up 928);
   (42932, 42946, 2, Up 1); (42948, 42948, 1, Down 48);
   (42949, 42949, 1, Down 42307); (42950, 42950, 1, Down 35384);
   (42951, 42953, 2, Up 1); (42960, 42960, 1, Up 1);
   (42966, 42968, 2, Up 1); (42997, 42997, 1, Up 1);
   (65313, 65338, 1, Up 32); (66560, 66599, 1, Up 40);
   (66736, 66771, 1, Up 40); (66928, 66938, 1, Up 39);
   (66940, 66954, 1, Up 39); (66956, 66962, 1, Up 39);
   (66964, 66965, 1, Up 39); (68736, 68786, 1, Up 64);
   (71840, 71871, 1, Up 32); (93760, 93791, 1, Up 32);
   (125184, 125217, 1, Up 34)
  ]%N.

(** White space: the characters of [str.isspace], of [\s] and of
    [str.strip]. *)
Definition space_ranges : list (N * N) :=
  [
   (9, 13); (28, 32); (133, 133); (160, 160); (5760, 5760); (8192, 8202);
   (8232, 8233); (8239, 8239); (8287, 8287); (12288, 12288)
  ]%N.

(** The property Cased. *)
Definition cased_ranges : list (N * N) :=
  [
   (65, 90); (97, 122); (170, 170); (181, 181); (186, 186); (192, 214);
   (216, 246); (248, 442); (444, 447); (452, 659); (661, 696); (704, 705);
   (736, 740); (837, 837); (880, 883); (886, 887); (890, 893); (895, 895);
   (902, 902); (904, 906); (908, 908); (910, 929); (931, 1013);
   (1015, 1153); (1162, 1327); (1329, 1366); (1376, 1416); (4256, 4293);
   (4295, 4295); (4301, 4301); (4304, 4346); (4349, 4351); (5024, 5109);
   (5112, 5117); (7296, 7304); (7312, 7354); (7357, 7359); (7424, 7615);
   (7680, 7957); (7960, 7965); (7968, 8005); (8008, 8013); (8016, 8023);
   (8025, 8025); (8027, 8027); (8029, 8029); (8031, 8061); (8064, 8116);
   (8118, 8124); (8126, 8126); (8130, 8132); (8134, 8140); (8144, 8147);
   (8150, 8155); (8160, 8172); (8178, 8180); (8182, 8188); (8305, 8305);
   (8319, 8319); (8336, 8348); (8450, 8450); (8455, 8455); (8458, 8467);
   (8469, 8469); (8473, 8477); (8484, 8484); (8486, 8486); (8488, 8488);
   (8490, 8493); (8495, 8500); (8505, 8505); (8508, 8511); (8517, 8521);
   (8526, 8526); (8544, 8575); (8579, 8580); (9398, 9449); (11264, 11492);
   (11499, 11502); (11506, 11507); (11520, 11557); (11559, 11559);
   (11565, 11565); (42560, 42605); (42624, 42653); (42786, 42887);
   (42891, 42894); (42896, 42954); (42960, 42961); (42963, 42963);
   (42965, 42969); (42997, 42998); (43000, 43002); (43824, 43866);
   (43868, 43880); (43888, 43967); (64256, 64262); (64275, 64279);
   (65313, 65338); (65345, 65370); (66560, 66639); (66736, 66771);
   (66776, 66811); (66928, 66938); (66940, 66954); (66956, 66962);
   (66964, 66965); (66967, 66977); (66979, 66993); (66995, 67001);
   (67003, 67004); (67456, 67456); (67459, 67461); (67463, 67504);
   (67506, 67514); (68736, 68786); (68800, 68850); (71840, 71903);
   (93760, 93823); (119808, 119892); (119894, 119964); (119966, 119967);
   (119970, 119970); (119973, 119974); (119977, 119980); (119982, 119993);
   (119995, 119995); (119997, 120003); (120005, 120069); (120071, 120074);
   (120077, 120084); (120086, 120092); (120094, 120121); (120123, 120126);
   (120128, 120132); (120134, 120134); (120138, 120144); (120146, 120485);
   (120488, 120512); (120514, 120538); (120540, 120570); (120572, 120596);
   (120598, 120628); (120630, 120654); (120656, 120686); (120688, 120712);
   (120714, 120744); (120746, 120770); (120772, 120779); (122624, 122633);
   (122635, 122654); (125184, 125251); (127280, 127305); (127312, 127337);
   (127344, 127369)
  ]%N.

(** The property Case_Ignorable. *)
Definition case_ignorable_ranges : list (N * N) :=
  [
   (39, 39); (46, 46); (58, 58); (94, 94); (96, 96); (168, 168);
   (173, 173); (175, 175); (180, 180); (183, 184); (688, 879); (884, 885);
   (890, 890); (900, 901); (903, 903); (1155, 1161); (1369, 1369);
   (1375, 1375); (1425, 1469); (1471, 1471); (1473, 1474); (1476, 1477);
   (1479, 1479); (1524, 1524); (1536, 1541); (1552, 1562); (1564, 1564);
   (1600, 1600); (1611, 1631); (1648, 1648); (1750, 1757); (1759, 1768);
   (1770, 1773); (1807, 1807); (1809, 1809); (1840, 1866); (1958, 1968);
   (2027, 2037); (2042, 2042); (2045, 2045); (2070, 2093); (2137, 2139);
   (2184, 2184); (2192, 2193); (2200, 2207); (2249, 2306); (2362, 2362);
   (2364, 2364); (2369, 2376); (2381, 2381); (2385, 2391); (2402, 2403);
   (2417, 2417); (2433, 2433); (2492, 2492); (2497, 2500); (2509, 2509);
   (2530, 2531); (2558, 2558); (2561, 2562); (2620, 2620); (2625, 2626);
   (2631, 2632); (2635, 2637); (2641, 2641); (2672, 2673); (2677, 2677);
   (2689, 2690); (2748, 2748); (2753, 2757); (2759, 2760); (2765, 2765);
   (2786, 2787); (2810, 2815); (2817, 2817); (2876, 2876); (2879, 2879);
   (2881, 2884); (2893, 2893); (2901, 2902); (2914, 2915); (2946, 2946);
   (3008, 3008); (3021, 3021); (3072, 3072); (3076, 3076); (3132, 3132);
   (3134, 3136); (3142, 3144); (3146, 3149); (3157, 3158); (3170, 3171);
   (3201, 3201); (3260, 3260); (3263, 3263); (3270, 3270); (3276, 3277);
   (3298, 3299); (3328, 3329); (3387, 3388); (3393, 3396); (3405, 3405);
   (3426, 3427); (3457, 3457); (3530, 3530); (3538, 3540); (3542, 3542);
   (3633, 3633); (3636, 3642); (3654, 3662); (3761, 3761); (3764, 3772);
   (3782, 3782); (3784, 3789); (3864, 3865); (3893, 3893); (3895, 3895);
   (3897, 3897); (3953, 3966); (3968, 3972); (3974, 3975); (3981, 3991);
   (3993, 4028); (4038, 4038); (4141, 4144); (4146, 4151); (4153, 4154);
   (4157, 4158); (4184, 4185); (4190, 4192); (4209, 4212); (4226, 4226);
   (4229, 4230); (4237, 4237); (4253, 4253); (4348, 4348); (4957, 4959);
   (5906, 5908); (5938, 5939); (5970, 5971); (6002, 6003); (6068, 6069);
   (6071, 6077); (6086, 6086); (6089, 6099); (6103, 6103); (6109, 6109);
   (6155, 6159); (6211, 6211); (6277, 6278); (6313, 6313); (6432, 6434);
   (6439, 6440); (6450, 6450); (6457, 6459); (6679, 6680); (6683, 6683);
   (6742, 6742); (6744, 6750); (6752, 6752); (6754, 6754); (6757, 6764);
   (6771, 6780); (6783, 6783); (6823, 6823); (6832, 6862); (6912, 6915);
   (6964, 6964); (6966, 6970); (6972, 6972); (6978, 6978); (7019, 7027);
   (7040, 7041); (7074, 7077); (7080, 7081); (7083, 7085); (7142, 7142);
   (7144, 7145); (7149, 7149); (7151, 7153); (7212, 7219); (7222, 7223);
   (7288, 7293); (7376, 7378); (7380, 7392); (7394, 7400); (7405, 7405);
   (7412, 7412); (7416, 7417); (7468, 7530); (7544, 7544); (7579, 7679);
   (8125, 8125); (8127, 8129); (8141, 8143); (8157, 8159); (8173, 8175);
   (8189, 8190); (8203, 8207); (8216, 8217); (8228, 8228); (8231, 8231);
   (8234, 8238); (8288, 8292); (8294, 8303); (8305, 8305); (8319, 8319);
   (8336, 8348); (8400, 8432); (11388, 11389); (11503, 11505);
   (11631, 11631); (11647, 11647); (11744, 11775); (11823, 11823);
   (12293, 12293); (12330, 12333); (12337, 12341); (12347, 12347);
   (12441, 12446); (12540, 12542); (40981, 40981); (42232, 42237);
   (42508, 42508); (42607, 42610); (42612, 42621); (42623, 42623);
   (42652, 42655); (42736, 42737); (42752, 42785); (42864, 42864);
   (42888, 42890); (42994, 42996); (43000, 43001); (43010, 43010);
   (43014, 43014); (43019, 43019); (43045, 43046); (43052, 43052);
   (43204, 43205); (43232, 43249); (43263, 43263); (43302, 43309);
   (43335, 43345); (43392, 43394); (43443, 43443); (43446, 43449);
   (43452, 43453); (43471, 43471); (43493, 43494); (43561, 43566);
   (43569, 43570); (43573, 43574); (43587, 43587); (43596, 43596);
   (43632, 43632); (43644, 43644); (43696, 43696); (43698, 43700);
   (43703, 43704); (43710, 43711); (43713, 43713); (43741, 43741);
   (43756, 43757); (43763, 43764); (43766, 43766); (43867, 43871);
   (43881, 43883); (44005, 44005); (44008, 44008); (44013, 44013);
   (64286, 64286); (64434, 64450); (65024, 65039); (65043, 65043);
   (65056, 65071); (65106, 65106); (65109, 65109); (65279, 65279);
   (65287, 65287); (65294, 65294); (65306, 65306); (65342, 65342);
   (65344, 65344); (65392, 65392); (65438, 65439); (65507, 65507);
   (65529, 65531); (66045, 66045); (66272, 66272); (66422, 66426);
   (67456, 67461); (67463, 67504); (67506, 67514); (68097, 68099);
   (68101, 68102); (68108, 68111); (68152, 68154); (68159, 68159);
   (68325, 68326); (68900, 68903); (69291, 69292); (69446, 69456);
   (69506, 69509); (69633, 69633); (69688, 69702); (69744, 69744);
   (69747, 69748); (69759, 69761); (69811, 69814); (69817, 69818);
   (69821, 69821); (69826, 69826); (69837, 69837); (69888, 69890);
   (69927, 69931); (69933, 69940); (70003, 70003); (70016, 70017);
   (70070, 70078); (70089, 70092); (70095, 70095); (70191, 70193);
   (70196, 70196); (70198, 70199); (70206, 70206); (70367, 70367);
   (70371, 70378); (70400, 70401); (70459, 70460); (70464, 70464);
   (70502, 70508); (70512, 70516); (70712, 70719); (70722, 70724);
   (70726, 70726); (70750, 70750); (70835, 70840); (70842, 70842);
   (70847, 70848); (70850, 70851); (71090, 71093); (71100, 71101);
   (71103, 71104); (71132, 71133); (71219, 71226); (71229, 71229);
   (71231, 71232); (71339, 71339); (71341, 71341); (71344, 71349);
   (71351, 71351); (71453, 71455); (71458, 71461); (71463, 71467);
   (71727, 71735); (71737, 71738); (71995, 71996); (71998, 71998);
   (72003, 72003); (72148, 72151); (72154, 72155); (72160, 72160);
   (72193, 72202); (72243, 72248); (72251, 72254); (72263, 72263);
   (72273, 72278); (72281, 72283); (72330, 72342); (72344, 72345);
   (72752, 72758); (72760, 72765); (72767, 72767); (72850, 72871);
   (72874, 72880); (72882, 72883); (72885, 72886); (73009, 73014);
   (73018, 73018); (73020, 73021); (73023, 73029); (73031, 73031);
   (73104, 73105); (73109, 73109); (73111, 73111); (73459, 73460);
   (78896, 78904); (92912, 92916); (92976, 92982); (92992, 92995);
   (94031, 94031); (94095, 94111); (94176, 94177); (94179, 94180);
   (110576, 110579); (110581, 110587); (110589, 110590); (113821, 113822);
   (113824, 113827); (118528, 118573); (118576, 118598); (119143, 119145);
   (119155, 119170); (119173, 119179); (119210, 119213); (119362, 119364);
   (121344, 121398); (121403, 121452); (121461, 121461); (121476, 121476);
   (121499, 121503); (121505, 121519); (122880, 122886); (122888, 122904);
   (122907, 122913); (122915, 122916); (122918, 122922); (123184, 123197);
   (123566, 123566); (123628, 123631); (125136, 125142); (125252, 125259);
   (127995, 127999); (917505, 917505); (917536, 917631); (917760, 917999)
  ]%N.

Definition isspace (c : N) : bool := in_ranges space_ranges c.

Definition to_lower_full (c : N) : list N :=
  match find (in_row c) lower_rows with
  | Some (_, _, _, r) => apply_rule c r
  | None => [c]
  end.

Definition is_cased (c : N) : bool := in_ranges cased_ranges c.

Definition is_case_ignorable (c : N) : bool :=
  in_ranges case_ignorable_ranges c.

(** The code points from [lo] to [hi]. *)
Definition span (lo hi : N) : list N :=
  map (fun k => (lo + N.of_nat k)%N) (seq 0 (S (N.to_nat (hi - lo)))).

(** The code points that the rows of [lower_rows] range over. *)
Definition lower_domain : list N :=
  flat_map (fun '(lo, hi, _, _) => span lo hi) lower_rows.

Fixpoint eqb_text (s t : list N) : bool :=
  match s, t with
  | [], [] => true
  | c :: s', d :: t' => (c =? d)%N && eqb_text s' t'
  | _, _ => false
  end.

(** The laws of the lower case at one code point, as a test. *)
Definition law_check (c : N) : bool :=
  let l := to_lower_full c in
  let unless_sigma (b : bool) := (c =? capital_sigma)%N || b in
  negb (is_nil l)
  && unless_sigma
       (forallb (fun d => negb (d =? capital_sigma)%N
                          && eqb_text (to_lower_full d) [d]) l)
  && (negb (isspace c || is_sep c) || eqb_text l [c])
  && unless_sigma (isspace c || forallb (fun d => negb (isspace d)) l)
  && unless_sigma (is_sep c || forallb (fun d => negb (is_sep d)) l).

End CPython.

#[export] Instance cpython : Database := {
  isspace := CPython.isspace;
  to_lower_full := CPython.to_lower_full;
  is_cased := CPython.is_cased;
  is_case_ignorable := CPython.is_case_ignorable
}.

(** The code points of a string of the model above. *)
Fixpoint codes (s : string) : text :=
  match s with
  | EmptyString => []
  | String c r => N_of_ascii c :: codes r
  end.

(** "ΟΔΥΣΣΕΥΣ_Книга-1.pdf" *)
Definition odyssey : text :=
  [927; 916; 933; 931; 931; 917; 933; 931; 95;
   1050; 1085; 1080; 1075; 1072; 45; 49; 46; 112; 100; 102]%N.

(** "Книга_1-2.PDF" *)
Definition kniga : text :=
  [1050; 1085; 1080; 1075; 1072; 95; 49; 45; 50; 46; 80; 68; 70]%N.

(** " ._-\t" then a no-break space and an ideographic space *)
Definition blank : text := [32; 46; 95; 45; 9; 160; 12288]%N.

(** "ΑΣ.Β" *)
Definition alpha_sigma_beta : text := [913; 931; 46; 914]%N.

End Unicode.
(* ------------------------------------------------------------------ *)
(** * Properties *)

(** ** The [str] methods *)


Lemma lstrip_lstrip s : Str.lstrip (Str.lstrip s) = Str.lstrip s.
Proof.
  induction s as [|c r IH]; simpl; [reflexivity|].
  destruct (Char.isspace c) eqn:E; [exact IH|]. simpl. rewrite E. reflexivity.
Qed.

Lemma rstrip_rstrip s : Str.rstrip (Str.rstrip s) = Str.rstrip s.
Proof.
  induction s as [|c r IH]; simpl; [reflexivity|].
  destruct (Char.isspace c && Str.is_empty (Str.rstrip r)) eqn:E; simpl;
    [reflexivity|].
  rewrite IH, E. reflexivity.
Qed.

Lemma rstrip_lstrip_fixed s :
  Str.rstrip s = s -> Str.rstrip (Str.lstrip s) = Str.lstrip s.
Proof.
  induction s as [|c r IH]; simpl; [reflexivity|].
  intro H.
  destruct (Char.isspace c && Str.is_empty (Str.rstrip r)) eqn:E;
    [discriminate|].
  injection H as Hr.
  destruct (Char.isspace c) eqn:Ec; [auto|].
  simpl. rewrite Ec. simpl. rewrite Hr. reflexivity.
Qed.

Lemma strip_strip s : Str.strip (Str.strip s) = Str.strip s.
Proof.
  unfold Str.strip.
  rewrite (rstrip_lstrip_fixed (Str.rstrip s)) by apply rstrip_rstrip.
  apply lstrip_lstrip.
Qed.


(* ------------------------------------------------------------------ *)
(** ** The exception monad *)

Lemma bind_Ok {A B : Type} (m : result A) (k : A -> result B) b :
  bind m k = Ok b -> exists a, m = Ok a /\ k a = Ok b.
Proof. destruct m as [a|e]; simpl; [eauto | discriminate]. Qed.

Lemma bind_Raise {A B : Type} (m : result A) (k : A -> result B) e :
  bind m k = Raise e -> m = Raise e \/ exists a, m = Ok a /\ k a = Raise e.
Proof.
  destruct m as [a|e']; simpl; [eauto|].
  intro H. injection H as ->. left. reflexivity.
Qed.

(* ------------------------------------------------------------------ *)
(** ** Patterns *)

Section PatternFacts.

Context {engine : Regex}.

Lemma regex_alt_eq pattern text :
  alt_matches ("regex:" ++ pattern) text
  = try_except (re_search pattern text) is_re_error (Ok false).
Proof.
  unfold alt_matches, Str.startswith. simpl.
  replace (prefix EmptyString pattern) with true by (destruct pattern; reflexivity).
  reflexivity.
Qed.

(** An alternative that is not a regular expression returns. *)
Lemma alt_matches_plain_total alt text :
  Str.startswith "regex:" alt = false ->
  exists hit, alt_matches alt text = Ok hit.
Proof.
  intro H. unfold alt_matches. rewrite H.
  destruct (Str.contains "*" alt); eauto.
Qed.

(** What an alternative raises is what [re.search] raised on it, and it
    is never [re.error]. *)
Lemma alt_matches_raise alt text e :
  alt_matches alt text = Raise e ->
  Str.startswith "regex:" alt = true
  /\ re_search (Str.drop (String.length "regex:") alt) text = Raise e
  /\ e <> re_error.
Proof.
  unfold alt_matches. destruct (Str.startswith "regex:" alt).
  - destruct (re_search _ text) as [found|e'] eqn:E; simpl; [discriminate|].
    destruct e'; simpl; intro H; try discriminate;
      injection H as <-; repeat split; discriminate.
  - destruct (Str.contains "*" alt); discriminate.
Qed.

Lemma matches_from_app before after text :
  matches_from (before ++ after)%list text =
  (hit <- matches_from before text ;;
   if hit then Ok true else matches_from after text).
Proof.
  induction before as [|alt rest IH]; simpl; [reflexivity|].
  destruct (alt_matches alt text) as [[|]|e]; simpl; auto.
Qed.

Lemma matches_from_total alts text :
  (forall alt, In alt alts -> exists hit, alt_matches alt text = Ok hit) ->
  exists hit, matches_from alts text = Ok hit.
Proof.
  induction alts as [|alt rest IH]; intro H; simpl; [eauto|].
  destruct (H alt (or_introl eq_refl)) as [[|] ->]; simpl; [eauto|].
  apply IH. intros a Ha. apply H. right. exact Ha.
Qed.

Lemma matches_from_raise alts text e :
  matches_from alts text = Raise e ->
  exists alt, In alt alts /\ alt_matches alt text = Raise e.
Proof.
  induction alts as [|alt rest IH]; simpl; [discriminate|].
  destruct (alt_matches alt text) as [[|]|e'] eqn:E; simpl.
  - discriminate.
  - intro H. destruct (IH H) as (a & Ha & Hr). eauto.
  - intro H. injection H as ->. eauto.
Qed.

(** A match comes from an alternative that matches. *)
Lemma matches_from_true_in alts text :
  matches_from alts text = Ok true ->
  exists alt, In alt alts /\ alt_matches alt text = Ok true.
Proof.
  induction alts as [|alt rest IH]; simpl; [discriminate|].
  destruct (alt_matches alt text) as [[|]|e'] eqn:E; simpl.
  - intros _. eauto.
  - intro H. destruct (IH H) as (a & Ha & Hr). eauto.
  - discriminate.
Qed.

Lemma matches_from_false alts text :
  matches_from alts text = Ok false <->
  forall alt, In alt alts -> alt_matches alt text = Ok false.
Proof.
  induction alts as [|alt rest IH]; simpl.
  - split; [intros _ a [] | reflexivity].
  - destruct (alt_matches alt text) as [[|]|e'] eqn:E; simpl.
    + split; [discriminate|]. intro H.
      specialize (H alt (or_introl eq_refl)). congruence.
    + rewrite IH. split.
      * intros H a [<- | Ha]; auto.
      * intros H a Ha. auto.
    + split; [discriminate|]. intro H.
      specialize (H alt (or_introl eq_refl)). congruence.
Qed.

(** An alternative that matches makes the pattern match, when the
    alternatives before it return. *)
Lemma matches_from_later before alt after text :
  (forall a, In a before -> exists hit, alt_matches a text = Ok hit) ->
  alt_matches alt text = Ok true ->
  matches_from (before ++ alt :: after)%list text = Ok true.
Proof.
  induction before as [|a rest IH]; intros Hret Hhit; simpl.
  - rewrite Hhit. reflexivity.
  - destruct (Hret a (or_introl eq_refl)) as [[|] ->]; simpl; [reflexivity|].
    apply IH; [|exact Hhit]. intros b Hb. apply Hret. right. exact Hb.
Qed.

Lemma matches_from_hit alts alt text :
  (forall a, In a alts -> exists hit, alt_matches a text = Ok hit) ->
  In alt alts -> alt_matches alt text = Ok true ->
  matches_from alts text = Ok true.
Proof.
  intros Hret Hin Hhit. apply in_split in Hin as (before & after & ->).
  apply matches_from_later; [|exact Hhit].
  intros a Ha. apply Hret, in_or_app. left. exact Ha.
Qed.

(** C4. Scenario D: the pattern built from "PHP*MySQL|PHP" has the two
    alternatives "PHP*MySQL" and "PHP"; its wildcard alternative matches
    the text "php and mysql tutorial", the two segments "php" and "mysql"
    being substrings of it, so the pattern matches; and its priority is
    9, the length of "PHP*MySQL", not 3. *)
Theorem scenario_D_wildcard_and_priority :
  let p := new_Pattern "PHP*MySQL|PHP" in
  let text := "php and mysql tutorial" in
  alternatives p = ["PHP*MySQL"; "PHP"]
  /\ map normalize_name
         (filter (fun t => Str.truthy (Str.strip t))
                 (Str.split "*" "PHP*MySQL")) = ["php"; "mysql"]
  /\ Str.contains "php" text = true
  /\ Str.contains "mysql" text = true
  /\ alt_matches "PHP*MySQL" text = Ok true
  /\ matches p text = Ok true
  /\ priority p = 9
  /\ priority p = String.length "PHP*MySQL"
  /\ priority p <> String.length "PHP".
Proof.
  cbv zeta. repeat split; try reflexivity.
  vm_compute. discriminate.
Qed.

(** C10. The pattern built from "*" has the single alternative "*",
    a wildcard with no segment that is not empty; it matches every
    text. *)
Theorem star_matches_every_text (text : string) :
  alternatives (new_Pattern "*") = ["*"]
  /\ filter (fun t => Str.truthy (Str.strip t)) (Str.split "*" "*") = []
  /\ matches (new_Pattern "*") text = Ok true.
Proof. repeat split; reflexivity. Qed.

(** X29. A regular expression alternative on which [re.search] raises
    [re.error] does not make [matches] raise: the
    alternative counts as one that does not match, the pattern behaves
    as if the alternative were not there, and an alternative after it
    that matches still makes the pattern match, when the alternatives
    before that one return.  [matches] never raises [re.error]; what it
    raises was raised by [re.search] on another alternative, and is not
    [re.error]. *)
Theorem invalid_regex_is_skipped
    (p : Pattern) (before after : list string) (pattern text : string) :
  alternatives p = (before ++ ("regex:" ++ pattern)%string :: after)%list ->
  re_search pattern text = Raise re_error ->
  alt_matches ("regex:" ++ pattern) text = Ok false
  /\ matches p text = matches_from (before ++ after)%list text
  /\ matches p text <> Raise re_error
  /\ (forall e, matches p text = Raise e ->
        exists alt,
          In alt (before ++ after)%list
          /\ Str.startswith "regex:" alt = true
          /\ re_search (Str.drop (String.length "regex:") alt) text = Raise e
          /\ e <> re_error)
  /\ (forall middle alt rest,
        after = (middle ++ alt :: rest)%list ->
        (forall a, In a (before ++ middle)%list ->
                   exists hit, alt_matches a text = Ok hit) ->
        alt_matches alt text = Ok true ->
        matches p text = Ok true)
  /\ ((forall a, In a (before ++ after)%list ->
                 exists hit, alt_matches a text = Ok hit) ->
      exists hit, matches p text = Ok hit).
Proof.
  intros Halts Hbad.
  assert (Hskip : alt_matches ("regex:" ++ pattern) text = Ok false)
    by (rewrite regex_alt_eq, Hbad; reflexivity).
  assert (Hsame : matches p text = matches_from (before ++ after)%list text).
  { unfold matches. rewrite Halts, !matches_from_app.
    change (matches_from (("regex:" ++ pattern) :: after) text)
      with (hit <- alt_matches ("regex:" ++ pattern) text ;;
            if hit then Ok true else matches_from after text).
    rewrite Hskip. reflexivity. }
  assert (Hraise : forall e, matches p text = Raise e ->
            exists alt,
              In alt (before ++ after)%list
              /\ Str.startswith "regex:" alt = true
              /\ re_search (Str.drop (String.length "regex:") alt) text = Raise e
              /\ e <> re_error).
  { intros e He. rewrite Hsame in He.
    apply matches_from_raise in He as (alt & Hin & He).
    exists alt. split; [exact Hin|]. exact (alt_matches_raise _ _ _ He). }
  split; [exact Hskip|]. split; [exact Hsame|]. split; [|split; [exact Hraise|split]].
  - intro He. destruct (Hraise _ He) as (alt & _ & _ & _ & Hne). congruence.
  - intros middle alt rest -> Hret Hhit. rewrite Hsame, app_assoc.
    apply matches_from_later; assumption.
  - intro Hret. rewrite Hsame. apply matches_from_total, Hret.
Qed.

End PatternFacts.

Lemma invalid_regex_is_skipped_witness :
  alternatives (new_Pattern "regex:(|Python") = ["regex:("; "Python"]
  /\ re_search "(" "python basics" = Raise re_error
  /\ matches (new_Pattern "regex:(|Python") "python basics" = Ok true.
Proof.
  assert (Halts : alternatives (new_Pattern "regex:(|Python")
                  = ([] ++ ("regex:" ++ "(")%string :: ["Python"])%list)
    by reflexivity.
  assert (Hbad : re_search "(" "python basics" = Raise re_error) by reflexivity.
  split; [reflexivity|]. split; [exact Hbad|].
  refine (proj1 (proj2 (proj2 (proj2 (proj2
            (invalid_regex_is_skipped _ [] ["Python"] "(" "python basics"
                                      Halts Hbad)))))
            [] "Python" [] eq_refl _ eq_refl).
  intros a [].
Defined.

(** C6. [matches] at a regular expression that does not compile and for
    which the engine raises something else than [re.error]: the handler
    of line 54 does not catch it.  The regular expression "a{4294967296}"
    makes the engine raise [OverflowError], and "(?a)x" [ValueError];
    [matches] raises that exception to the caller, and the alternative
    "Python" after it, which matches the text, is not evaluated. *)
Theorem uncompilable_regex_raises :
  alternatives (new_Pattern "regex:a{4294967296}|Python")
  = ["regex:a{4294967296}"; "Python"]
  /\ re_search "a{4294967296}" "python basics" = Raise OverflowError
  /\ alt_matches "Python" "python basics" = Ok true
  /\ matches (new_Pattern "regex:a{4294967296}|Python") "python basics"
     = Raise OverflowError
  /\ ~ (exists hit,
          matches (new_Pattern "regex:a{4294967296}|Python") "python basics"
          = Ok hit)
  /\ alternatives (new_Pattern "regex:(?a)x|Python")
     = ["regex:(?a)x"; "Python"]
  /\ matches (new_Pattern "regex:(?a)x|Python") "python basics"
     = Raise (ValueError "ASCII and UNICODE flags are incompatible").
Proof.
  assert (H : matches (new_Pattern "regex:a{4294967296}|Python") "python basics"
              = Raise OverflowError) by (vm_compute; reflexivity).
  repeat split; try (vm_compute; reflexivity).
  intros [hit Hhit]. rewrite H in Hhit. discriminate.
Qed.

(* ------------------------------------------------------------------ *)
(** ** The classifier *)

Lemma Group_ind_subs (P : Group -> Prop) :
  (forall g, Forall P (subgroups g) -> P g) -> forall g, P g.
Proof.
  intro step. fix IH 1. intros [n p subs inc exc]. apply step. simpl.
  induction subs as [|sub rest IHsubs]; constructor; [apply IH | exact IHsubs].
Qed.

Lemma group_size_sub g sub :
  In sub (subgroups g) -> group_size sub < group_size g.
Proof.
  destruct g as [n p subs inc exc]. simpl.
  induction subs as [|s rest IH]; simpl; [tauto|].
  intros [-> | Hin]; [lia|]. specialize (IH Hin). lia.
Qed.

Section ClassifierFacts.

Context {engine : Regex} {os_path : OsPath}.

Lemma any_matches_total ps text :
  (forall p, In p ps -> exists hit, matches p text = Ok hit) ->
  exists hit, any_matches ps text = Ok hit.
Proof.
  induction ps as [|p rest IH]; intro H; simpl; [eauto|].
  destruct (H p (or_introl eq_refl)) as [[|] ->]; simpl; [eauto|].
  apply IH. intros q Hq. apply H. right. exact Hq.
Qed.

Lemma any_matches_raise ps text e :
  any_matches ps text = Raise e ->
  exists p, In p ps /\ matches p text = Raise e.
Proof.
  induction ps as [|p rest IH]; simpl; [discriminate|].
  destruct (matches p text) as [[|]|e'] eqn:E; simpl.
  - discriminate.
  - intro H. destruct (IH H) as (q & Hq & Hr). eauto.
  - intro H. injection H as ->. eauto.
Qed.

Lemma any_matches_true_in ps text :
  any_matches ps text = Ok true ->
  exists p, In p ps /\ matches p text = Ok true.
Proof.
  induction ps as [|p rest IH]; simpl; [discriminate|].
  destruct (matches p text) as [[|]|e'] eqn:E; simpl.
  - intros _. eauto.
  - intro H. destruct (IH H) as (q & Hq & Hr). eauto.
  - discriminate.
Qed.

Lemma any_matches_hit ps p text :
  (forall q, In q ps -> exists hit, matches q text = Ok hit) ->
  In p ps -> matches p text = Ok true ->
  any_matches ps text = Ok true.
Proof.
  induction ps as [|q rest IH]; intros Hret Hin Hhit; simpl; [destruct Hin|].
  destruct (Hret q (or_introl eq_refl)) as [[|] Hq]; rewrite Hq; simpl;
    [reflexivity|].
  destruct Hin as [-> | Hin]; [congruence|].
  apply IH; [|exact Hin | exact Hhit].
  intros r Hr. apply Hret. right. exact Hr.
Qed.

Lemma any_matches_false ps text :
  any_matches ps text = Ok false <->
  forall p, In p ps -> matches p text = Ok false.
Proof.
  induction ps as [|q rest IH]; simpl.
  - split; [tauto | reflexivity].
  - destruct (matches q text) as [[|]|e] eqn:Hq; simpl.
    + split; [discriminate|]. intro H.
      specialize (H q (or_introl eq_refl)). congruence.
    + rewrite IH. split.
      * intros H p [<- | Hin]; auto.
      * intros H p Hin. auto.
    + split; [discriminate|]. intro H.
      specialize (H q (or_introl eq_refl)). congruence.
Qed.

Lemma file_matches_group_name_eq file_path group :
  file_matches_group_name file_path group =
  if is_nil (include_patterns group) then Ok false
  else
    inc <- any_matches (include_patterns group) (normalized_stem file_path) ;;
    if negb inc then Ok false
    else
      exc <- any_matches (exclude_patterns group) (normalized_stem file_path) ;;
      if exc then Ok false else Ok true.
Proof. reflexivity. Qed.

(** The group matches on its own only under the conditions (a), (b) and
    (c). *)
Lemma file_matches_group_name_true file_path group :
  file_matches_group_name file_path group = Ok true ->
  include_patterns group <> []
  /\ (exists p, In p (include_patterns group)
                /\ matches p (normalized_stem file_path) = Ok true)
  /\ (forall p, In p (exclude_patterns group) ->
                matches p (normalized_stem file_path) = Ok false).
Proof.
  rewrite file_matches_group_name_eq.
  destruct (include_patterns group) as [|p0 ps] eqn:Einc; simpl is_nil; cbv iota;
    [discriminate|].
  destruct (any_matches (p0 :: ps) (normalized_stem file_path))
    as [[|]|e] eqn:Ei; simpl; try discriminate.
  destruct (any_matches (exclude_patterns group) (normalized_stem file_path))
    as [[|]|e] eqn:Ee; simpl; try discriminate.
  intros _. split; [discriminate|]. split.
  - exact (any_matches_true_in _ _ Ei).
  - exact (proj1 (any_matches_false _ _) Ee).
Qed.

(** The other direction, for patterns that return. *)
Lemma file_matches_group_name_hit file_path group :
  (forall p, In p (include_patterns group) ->
             exists hit, matches p (normalized_stem file_path) = Ok hit) ->
  include_patterns group <> [] ->
  (exists p, In p (include_patterns group)
             /\ matches p (normalized_stem file_path) = Ok true) ->
  (forall p, In p (exclude_patterns group) ->
             matches p (normalized_stem file_path) = Ok false) ->
  file_matches_group_name file_path group = Ok true.
Proof.
  intros Hret Hsome (p & Hin & Hp) Hun.
  rewrite file_matches_group_name_eq.
  destruct (include_patterns group) as [|p0 ps] eqn:Einc; [congruence|].
  simpl is_nil. cbv iota.
  rewrite (any_matches_hit _ p _ Hret Hin Hp). simpl.
  rewrite (proj2 (any_matches_false _ _) Hun). reflexivity.
Qed.

Lemma file_matches_group_name_total file_path group :
  (forall p, In p (include_patterns group ++ exclude_patterns group)%list ->
             exists hit, matches p (normalized_stem file_path) = Ok hit) ->
  exists direct, file_matches_group_name file_path group = Ok direct.
Proof.
  intro Hret. rewrite file_matches_group_name_eq.
  destruct (is_nil (include_patterns group)); [eauto|].
  destruct (any_matches_total (include_patterns group)
              (normalized_stem file_path)) as [[|] ->]; simpl; [| |eauto].
  - intros p Hp. apply Hret, in_or_app. left. exact Hp.
  - destruct (any_matches_total (exclude_patterns group)
                (normalized_stem file_path)) as [[|] ->]; simpl; eauto.
    intros p Hp. apply Hret, in_or_app. right. exact Hp.
Qed.

Lemma file_matches_group_name_raise file_path group e :
  file_matches_group_name file_path group = Raise e ->
  exists p, In p (include_patterns group ++ exclude_patterns group)%list
            /\ matches p (normalized_stem file_path) = Raise e.
Proof.
  rewrite file_matches_group_name_eq.
  destruct (is_nil (include_patterns group)); [discriminate|].
  intro H. apply bind_Raise in H as [H | (inc & _ & H)].
  - apply any_matches_raise in H as (p & Hp & Hr).
    exists p. split; [apply in_or_app; left|]; assumption.
  - destruct inc; simpl in H; [|discriminate].
    apply bind_Raise in H as [H | (exc & _ & H)].
    + apply any_matches_raise in H as (p & Hp & Hr).
      exists p. split; [apply in_or_app; right|]; assumption.
    + destruct exc; discriminate.
Qed.

Lemma match_file_recursively_eq file_path group :
  match_file_recursively file_path group =
  (matches <- extend_each (match_file_recursively file_path) []
                          (subgroups group) ;;
   if is_nil matches then
     direct <- file_matches_group_name file_path group ;;
     if direct then Ok (matches ++ [group])%list else Ok matches
   else Ok matches).
Proof. destruct group. reflexivity. Qed.

Lemma extend_each_results f acc groups found :
  Forall2 (fun g ms => f g = Ok ms) groups found ->
  extend_each f acc groups = Ok (acc ++ List.concat found)%list.
Proof.
  intro H. revert acc.
  induction H as [|g ms groups found Hg _ IH]; intro acc; simpl.
  - rewrite app_nil_r. reflexivity.
  - rewrite Hg. simpl. rewrite IH, app_assoc. reflexivity.
Qed.

(** A loop that returns got a result from every group. *)
Lemma extend_each_Ok f groups :
  forall acc r,
    extend_each f acc groups = Ok r ->
    exists found,
      Forall2 (fun g ms => f g = Ok ms) groups found
      /\ r = (acc ++ List.concat found)%list.
Proof.
  induction groups as [|g rest IH]; intros acc r H; simpl in H.
  - injection H as <-. exists []. split; [constructor|].
    simpl. rewrite app_nil_r. reflexivity.
  - apply bind_Ok in H as (ms & Hg & H).
    destruct (IH _ _ H) as (found & Hfound & ->).
    exists (ms :: found). split; [constructor; assumption|].
    simpl. rewrite app_assoc. reflexivity.
Qed.

Lemma extend_each_Raise f groups :
  forall acc e,
    extend_each f acc groups = Raise e ->
    exists g, In g groups /\ f g = Raise e.
Proof.
  induction groups as [|g rest IH]; intros acc e H; simpl in H; [discriminate|].
  apply bind_Raise in H as [H | (ms & _ & H)].
  - exists g. split; [left; reflexivity | exact H].
  - destruct (IH _ _ H) as (g' & Hg' & Hr). exists g'. split; [right|]; assumption.
Qed.

Lemma results_exist (f : Group -> result (list Group)) groups :
  Forall (fun g => exists ms, f g = Ok ms) groups ->
  exists found, Forall2 (fun g ms => f g = Ok ms) groups found.
Proof.
  induction 1 as [|g groups [ms Hg] _ [found IH]].
  - exists []. constructor.
  - exists (ms :: found). constructor; assumption.
Qed.

Lemma extend_each_ext f1 f2 acc groups :
  Forall (fun g => f1 g = f2 g) groups ->
  extend_each f1 acc groups = extend_each f2 acc groups.
Proof.
  intro H. revert acc. induction H as [|g groups Hg _ IH]; intro acc; simpl.
  - reflexivity.
  - rewrite Hg. destruct (f2 g); simpl; auto.
Qed.

(** The result for a group, from the results for its subgroups. *)
Lemma match_file_recursively_from_subs file_path group found :
  Forall2 (fun sub ms => match_file_recursively file_path sub = Ok ms)
          (subgroups group) found ->
  match_file_recursively file_path group =
  if is_nil (List.concat found) then
    direct <- file_matches_group_name file_path group ;;
    if direct then Ok [group] else Ok []
  else Ok (List.concat found).
Proof.
  intro H. rewrite match_file_recursively_eq.
  rewrite (extend_each_results _ _ _ _ H). simpl.
  destruct (List.concat found); reflexivity.
Qed.

(** A result for a group comes with a result for each of its
    subgroups. *)
Lemma subgroup_results file_path group ms :
  match_file_recursively file_path group = Ok ms ->
  exists found,
    Forall2 (fun sub r => match_file_recursively file_path sub = Ok r)
            (subgroups group) found.
Proof.
  rewrite match_file_recursively_eq. intro H.
  apply bind_Ok in H as (r & Hr & _).
  destruct (extend_each_Ok _ _ _ _ Hr) as (found & Hfound & _). eauto.
Qed.

Lemma forest_results top_groups src_path ms :
  match_forest top_groups src_path = Ok ms ->
  exists found,
    Forall2 (fun g r => match_file_recursively src_path g = Ok r)
            top_groups found
    /\ ms = List.concat found.
Proof.
  unfold match_forest. intro H.
  destruct (extend_each_Ok _ _ _ _ H) as (found & Hfound & ->). eauto.
Qed.

Lemma in_concat_results {A B : Type} (R : A -> list B -> Prop) xs found y :
  Forall2 R xs found -> In y (List.concat found) ->
  exists x ms, In x xs /\ R x ms /\ In y ms.
Proof.
  induction 1 as [|x ms xs found Hx _ IH]; simpl; [tauto|].
  intro Hin. apply in_app_or in Hin as [Hin | Hin].
  - exists x, ms. auto.
  - destruct (IH Hin) as (x' & ms' & Hx' & HR & Hy). exists x', ms'. auto.
Qed.

(** Every group of a result matches on its own and belongs to the tree
    that was searched. *)
Lemma match_file_recursively_sound file_path group :
  forall ms x,
    match_file_recursively file_path group = Ok ms -> In x ms ->
    file_matches_group_name file_path x = Ok true
    /\ group_size x <= group_size group.
Proof.
  induction group as [group IH] using Group_ind_subs.
  intros ms x Hms Hx.
  destruct (subgroup_results file_path group ms Hms) as [found Hfound].
  rewrite (match_file_recursively_from_subs _ _ _ Hfound) in Hms.
  destruct (is_nil (List.concat found)) eqn:Enil.
  - destruct (file_matches_group_name file_path group) as [[|]|e] eqn:Edirect;
      simpl in Hms; inversion Hms; subst ms.
    + destruct Hx as [<- | []]. auto.
    + destruct Hx.
  - inversion Hms; subst ms.
    destruct (in_concat_results _ _ _ _ Hfound Hx) as (sub & r & Hsub & Hr & Hxr).
    rewrite Forall_forall in IH.
    destruct (IH sub Hsub r x Hr Hxr) as [Hdirect Hsize].
    split; [exact Hdirect|].
    pose proof (group_size_sub group sub Hsub). lia.
Qed.

Lemma match_forest_sound top_groups src_path ms x :
  match_forest top_groups src_path = Ok ms -> In x ms ->
  file_matches_group_name src_path x = Ok true.
Proof.
  intros Hms Hx.
  destruct (forest_results _ _ _ Hms) as (found & Hfound & ->).
  destruct (in_concat_results _ _ _ _ Hfound Hx) as (g & r & _ & Hr & Hxr).
  exact (proj1 (match_file_recursively_sound _ _ _ _ Hr Hxr)).
Qed.

End ClassifierFacts.

Section ClassifierProperties.

Context {engine : Regex} {os_path : OsPath}.

(** C1. Descendant precedence: when the descent into the subgroups of a
    group, depth first and from left to right, finds at least one match,
    [match_file_recursively] returns exactly the matches of the
    subgroups, in that order, and the group itself is not among them,
    whatever its own include and exclude patterns say about the file. *)
Theorem descendant_precedence
    (file_path : string) (group : Group) (found : list (list Group)) :
  Forall2 (fun sub ms => match_file_recursively file_path sub = Ok ms)
          (subgroups group) found ->
  List.concat found <> [] ->
  match_file_recursively file_path group = Ok (List.concat found)
  /\ ~ In group (List.concat found).
Proof.
  intros Hfound Hsome. split.
  - rewrite (match_file_recursively_from_subs _ _ _ Hfound).
    destruct (List.concat found); [congruence | reflexivity].
  - intro Hin.
    destruct (in_concat_results _ _ _ _ Hfound Hin)
      as (sub & ms & Hsub & Hms & Hx).
    pose proof (proj2 (match_file_recursively_sound _ _ _ _ Hms Hx)).
    pose proof (group_size_sub group sub Hsub). lia.
Qed.

(** X30. Direct match: for a group none of whose subgroups
    yields a match, the group is the result only when (a) it has an
    include pattern, (b) one of its include patterns matches the
    normalised name of the file and (c) none of its exclude patterns
    does; so a file that an include pattern and an exclude pattern of
    the group both match does not put the group in the result.  What the
    classification of the group raises was raised by one of its
    patterns.  When no pattern of the group raises, the group is the
    result exactly under (a), (b) and (c), and the result is empty
    otherwise. *)
Theorem direct_match_iff (file_path : string) (group : Group) :
  Forall (fun sub => match_file_recursively file_path sub = Ok [])
         (subgroups group) ->
  let text := normalized_stem file_path in
  let included :=
    exists p, In p (include_patterns group) /\ matches p text = Ok true in
  let excluded :=
    exists p, In p (exclude_patterns group) /\ matches p text = Ok true in
  let unexcluded :=
    forall p, In p (exclude_patterns group) -> matches p text = Ok false in
  let patterns_return :=
    forall p, In p (include_patterns group ++ exclude_patterns group)%list ->
              exists hit, matches p text = Ok hit in
  (match_file_recursively file_path group = Ok [group] ->
   file_matches_group_name file_path group = Ok true
   /\ include_patterns group <> [] /\ included /\ unexcluded)
  /\ (included -> excluded ->
      forall ms, match_file_recursively file_path group = Ok ms ->
                 ms = [] /\ ~ In group ms)
  /\ (forall e, match_file_recursively file_path group = Raise e ->
        exists p, In p (include_patterns group ++ exclude_patterns group)%list
                  /\ matches p text = Raise e)
  /\ (patterns_return ->
      (file_matches_group_name file_path group = Ok true <->
       include_patterns group <> [] /\ included /\ unexcluded)
      /\ (match_file_recursively file_path group = Ok [group] <->
          include_patterns group <> [] /\ included /\ unexcluded)
      /\ (match_file_recursively file_path group = Ok [group]
          \/ match_file_recursively file_path group = Ok [])
      /\ (included -> excluded ->
          match_file_recursively file_path group = Ok []
          /\ ~ In group [])).
Proof.
  intros Hsubs text included excluded unexcluded patterns_return.
  assert (Hfound :
            Forall2 (fun sub ms => match_file_recursively file_path sub = Ok ms)
                    (subgroups group) (map (fun _ => []) (subgroups group))).
  { induction Hsubs; simpl; constructor; auto. }
  assert (Hnone : List.concat (map (fun _ : Group => @nil Group)
                                   (subgroups group)) = []).
  { clear. generalize (subgroups group) as subs.
    induction subs as [|sub rest IH]; simpl; auto. }
  pose proof (match_file_recursively_from_subs _ _ _ Hfound) as Heq.
  rewrite Hnone in Heq. simpl in Heq.
  pose proof (file_matches_group_name_true file_path group) as Hdirect.
  fold text in Hdirect. fold included in Hdirect. fold unexcluded in Hdirect.
  assert (Hself : match_file_recursively file_path group = Ok [group] ->
                  file_matches_group_name file_path group = Ok true).
  { rewrite Heq.
    destruct (file_matches_group_name file_path group) as [[|]|e];
      simpl; [reflexivity | discriminate | discriminate]. }
  assert (Hclash : included -> excluded ->
                   file_matches_group_name file_path group <> Ok true).
  { intros _ (p & Hin & Hp) Htrue.
    destruct (Hdirect Htrue) as (_ & _ & Hun).
    specialize (Hun p Hin). congruence. }
  split; [|split; [|split]].
  - intro H. split; [exact (Hself H) | exact (Hdirect (Hself H))].
  - intros Hinc Hexc ms Hms. rewrite Heq in Hms.
    pose proof (Hclash Hinc Hexc) as Hne.
    destruct (file_matches_group_name file_path group) as [[|]|e];
      simpl in Hms; [congruence | | discriminate].
    injection Hms as <-. split; [reflexivity | intros []].
  - intros e He. rewrite Heq in He.
    apply bind_Raise in He as [He | (direct & _ & He)].
    + exact (file_matches_group_name_raise _ _ _ He).
    + destruct direct; discriminate.
  - intro Hret.
    assert (Hiff : file_matches_group_name file_path group = Ok true <->
                   include_patterns group <> [] /\ included /\ unexcluded).
    { split; [exact Hdirect|]. intros (Ha & Hb & Hc).
      apply file_matches_group_name_hit; try assumption.
      intros p Hp. apply Hret, in_or_app. left. exact Hp. }
    destruct (file_matches_group_name_total file_path group Hret)
      as [direct Hd].
    rewrite Hd in Heq. simpl in Heq.
    split; [exact Hiff|].
    destruct direct.
    + split; [|split].
      * rewrite Heq. split; [intros _; apply Hiff, Hd | reflexivity].
      * left. exact Heq.
      * intros Hinc Hexc. exfalso. exact (Hclash Hinc Hexc Hd).
    + split; [|split].
      * rewrite Heq. split; [discriminate|].
        intro H. apply Hiff in H. congruence.
      * right. exact Heq.
      * intros _ _. split; [exact Heq | intros []].
Qed.

(** C5. Empty-include safety: a group whose list of include patterns is
    empty is in no match result, be it the result for one tree or for a
    forest, whatever its name, its exclude patterns and its place in the
    tree. *)
Theorem empty_include_never_matches
    (g : Group) (src_path : string) (top_groups : list Group) (root : Group)
    (ms : list Group) :
  include_patterns g = [] ->
  (match_forest top_groups src_path = Ok ms -> ~ In g ms)
  /\ (match_file_recursively src_path root = Ok ms -> ~ In g ms)
  /\ file_matches_group_name src_path g = Ok false.
Proof.
  intro Hempty.
  assert (Hnot : file_matches_group_name src_path g = Ok false)
    by (rewrite file_matches_group_name_eq, Hempty; reflexivity).
  repeat split; [| | exact Hnot].
  - intros Hms Hin.
    pose proof (match_forest_sound _ _ _ _ Hms Hin). congruence.
  - intros Hms Hin.
    pose proof (proj1 (match_file_recursively_sound _ _ _ _ Hms Hin)).
    congruence.
Qed.

Lemma file_matches_group_name_stem path1 path2 group :
  fst (splitext (basename path1)) = fst (splitext (basename path2)) ->
  file_matches_group_name path1 group = file_matches_group_name path2 group.
Proof.
  intro H. rewrite !file_matches_group_name_eq. unfold normalized_stem.
  rewrite H. reflexivity.
Qed.

(** C9. Classification reads a path only through its base name without
    the extension: two paths with the same base name without extension
    get the same result from every group tree and from every forest;
    neither the directories of the path nor the extension matter. *)
Theorem classification_depends_on_stem_only
    (path1 path2 : string) (group : Group) (top_groups : list Group) :
  fst (splitext (basename path1)) = fst (splitext (basename path2)) ->
  match_file_recursively path1 group = match_file_recursively path2 group
  /\ match_forest top_groups path1 = match_forest top_groups path2.
Proof.
  intro Hstem.
  assert (Htree : forall g,
             match_file_recursively path1 g = match_file_recursively path2 g).
  { induction g as [g IH] using Group_ind_subs.
    rewrite !match_file_recursively_eq.
    rewrite (extend_each_ext _ _ _ _ IH).
    rewrite (file_matches_group_name_stem path1 path2 g Hstem).
    reflexivity. }
  split; [apply Htree|].
  unfold match_forest. apply extend_each_ext, Forall_forall.
  intros g _. apply Htree.
Qed.

End ClassifierProperties.

Lemma descendant_precedence_witness :
  file_matches_group_name "Python_Basics.pdf" Sample.it_books = Ok true
  /\ match_file_recursively "Python_Basics.pdf" Sample.it_books
     = Ok [Sample.python]
  /\ ~ In Sample.it_books [Sample.python].
Proof.
  split; [reflexivity|].
  apply (descendant_precedence "Python_Basics.pdf" Sample.it_books
           [[Sample.python]; []]).
  - repeat constructor.
  - simpl. discriminate.
Defined.

Lemma direct_match_iff_witness :
  match_file_recursively "Office_on_Linux.epub" Sample.office = Ok []
  /\ ~ In Sample.office [].
Proof.
  destruct (direct_match_iff "Office_on_Linux.epub" Sample.office)
    as (_ & _ & _ & Hreturn); [constructor|].
  destruct Hreturn as (_ & _ & _ & Hboth).
  - intros p [<- | [<- | []]]; eexists; reflexivity.
  - apply Hboth.
    + exists (new_Pattern "Office"). split; [left|]; reflexivity.
    + exists (new_Pattern "Linux"). split; [left|]; reflexivity.
Defined.

(** C3. The classification at a group with an include pattern whose
    regular expression makes the engine raise [OverflowError]: the group
    has no subgroup, it has include patterns, its include pattern
    "Python" matches the normalised name of the file and it has no
    exclude pattern; yet it is not the result, because the include
    pattern before "Python" raises, which ends the classification. *)
Theorem raising_include_hides_match :
  subgroups SampleMore.overflowing = []
  /\ include_patterns SampleMore.overflowing <> []
  /\ (exists p, In p (include_patterns SampleMore.overflowing)
                /\ matches p (normalized_stem "Python_Basics.pdf") = Ok true)
  /\ (forall p, In p (exclude_patterns SampleMore.overflowing) ->
                matches p (normalized_stem "Python_Basics.pdf") = Ok false)
  /\ match_file_recursively "Python_Basics.pdf" SampleMore.overflowing
     = Raise OverflowError
  /\ match_file_recursively "Python_Basics.pdf" SampleMore.overflowing
     <> Ok [SampleMore.overflowing].
Proof.
  assert (H : match_file_recursively "Python_Basics.pdf" SampleMore.overflowing
              = Raise OverflowError) by (vm_compute; reflexivity).
  split; [reflexivity|]. split; [discriminate|]. split; [|split; [|split]].
  - exists (new_Pattern "Python"). split; [right; left; reflexivity|].
    vm_compute. reflexivity.
  - intros p [].
  - exact H.
  - rewrite H. discriminate.
Qed.

Lemma empty_include_never_matches_witness :
  match_forest [Sample.it_shelf; Sample.science] "Python_for_kids.pdf"
  = Ok [Sample.python; Sample.biology]
  /\ ~ In Sample.it_shelf [Sample.python; Sample.biology].
Proof.
  split; [reflexivity|].
  refine (proj1 (empty_include_never_matches Sample.it_shelf
                   "Python_for_kids.pdf" [Sample.it_shelf; Sample.science]
                   Sample.it_shelf [Sample.python; Sample.biology] eq_refl) _).
  reflexivity.
Defined.

Lemma classification_depends_on_stem_only_witness :
  match_file_recursively "/books/new/Python_Basics.pdf" Sample.it_books
  = match_file_recursively "archive/Python_Basics.epub" Sample.it_books.
Proof.
  apply (classification_depends_on_stem_only
           "/books/new/Python_Basics.pdf" "archive/Python_Basics.epub"
           Sample.it_books []).
  reflexivity.
Defined.

(* ------------------------------------------------------------------ *)
(** ** The planner *)

Section SortFacts.

Context {A : Type} (key : A -> Z).

Lemma insert_by_perm x l : Permutation (x :: l) (insert_by key x l).
Proof.
  induction l as [|y rest IH]; simpl; [reflexivity|].
  destruct (key x <=? key y)%Z; [reflexivity|].
  rewrite perm_swap. constructor. exact IH.
Qed.

Lemma sorted_perm l : Permutation l (sorted key l).
Proof.
  induction l as [|x rest IH]; simpl; [constructor|].
  rewrite <- insert_by_perm. constructor. exact IH.
Qed.

Lemma insert_by_sorted x l :
  StronglySorted (key_le key) l -> StronglySorted (key_le key) (insert_by key x l).
Proof.
  induction 1 as [|y rest Hrest IH Hy]; simpl.
  - repeat constructor.
  - destruct (key x <=? key y)%Z eqn:E.
    + apply Z.leb_le in E. constructor.
      * constructor; assumption.
      * constructor; [exact E|].
        eapply Forall_impl; [|exact Hy]. unfold key_le. intros; lia.
    + apply Z.leb_gt in E. constructor; [exact IH|].
      apply Forall_forall. intros z Hz.
      apply (Permutation_in _ (Permutation_sym (insert_by_perm x rest))) in Hz.
      destruct Hz as [<- | Hz]; [unfold key_le; lia|].
      rewrite Forall_forall in Hy. auto.
Qed.

Lemma sorted_sorted l : StronglySorted (key_le key) (sorted key l).
Proof.
  induction l as [|x rest IH]; simpl; [constructor|].
  apply insert_by_sorted, IH.
Qed.

Lemma insert_by_filter k x l :
  filter (fun y => (key y =? k)%Z) (insert_by key x l) =
  filter (fun y => (key y =? k)%Z) (x :: l).
Proof.
  induction l as [|y rest IH]; [reflexivity|].
  simpl insert_by. destruct (key x <=? key y)%Z eqn:E; [reflexivity|].
  apply Z.leb_gt in E. simpl filter in *. rewrite IH.
  destruct (key x =? k)%Z eqn:Ex, (key y =? k)%Z eqn:Ey; try reflexivity.
  apply Z.eqb_eq in Ex, Ey. lia.
Qed.

(** Stability: the elements of one key keep their order. *)
Lemma sorted_stable k l :
  filter (fun y => (key y =? k)%Z) (sorted key l) =
  filter (fun y => (key y =? k)%Z) l.
Proof.
  induction l as [|x rest IH]; [reflexivity|].
  simpl sorted. rewrite insert_by_filter. simpl. rewrite IH. reflexivity.
Qed.

(** Two lists in key order that agree on the elements of every key, in
    their order, are equal. *)
Lemma stable_order_unique l1 :
  forall l2,
    StronglySorted (key_le key) l1 -> StronglySorted (key_le key) l2 ->
    (forall k, filter (fun y => (key y =? k)%Z) l1 =
               filter (fun y => (key y =? k)%Z) l2) ->
    l1 = l2.
Proof.
  induction l1 as [|x r1 IH]; intros l2 H1 H2 Hsame.
  - destruct l2 as [|y r2]; [reflexivity|].
    specialize (Hsame (key y)). simpl in Hsame.
    rewrite Z.eqb_refl in Hsame. discriminate.
  - destruct l2 as [|y r2].
    + specialize (Hsame (key x)). simpl in Hsame.
      rewrite Z.eqb_refl in Hsame. discriminate.
    + inversion H1 as [|? ? Hr1 Hx]; inversion H2 as [|? ? Hr2 Hy]; subst.
      assert (Hnone : forall z r, Forall (key_le key z) r ->
                 forall k, (k < key z)%Z ->
                           filter (fun y => (key y =? k)%Z) r = []).
      { intros z r Hz k Hk. induction Hz as [|w r Hw _ IHr]; simpl; auto.
        unfold key_le in Hw.
        destruct (Z.eqb_spec (key w) k); [lia | exact IHr]. }
      assert (Hkey : key x = key y).
      { destruct (Z.lt_trichotomy (key x) (key y)) as [Hlt | [Heq | Hgt]];
          [|exact Heq|].
        - specialize (Hsame (key x)). simpl in Hsame.
          rewrite Z.eqb_refl in Hsame.
          destruct (Z.eqb_spec (key y) (key x)); [lia|].
          rewrite (Hnone y r2 Hy (key x) Hlt) in Hsame. discriminate.
        - specialize (Hsame (key y)). simpl in Hsame.
          rewrite Z.eqb_refl in Hsame.
          destruct (Z.eqb_spec (key x) (key y)); [lia|].
          rewrite (Hnone x r1 Hx (key y) Hgt) in Hsame. discriminate. }
      assert (Hhead : x = y).
      { specialize (Hsame (key x)). simpl in Hsame.
        rewrite Z.eqb_refl, <- Hkey, Z.eqb_refl in Hsame. congruence. }
      subst y. f_equal. apply IH; [assumption | assumption |].
      intro k. specialize (Hsame k). simpl in Hsame.
      destruct (key x =? k)%Z; congruence.
Qed.

(** So [sorted] is the stable sort: whatever list is in key order and
    keeps the elements of every key in the order they have in [l] is
    [sorted key l]. *)
Lemma sorted_is_the_stable_sort l l' :
  StronglySorted (key_le key) l' ->
  (forall k, filter (fun y => (key y =? k)%Z) l' =
             filter (fun y => (key y =? k)%Z) l) ->
  l' = sorted key l.
Proof.
  intros Hsorted Hstable. apply stable_order_unique.
  - exact Hsorted.
  - apply sorted_sorted.
  - intro k. rewrite Hstable, sorted_stable. reflexivity.
Qed.

End SortFacts.

Lemma filter_head_first {A : Type} (P : A -> bool) l x t :
  filter P l = x :: t ->
  exists before after,
    l = (before ++ x :: after)%list /\ Forall (fun y => P y = false) before.
Proof.
  induction l as [|y rest IH]; simpl; [discriminate|].
  destruct (P y) eqn:E.
  - intro H. injection H as -> _. exists [], rest. split; [reflexivity|constructor].
  - intro H. destruct (IH H) as (before & after & -> & Hb).
    exists (y :: before), after. split; [reflexivity|]. constructor; assumption.
Qed.

Lemma first_unique {A : Type} (P : A -> bool) b1 x1 a1 b2 x2 a2 :
  (b1 ++ x1 :: a1 = b2 ++ x2 :: a2)%list ->
  Forall (fun y => P y = false) b1 -> P x1 = true ->
  Forall (fun y => P y = false) b2 -> P x2 = true ->
  b1 = b2 /\ x1 = x2 /\ a1 = a2.
Proof.
  revert b2. induction b1 as [|y b1 IH]; intros [|z b2] Heq Hb1 Hx1 Hb2 Hx2;
    simpl in Heq; injection Heq as Hhd Htl.
  - auto.
  - subst z. inversion Hb2; congruence.
  - subst y. inversion Hb1; congruence.
  - subst z. inversion Hb1; inversion Hb2; subst.
    destruct (IH b2 Htl) as (-> & -> & ->); auto.
Qed.

Lemma sort_key_le a b :
  (sort_key a <= sort_key b)%Z <-> max_priority b <= max_priority a.
Proof. unfold sort_key. lia. Qed.

Lemma sort_key_eqb g n :
  (sort_key g =? - Z.of_nat n)%Z = (max_priority g =? n)%nat.
Proof.
  unfold sort_key.
  destruct (Nat.eqb_spec (max_priority g) n) as [-> | Hne].
  - apply Z.eqb_refl.
  - apply Z.eqb_neq. lia.
Qed.

Lemma sorted_groups_stable n matches :
  filter (fun g => (max_priority g =? n)%nat) (sorted sort_key matches) =
  filter (fun g => (max_priority g =? n)%nat) matches.
Proof.
  rewrite !(filter_ext (fun g => (max_priority g =? n)%nat)
              (fun g => (sort_key g =? - Z.of_nat n)%Z))
    by (intro g; symmetry; apply sort_key_eqb).
  apply sorted_stable.
Qed.

Lemma sorted_groups_descending matches :
  StronglySorted (fun a b => max_priority b <= max_priority a)
                 (sorted sort_key matches).
Proof.
  pose proof (sorted_sorted sort_key matches) as H.
  induction H as [|g rest _ IH Hg]; constructor; [exact IH|].
  eapply Forall_impl; [|exact Hg]. intros b Hb. apply sort_key_le, Hb.
Qed.

Lemma plan_eq matches :
  plan matches =
  Ok match sorted sort_key matches with
     | [] => None
     | primary :: secondaries => Some (primary, secondaries)
     end.
Proof.
  unfold plan. destruct matches as [|g rest]; [reflexivity|].
  simpl is_nil. cbv iota.
  destruct (sorted sort_key (g :: rest)) as [|p s] eqn:E; [|reflexivity].
  pose proof (sorted_perm sort_key (g :: rest)) as Hperm. rewrite E in Hperm.
  apply Permutation_sym, Permutation_nil in Hperm. discriminate.
Qed.

(** The primary group is the first of the matches, in their original
    order, whose priority is the highest. *)
Lemma primary_is_first_highest matches primary secondaries :
  plan matches = Ok (Some (primary, secondaries)) ->
  exists before after,
    matches = (before ++ primary :: after)%list
    /\ Forall (fun g => max_priority g < max_priority primary) before
    /\ Forall (fun g => max_priority g <= max_priority primary) after.
Proof.
  rewrite plan_eq. intro H.
  destruct (sorted sort_key matches) as [|p s] eqn:E; inversion H; subst p s.
  pose proof (sorted_groups_descending matches) as Hdesc.
  rewrite E in Hdesc. inversion Hdesc as [|? ? _ Hrest]; subst.
  assert (Hall : forall g, In g matches ->
                           max_priority g <= max_priority primary).
  { intros g Hg.
    apply (Permutation_in _ (sorted_perm sort_key matches)) in Hg.
    rewrite E in Hg. destruct Hg as [<- | Hg]; [lia|].
    rewrite Forall_forall in Hrest. auto. }
  pose proof (sorted_groups_stable (max_priority primary) matches) as Hst.
  rewrite E in Hst. simpl in Hst. rewrite Nat.eqb_refl in Hst.
  symmetry in Hst.
  destruct (filter_head_first _ _ _ _ Hst) as (before & after & Hm & Hb).
  exists before, after. split; [exact Hm|]. split.
  - apply Forall_forall. intros g Hg.
    rewrite Forall_forall in Hb. specialize (Hb g Hg).
    apply Nat.eqb_neq in Hb.
    assert (max_priority g <= max_priority primary)
      by (apply Hall; rewrite Hm; apply in_or_app; auto).
    lia.
  - apply Forall_forall. intros g Hg. apply Hall. rewrite Hm.
    apply in_or_app. right. right. exact Hg.
Qed.

(** The priority of a group is the highest priority of its include
    patterns. *)
Lemma max_priority_bound g p :
  In p (include_patterns g) -> priority p <= max_priority g.
Proof.
  unfold max_priority. induction (include_patterns g) as [|q rest IH]; simpl;
    [tauto|].
  intros [-> | Hin]; [lia|]. specialize (IH Hin). lia.
Qed.

Lemma max_priority_attained g :
  include_patterns g <> [] ->
  exists p, In p (include_patterns g) /\ priority p = max_priority g.
Proof.
  unfold max_priority. induction (include_patterns g) as [|q rest IH]; simpl;
    [congruence|].
  intros _. destruct rest as [|r rest'].
  - exists q. split; [left; reflexivity | simpl; lia].
  - destruct IH as (p & Hp & Hmax); [discriminate|].
    destruct (Nat.max_spec (priority q)
                (fold_right Nat.max 0 (map priority (r :: rest'))))
      as [[_ ->] | [_ ->]].
    + exists p. split; [right; exact Hp | exact Hmax].
    + exists q. split; [left|]; reflexivity.
Qed.

Section PlannerProperties.

Context {engine : Regex} {os_path : OsPath}.

(** C2. The planner orders the matches by a stable sort, descending by
    the highest priority among each group's include patterns: the
    priority of a group is at least that of each of its include
    patterns, is that of one of them, and is 0 for a group without
    include patterns; the order is a permutation of the matches,
    priorities never increase along it, and the groups of one priority
    keep their original order.  The head of that order is the primary
    group and the rest, in that order, are the secondaries; so the
    primary is the first of the matches whose priority is the highest,
    no include pattern of any match has a higher priority than the
    primary, and of two groups that tie for it the earlier one is the
    primary.  With no match the file is skipped: no placement, no
    error. *)
Theorem plan_stable_priority_order (matches : list Group) :
  let ordered := sorted sort_key matches in
  (forall g p, In p (include_patterns g) -> priority p <= max_priority g)
  /\ (forall g, include_patterns g <> [] ->
                exists p, In p (include_patterns g)
                          /\ priority p = max_priority g)
  /\ (forall g, include_patterns g = [] -> max_priority g = 0)
  /\ (forall primary secondaries,
        plan matches = Ok (Some (primary, secondaries)) ->
        forall g p, In g matches -> In p (include_patterns g) ->
                    priority p <= max_priority primary)
  /\ Permutation matches ordered
  /\ StronglySorted (fun a b => max_priority b <= max_priority a) ordered
  /\ (forall n,
        filter (fun g => (max_priority g =? n)%nat) ordered =
        filter (fun g => (max_priority g =? n)%nat) matches)
  /\ plan matches =
     Ok match ordered with
        | [] => None
        | primary :: secondaries => Some (primary, secondaries)
        end
  /\ (forall primary secondaries,
        plan matches = Ok (Some (primary, secondaries)) ->
        exists before after,
          matches = (before ++ primary :: after)%list
          /\ Forall (fun g => max_priority g < max_priority primary) before
          /\ Forall (fun g => max_priority g <= max_priority primary) after)
  /\ (forall before a middle b after,
        matches = (before ++ a :: middle ++ b :: after)%list ->
        max_priority a = max_priority b ->
        Forall (fun g => max_priority g < max_priority a)
               (before ++ middle ++ after)%list ->
        exists secondaries, plan matches = Ok (Some (a, secondaries)))
  /\ (forall a b,
        max_priority a = max_priority b ->
        plan [a; b] = Ok (Some (a, [b])))
  /\ plan [] = Ok None
  /\ (forall top_groups src_path,
        match_forest top_groups src_path = Ok [] ->
        process_file top_groups src_path = Ok None).
Proof.
  cbv zeta. split; [apply max_priority_bound|].
  split; [apply max_priority_attained|].
  split; [intros g Hg; unfold max_priority; rewrite Hg; reflexivity|].
  split.
  { intros primary secondaries Hplan g p Hg Hp.
    pose proof (max_priority_bound g p Hp) as Hbound.
    destruct (primary_is_first_highest _ _ _ Hplan)
      as (bf & af & Hm & Hbf & Haf).
    rewrite Hm in Hg. rewrite Forall_forall in Hbf, Haf.
    apply in_app_or in Hg as [Hg | [<- | Hg]].
    - specialize (Hbf g Hg). simpl in Hbf. lia.
    - exact Hbound.
    - specialize (Haf g Hg). simpl in Haf. lia. }
  split; [apply sorted_perm|].
  split; [apply sorted_groups_descending|].
  split; [intro n; apply sorted_groups_stable|].
  split; [apply plan_eq|].
  split; [apply primary_is_first_highest|].
  split; [|split; [|split]].
  - intros before a middle b after Hm Hab Hlow.
    destruct (plan matches) as [[[p s]|]|e] eqn:Hplan.
    + destruct (primary_is_first_highest _ _ _ Hplan)
        as (bf & af & Hm' & Hbf & Haf).
      assert (Hin : forall g, In g matches ->
                              max_priority g <= max_priority p).
      { intros g Hg. rewrite Hm' in Hg.
        apply in_app_or in Hg as [Hg | [<- | Hg]].
        - rewrite Forall_forall in Hbf. specialize (Hbf g Hg). lia.
        - lia.
        - rewrite Forall_forall in Haf. auto. }
      assert (Ha : max_priority a <= max_priority p).
      { apply Hin. rewrite Hm. apply in_or_app. right. left. reflexivity. }
      assert (Hp : max_priority p <= max_priority a).
      { assert (Hpin : In p matches)
          by (rewrite Hm'; apply in_or_app; right; left; reflexivity).
        rewrite Hm in Hpin. rewrite Forall_forall in Hlow.
        apply in_app_or in Hpin as [Hpin | [<- | Hpin]]; [| lia |].
        - assert (max_priority p < max_priority a)
            by (apply Hlow, in_or_app; auto).
          lia.
        - apply in_app_or in Hpin as [Hpin | [<- | Hpin]]; [| lia |].
          + assert (max_priority p < max_priority a)
              by (apply Hlow, in_or_app; right; apply in_or_app; auto).
            lia.
          + assert (max_priority p < max_priority a)
              by (apply Hlow, in_or_app; right; apply in_or_app; auto).
            lia. }
      assert (Heq : (bf ++ p :: af = before ++ a :: middle ++ b :: after)%list)
        by congruence.
      destruct (first_unique
                  (fun g => (max_priority g =? max_priority a)%nat)
                  _ _ _ _ _ _ Heq) as (_ & -> & _).
      * eapply Forall_impl; [|exact Hbf]. intros g Hg. simpl in Hg.
        apply Nat.eqb_neq. lia.
      * apply Nat.eqb_eq. lia.
      * apply Forall_forall. intros g Hg. apply Nat.eqb_neq.
        rewrite Forall_forall in Hlow.
        assert (max_priority g < max_priority a)
          by (apply Hlow, in_or_app; auto).
        lia.
      * apply Nat.eqb_refl.
      * eauto.
    + rewrite plan_eq in Hplan.
      destruct (sorted sort_key matches) eqn:E; [|discriminate].
      pose proof (sorted_perm sort_key matches) as Hperm. rewrite E in Hperm.
      apply Permutation_sym, Permutation_nil in Hperm. subst matches.
      destruct before; discriminate.
    + rewrite plan_eq in Hplan. discriminate.
  - intros a b Hab. rewrite plan_eq. simpl.
    unfold sort_key. rewrite Hab.
    rewrite (proj2 (Z.leb_le _ _) (Z.le_refl _)). reflexivity.
  - reflexivity.
  - intros top_groups src_path Hnone. unfold process_file.
    rewrite Hnone. reflexivity.
Qed.

End PlannerProperties.

Lemma plan_stable_priority_order_witness :
  (max_priority Sample.kids = 4
   /\ max_priority SampleMore.encyclopedias = 17
   /\ match_forest [Sample.kids; SampleMore.encyclopedias]
                   "kids_encyclopedia.pdf"
      = Ok [Sample.kids; SampleMore.encyclopedias]
   /\ plan [Sample.kids; SampleMore.encyclopedias]
      = Ok (Some (SampleMore.encyclopedias, [Sample.kids])))
  /\ (max_priority Sample.kids = max_priority Sample.biology
      /\ match_forest [Sample.kids; Sample.science] "kids_encyclopedia.pdf"
         = Ok [Sample.kids; Sample.biology]
      /\ plan [Sample.kids; Sample.biology]
         = Ok (Some (Sample.kids, [Sample.biology]))).
Proof.
  split.
  - split; [reflexivity|]. split; [reflexivity|]. split; [reflexivity|].
    destruct (plan_stable_priority_order
                [Sample.kids; SampleMore.encyclopedias])
      as (_ & _ & _ & _ & _ & _ & _ & Hplan & _).
    rewrite Hplan. reflexivity.
  - split; [reflexivity|]. split; [reflexivity|].
    destruct (plan_stable_priority_order [Sample.kids; Sample.biology])
      as (_ & _ & _ & _ & _ & _ & _ & _ & _ & _ & Htie & _).
    apply Htie. reflexivity.
Defined.

(* ------------------------------------------------------------------ *)
(** ** The group tree builder *)


Lemma dicts_of_chars s : dicts_of (chars s) = [].
Proof. induction s as [|c r IH]; [reflexivity | exact IH]. Qed.

Lemma dicts_of_keys (entries : dict) :
  dicts_of (map (fun kv => VStr (fst kv)) entries) = [].
Proof. induction entries as [|kv rest IH]; [reflexivity | exact IH]. Qed.

(** What [a.get(key1) or a.get(key2)] is, in the words of
    [first_true]. *)
Lemma first_true_or d key1 key2 default :
  truthy default = false ->
  match first_true d key1 key2 with
  | Some v =>
      or_else (get_or d key1 default) (get_or d key2 default) = v
      /\ truthy v = true
  | None =>
      truthy (or_else (get_or d key1 default) (get_or d key2 default)) = false
  end.
Proof.
  intro Hdefault. unfold first_true, or_else, get_or.
  destruct (lookup key1 d) as [v1|]; [destruct (truthy v1) eqn:E1; [auto|]|];
    rewrite ?Hdefault;
    (destruct (lookup key2 d) as [v2|]; [destruct (truthy v2) eqn:E2|]; auto).
Qed.

Lemma has_name_named node : has_name node = named node.
Proof.
  unfold has_name, named, node_name, get.
  pose proof (first_true_or node "name" "Group" VNone eq_refl) as H.
  destruct (first_true node "name" "Group") as [v|].
  - destruct H as [-> ->]. reflexivity.
  - exact H.
Qed.

Lemma node_name_first_true node v :
  first_true node "name" "Group" = Some v -> node_name node = v.
Proof.
  intro Hv. unfold node_name, get.
  pose proof (first_true_or node "name" "Group" VNone eq_refl) as H.
  rewrite Hv in H. exact (proj1 H).
Qed.

Lemma falsy_has_no_dicts v items :
  truthy v = false -> iterate v = Ok items -> dicts_of items = [].
Proof.
  destruct v as [| | |s|l|entries]; simpl; try discriminate.
  - destruct s; [|discriminate]. intros _ H. injection H as <-. reflexivity.
  - destruct l; [|discriminate]. intros _ H. injection H as <-. reflexivity.
  - destruct entries; [|discriminate]. intros _ H. injection H as <-.
    reflexivity.
Qed.

(** The children that line 114 builds are the child nodes. *)
Lemma children_of node items :
  iterate (node_groups node) = Ok items -> children node = dicts_of items.
Proof.
  unfold children, node_groups.
  pose proof (first_true_or node "groups" "Groups" (VList []) eq_refl) as H.
  destruct (first_true node "groups" "Groups") as [v|].
  - destruct H as [-> _]. destruct v as [| | |s|l|entries]; simpl;
      try discriminate; intro Hi; injection Hi as <-.
    + symmetry. apply dicts_of_chars.
    + reflexivity.
    + symmetry. apply dicts_of_keys.
  - intro Hi. symmetry. exact (falsy_has_no_dicts _ _ H Hi).
Qed.

(** The nodes that line 122 builds are the root nodes. *)
Lemma roots_of entries tns :
  iterate (top_nodes entries) = Ok tns -> roots (VDict entries) = dicts_of tns.
Proof.
  unfold roots, top_nodes, get.
  pose proof (first_true_or entries "groups" "Groups" VNone eq_refl) as H.
  destruct (first_true entries "groups" "Groups") as [v|].
  - destruct H as [-> Hv].
    replace (or_else v (VList [])) with v by (unfold or_else; rewrite Hv; reflexivity).
    destruct v as [| | |s|l|root]; simpl; try discriminate;
      intro Hi; injection Hi as <-.
    + symmetry. apply dicts_of_chars.
    + reflexivity.
    + reflexivity.
  - set (top := or_else (get_or entries "groups" VNone)
                        (get_or entries "Groups" VNone)) in *.
    replace (or_else top (VList [])) with (VList [])
      by (unfold or_else; rewrite H; reflexivity).
    simpl. intro Hi. injection Hi as <-. reflexivity.
Qed.

Section BuilderFacts.

Context {builtins : Repr} {interpreter : Interpreter}.





(** The patterns that a field contributes are those of its texts. *)
Lemma patterns_of_texts node key ps :
  patterns_of node key = Ok ps -> ps = map new_Pattern (field_texts node key).
Proof.
  unfold patterns_of, field_texts.
  destruct (lookup key node) as [[| | |s|items|entries]|]; simpl;
    try discriminate; intro H; injection H as <-; try reflexivity.
  - rewrite map_map. reflexivity.
  - rewrite !map_map. reflexivity.
Qed.

Lemma patterns_of_keys_texts node key1 key2 ps :
  patterns_of_keys node key1 key2 = Ok ps ->
  ps = map new_Pattern (field_texts node key1 ++ field_texts node key2)%list.
Proof.
  unfold patterns_of_keys. intro H.
  apply bind_Ok in H as (ps1 & H1 & H).
  apply bind_Ok in H as (ps2 & H2 & H). injection H as <-.
  rewrite (patterns_of_texts _ _ _ H1), (patterns_of_texts _ _ _ H2), map_app.
  reflexivity.
Qed.






Lemma build_node_eq depth node parent :
  build_node (S depth) node parent =
  if negb (has_name node) then Raise (ValueError "Group without a name")
  else
    includes <- patterns_of_keys node "include" "Include" ;;
    excludes <- patterns_of_keys node "exclude" "Exclude" ;;
    children <- iterate (node_groups node) ;;
    subs <- append_built
              (fun child =>
                 build_node depth child (str (node_name node) :: parent))
              [] children ;;
    Ok (mkGroup (str (node_name node)) parent subs includes excludes).
Proof. reflexivity. Qed.











End BuilderFacts.

Section BuilderProperties.

Context {builtins : Repr} {interpreter : Interpreter}.



End BuilderProperties.







(* ------------------------------------------------------------------ *)
(** ** The scenarios, from configuration to decision *)

Lemma scenario_A :
  (groups <- build_groups_from_config SampleConfig.named ;;
   found <- match_forest groups "Python_Basics.pdf" ;;
   Ok (map full_name found))
  = Ok ["IT/Python"].
Proof. reflexivity. Qed.

Lemma scenario_B :
  (groups <- build_groups_from_config SampleConfig.office ;;
   match_forest groups "Office_on_Linux.epub")
  = Ok [].
Proof. reflexivity. Qed.

Lemma scenario_C :
  (groups <- build_groups_from_config SampleConfig.kids ;;
   found <- match_forest groups "kids_encyclopedia.pdf" ;;
   decision <- plan found ;;
   Ok (map full_name found,
       option_map (destinations "sorted" "kids_encyclopedia.pdf") decision))
  = Ok (["Kids"; "Science/Biology"],
        Some ("sorted/Kids/kids_encyclopedia.pdf",
              ["sorted/Science/Biology/kids_encyclopedia.pdf"])).
Proof. reflexivity. Qed.

(* ------------------------------------------------------------------ *)
(** * Further properties *)

(** ** Strings *)


Lemma append_assoc (a b c : string) : (a ++ b) ++ c = a ++ (b ++ c).
Proof. induction a as [|x r IH]; simpl; [reflexivity | rewrite IH; reflexivity]. Qed.

Lemma append_length (a b : string) :
  String.length (a ++ b) = String.length a + String.length b.
Proof. induction a as [|x r IH]; simpl; [reflexivity | rewrite IH; reflexivity]. Qed.

Lemma prefix_nil_l s : prefix EmptyString s = true.
Proof. destruct s; reflexivity. Qed.

Lemma prefix_nil_r a s : prefix (String a s) EmptyString = false.
Proof. reflexivity. Qed.

Lemma prefix_cons a s1 c s2 :
  prefix (String a s1) (String c s2) = (a =? c)%char && prefix s1 s2.
Proof.
  simpl. destruct (ascii_dec a c) as [-> | Hne].
  - rewrite Ascii.eqb_refl. reflexivity.
  - apply Ascii.eqb_neq in Hne. rewrite Hne. reflexivity.
Qed.

Lemma all_chars_app P a b :
  all_chars P (a ++ b) = all_chars P a && all_chars P b.
Proof.
  induction a as [|x r IH]; simpl; [reflexivity|].
  rewrite IH, andb_assoc. reflexivity.
Qed.

Lemma all_chars_lstrip P s :
  all_chars P s = true -> all_chars P (Str.lstrip s) = true.
Proof.
  induction s as [|c r IH]; simpl; [reflexivity|].
  intro H. destruct (Char.isspace c); [|exact H].
  apply andb_true_iff in H as [_ Hr]. auto.
Qed.

Lemma all_chars_rstrip P s :
  all_chars P s = true -> all_chars P (Str.rstrip s) = true.
Proof.
  induction s as [|c r IH]; simpl; [reflexivity|].
  intro H. apply andb_true_iff in H as [Hc Hr].
  destruct (Char.isspace c && Str.is_empty (Str.rstrip r)); simpl; [reflexivity|].
  rewrite Hc. simpl. auto.
Qed.

Lemma all_chars_strip P s :
  all_chars P s = true -> all_chars P (Str.strip s) = true.
Proof. intro H. apply all_chars_lstrip, all_chars_rstrip, H. Qed.

Lemma lstrip_length s : String.length (Str.lstrip s) <= String.length s.
Proof.
  induction s as [|c r IH]; simpl; [lia|].
  destruct (Char.isspace c); simpl; lia.
Qed.

Lemma rstrip_length s : String.length (Str.rstrip s) <= String.length s.
Proof.
  induction s as [|c r IH]; simpl; [lia|].
  destruct (Char.isspace c && Str.is_empty (Str.rstrip r)); simpl; lia.
Qed.

Lemma strip_length s : String.length (Str.strip s) <= String.length s.
Proof.
  unfold Str.strip. pose proof (lstrip_length (Str.rstrip s)).
  pose proof (rstrip_length s). lia.
Qed.

Lemma rstrip_all_space s :
  all_chars Char.isspace (Str.rstrip s) = true -> Str.rstrip s = EmptyString.
Proof.
  induction s as [|c r IH]; simpl; [reflexivity|].
  destruct (Char.isspace c) eqn:Ec; simpl.
  - destruct (Str.is_empty (Str.rstrip r)) eqn:Er; [reflexivity|].
    simpl. rewrite Ec. simpl. intro H. rewrite (IH H) in Er. discriminate.
  - rewrite Ec. discriminate.
Qed.

Lemma rstrip_empty_iff s :
  Str.rstrip s = EmptyString <-> all_chars Char.isspace s = true.
Proof.
  induction s as [|c r IH]; simpl; [tauto|].
  destruct (Char.isspace c) eqn:Ec; simpl.
  - destruct (Str.rstrip r) eqn:Er; simpl.
    + split; [intros _; apply IH; reflexivity | reflexivity].
    + split; [discriminate|]. intro H. apply IH in H. discriminate.
  - split; discriminate.
Qed.

Lemma lstrip_empty_iff s :
  Str.lstrip s = EmptyString <-> all_chars Char.isspace s = true.
Proof.
  induction s as [|c r IH]; simpl; [tauto|].
  destruct (Char.isspace c) eqn:Ec; simpl; [exact IH|].
  split; discriminate.
Qed.

Lemma strip_empty_iff s :
  Str.strip s = EmptyString <-> all_chars Char.isspace s = true.
Proof.
  unfold Str.strip. rewrite lstrip_empty_iff. split.
  - intro H. apply rstrip_empty_iff, rstrip_all_space, H.
  - intro H. apply rstrip_empty_iff in H. rewrite H. reflexivity.
Qed.

Lemma lower_empty_iff s : Str.lower s = EmptyString <-> s = EmptyString.
Proof. destruct s; simpl; split; congruence. Qed.

(* ------------------------------------------------------------------ *)
(** ** Substrings *)

Lemma prefix_iff n h : prefix n h = true <-> exists s, h = n ++ s.
Proof.
  revert h. induction n as [|a n IH]; intro h.
  - rewrite prefix_nil_l. split; [exists h; reflexivity | reflexivity].
  - destruct h as [|c h].
    + rewrite prefix_nil_r. split; [discriminate | intros [s Hs]; discriminate].
    + rewrite prefix_cons, andb_true_iff, IH, Ascii.eqb_eq. split.
      * intros [-> [s ->]]. exists s. reflexivity.
      * intros [s Hs]. injection Hs as -> ->. eauto.
Qed.

Lemma contains_iff n h :
  Str.contains n h = true <-> exists p s, h = p ++ n ++ s.
Proof.
  induction h as [|c h IH]; cbn [Str.contains].
  - rewrite orb_false_r, prefix_iff. split.
    + intros [s Hs]. exists EmptyString, s. exact Hs.
    + intros (p & s & Hps). destruct p; [eauto | discriminate].
  - rewrite orb_true_iff, prefix_iff, IH. split.
    + intros [[s Hs] | (p & s & ->)].
      * exists EmptyString, s. exact Hs.
      * exists (String c p), s. reflexivity.
    + intros (p & s & Hps). destruct p as [|d p].
      * left. eauto.
      * right. injection Hps as -> ->. eauto.
Qed.

Lemma contains_empty h : Str.contains EmptyString h = true.
Proof. destruct h; cbn [Str.contains]; rewrite prefix_nil_l; reflexivity. Qed.

Lemma contains_trans a b c :
  Str.contains a b = true -> Str.contains b c = true ->
  Str.contains a c = true.
Proof.
  rewrite !contains_iff. intros (p & s & ->) (p' & s' & ->).
  exists (p' ++ p), (s ++ s'). rewrite !append_assoc. reflexivity.
Qed.

Lemma contains_char ch s :
  Str.contains (String ch EmptyString) s
  = negb (all_chars (fun c => negb (ch =? c)%char) s).
Proof.
  induction s as [|c r IH]; [reflexivity|].
  cbn [Str.contains all_chars]. rewrite prefix_cons, prefix_nil_l, andb_true_r, IH.
  destruct (ch =? c)%char; reflexivity.
Qed.

Lemma contains_char_app ch a b :
  Str.contains (String ch EmptyString) (a ++ String ch b) = true.
Proof.
  apply contains_iff. exists a, b. reflexivity.
Qed.

Lemma split_without ch s :
  Str.contains (String ch EmptyString) s = false -> Str.split ch s = [s].
Proof.
  rewrite contains_char. intro H. apply negb_false_iff in H.
  induction s as [|c r IH]; [reflexivity|].
  cbn [all_chars] in H. apply andb_true_iff in H as [Hc Hr].
  cbn [Str.split]. rewrite (IH Hr).
  apply negb_true_iff in Hc. rewrite Ascii.eqb_sym in Hc. rewrite Hc.
  reflexivity.
Qed.

Lemma split_not_nil ch s : Str.split ch s <> [].
Proof.
  destruct s as [|c r]; cbn [Str.split]; [discriminate|].
  destruct (c =? ch)%char; [discriminate|].
  destruct (Str.split ch r); discriminate.
Qed.

Lemma split_app ch a b :
  Str.split ch (a ++ String ch b) = (Str.split ch a ++ Str.split ch b)%list.
Proof.
  induction a as [|c r IH].
  - cbn. rewrite Ascii.eqb_refl. reflexivity.
  - cbn [append Str.split]. rewrite IH.
    destruct (c =? ch)%char; [reflexivity|].
    pose proof (split_not_nil ch r). destruct (Str.split ch r);
      [congruence | reflexivity].
Qed.

(* ------------------------------------------------------------------ *)
(** ** Patterns, continued *)

Lemma split_bar_pieces_no_bar s :
  forall skip cur ws,
    all_chars (fun c => negb (is_bar c)) cur = true ->
    all_chars (fun c => negb (is_bar c)) ws = true ->
    Forall (fun piece => all_chars (fun c => negb (is_bar c)) piece = true)
           (Str.re_split_bar_from skip cur ws s).
Proof.
  induction s as [|c r IH]; intros skip cur ws Hcur Hws; cbn [Str.re_split_bar_from].
  - constructor; [|constructor]. rewrite all_chars_app, Hcur, Hws. reflexivity.
  - destruct (c =? "|")%char eqn:Ebar.
    + constructor; [exact Hcur | apply IH; reflexivity].
    + assert (Hc : negb (is_bar c) = true)
        by (unfold is_bar; rewrite Ascii.eqb_sym, Ebar; reflexivity).
      destruct (Char.isspace c); [destruct skip|]; apply IH; auto;
        rewrite ?all_chars_app; cbn [all_chars];
        rewrite ?Hcur, ?Hws, ?Hc; reflexivity.
Qed.

Lemma split_bar_pieces_length s :
  forall skip cur ws,
    Forall (fun piece =>
              String.length piece
              <= String.length cur + String.length ws + String.length s)
           (Str.re_split_bar_from skip cur ws s).
Proof.
  induction s as [|c r IH]; intros skip cur ws; cbn [Str.re_split_bar_from].
  - constructor; [|constructor]. rewrite append_length. simpl. lia.
  - destruct (c =? "|")%char.
    + constructor; [simpl; lia|].
      eapply Forall_impl; [|apply IH]. simpl. intros; lia.
    + destruct (Char.isspace c); [destruct skip|];
        (eapply Forall_impl; [|apply IH]); intros piece;
        rewrite ?append_length; simpl; lia.
Qed.

Lemma split_bar_pieces_blank s :
  forall skip cur ws,
    all_chars Char.isspace ws = true ->
    Forall (fun piece => all_chars Char.isspace piece = true)
           (Str.re_split_bar_from skip cur ws s)
    <-> all_chars Char.isspace cur = true
        /\ all_chars (fun c => is_bar c || Char.isspace c) s = true.
Proof.
  induction s as [|c r IH]; intros skip cur ws Hws; cbn [Str.re_split_bar_from].
  - cbn [all_chars]. split.
    + intro H. inversion H as [|? ? Hp _]; subst.
      rewrite all_chars_app in Hp. apply andb_true_iff in Hp as [Hp _]. auto.
    + intros [Hcur _]. constructor; [|constructor].
      rewrite all_chars_app, Hcur, Hws. reflexivity.
  - cbn [all_chars]. unfold is_bar at 1. rewrite (Ascii.eqb_sym "|" c).
    destruct (c =? "|")%char eqn:Ebar; simpl.
    + split.
      * intro H. inversion H as [|? ? Hp Hrest]; subst.
        apply (IH true EmptyString EmptyString eq_refl) in Hrest. tauto.
      * intros [Hcur Hr]. constructor; [exact Hcur|].
        apply (IH true EmptyString EmptyString eq_refl). auto.
    + destruct (Char.isspace c) eqn:Espace.
      * destruct skip; [apply IH, Hws|].
        apply IH. rewrite all_chars_app, Hws. cbn [all_chars].
        rewrite Espace. reflexivity.
      * rewrite (IH false _ EmptyString eq_refl), !all_chars_app.
        cbn [all_chars]. rewrite Espace, !andb_false_r, andb_false_l.
        split; intros [H1 H2]; first [discriminate H1 | discriminate H2].
Qed.


(** Stripping removes white space only. *)
Lemma all_chars_lstrip_back P s :
  (forall c, Char.isspace c = true -> P c = true) ->
  all_chars P (Str.lstrip s) = all_chars P s.
Proof.
  intro HP. induction s as [|c r IH]; cbn [Str.lstrip all_chars]; [reflexivity|].
  destruct (Char.isspace c) eqn:E; [|reflexivity].
  rewrite (HP c E). exact IH.
Qed.

Lemma all_chars_rstrip_back P s :
  (forall c, Char.isspace c = true -> P c = true) ->
  all_chars P (Str.rstrip s) = all_chars P s.
Proof.
  intro HP. induction s as [|c r IH]; cbn [Str.rstrip all_chars]; [reflexivity|].
  destruct (Char.isspace c) eqn:E; cbn [andb].
  - destruct (Str.rstrip r) eqn:Er; cbn [Str.is_empty].
    + rewrite (HP c E), <- IH. reflexivity.
    + cbn [all_chars]. rewrite <- IH. reflexivity.
  - cbn [all_chars]. rewrite IH. reflexivity.
Qed.

Lemma all_chars_strip_back P s :
  (forall c, Char.isspace c = true -> P c = true) ->
  all_chars P (Str.strip s) = all_chars P s.
Proof.
  intro HP. unfold Str.strip.
  rewrite all_chars_lstrip_back, all_chars_rstrip_back by exact HP.
  reflexivity.
Qed.

Lemma in_alternatives raw0 alt :
  In alt (alternatives (new_Pattern raw0)) <->
  exists piece,
    In piece (Str.re_split_bar (Str.strip raw0))
    /\ Str.strip piece <> EmptyString /\ alt = Str.strip piece.
Proof.
  unfold new_Pattern. cbn [alternatives]. rewrite in_map_iff. split.
  - intros (piece & <- & Hin). apply filter_In in Hin as [Hin Hkeep].
    exists piece. repeat split; [exact Hin|].
    destruct (Str.strip piece); [discriminate | discriminate].
  - intros (piece & Hin & Hkeep & ->). exists piece. split; [reflexivity|].
    apply filter_In. split; [exact Hin|].
    destruct (Str.strip piece); [congruence | reflexivity].
Qed.

Lemma max_len_bound alts alt :
  In alt alts -> String.length alt <= max_len alts.
Proof.
  unfold max_len. induction alts as [|a rest IH]; simpl; [tauto|].
  intros [-> | Hin]; [lia|]. specialize (IH Hin). lia.
Qed.

Lemma max_len_le alts n :
  Forall (fun alt => String.length alt <= n) alts -> max_len alts <= n.
Proof.
  unfold max_len. induction 1 as [|a rest Ha _ IH]; simpl; lia.
Qed.

Lemma alternatives_nonempty (raw0 alt : string) :
  In alt (alternatives (new_Pattern raw0)) -> alt <> EmptyString.
Proof.
  intro H. apply in_alternatives in H as (piece & _ & Hkeep & ->).
  exact Hkeep.
Qed.

(** X4. The alternatives of a pattern are what the program relies on: none
    is empty, none has white space at an end, and none contains a bar. *)
Theorem alternatives_are_clean (raw0 alt : string) :
  In alt (alternatives (new_Pattern raw0)) ->
  alt <> EmptyString
  /\ Str.strip alt = alt
  /\ Str.contains "|" alt = false.
Proof.
  intro H. apply in_alternatives in H as (piece & Hin & Hkeep & ->).
  split; [exact Hkeep|]. split; [apply strip_strip|].
  rewrite contains_char. apply negb_false_iff.
  apply all_chars_strip.
  pose proof (split_bar_pieces_no_bar (Str.strip raw0) false
                EmptyString EmptyString eq_refl eq_refl) as Hall.
  rewrite Forall_forall in Hall. exact (Hall piece Hin).
Qed.

Lemma alternatives_are_clean_witness :
  In "PHP" (alternatives (new_Pattern "  PHP*MySQL |  PHP "))
  /\ Str.contains "|" "PHP" = false.
Proof.
  assert (H : In "PHP" (alternatives (new_Pattern "  PHP*MySQL |  PHP ")))
    by (right; left; reflexivity).
  split; [exact H|].
  exact (proj2 (proj2 (alternatives_are_clean _ _ H))).
Defined.

(** X5. The priority of a pattern is at least the length of each of its
    alternatives and at most the length of its stripped text, which is at
    most the length of the text it was built from; it is zero only for the
    pattern built from a blank text. *)
Theorem priority_bounds (raw0 : string) :
  let p := new_Pattern raw0 in
  Forall (fun alt => String.length alt <= priority p) (alternatives p)
  /\ priority p <= String.length (raw p)
  /\ String.length (raw p) <= String.length raw0
  /\ (priority p = 0 <-> raw p = EmptyString).
Proof.
  cbv zeta.
  assert (Hshort : Forall (fun alt => String.length alt
                                      <= String.length (Str.strip raw0))
                          (alternatives (new_Pattern raw0))).
  { apply Forall_forall. intros alt H.
    apply in_alternatives in H as (piece & Hin & _ & ->).
    pose proof (split_bar_pieces_length (Str.strip raw0) false
                  EmptyString EmptyString) as Hall.
    rewrite Forall_forall in Hall. specialize (Hall piece Hin).
    pose proof (strip_length piece). simpl in Hall. lia. }
  pose proof (alternatives_nonempty raw0) as Hclean.
  unfold new_Pattern in *. cbn [alternatives priority raw] in *.
  set (alts := map Str.strip _) in *.
  destruct alts as [|a rest] eqn:Ealts.
  - split; [constructor|]. split; [lia|]. split; [apply strip_length|].
    destruct (Str.strip raw0); simpl; split; congruence.
  - split; [apply Forall_forall; intros alt H; apply max_len_bound, H|].
    split; [apply max_len_le, Hshort|]. split; [apply strip_length|].
    pose proof (max_len_bound (a :: rest) a (or_introl eq_refl)) as Ha.
    pose proof (Hclean a (or_introl eq_refl)) as Hne.
    assert (0 < String.length a) by (destruct a; simpl; [congruence | lia]).
    split; [lia|]. intro Hraw.
    inversion Hshort as [|? ? Hlen _]; subst. rewrite Hraw in Hlen.
    simpl in Hlen. lia.
Qed.

Section PatternMore.

Context {engine : Regex}.

(** X6. A pattern has no alternative exactly when the text it was built
    from is made of bars and white space only; such a pattern matches no
    text. *)
Theorem no_alternatives_iff (raw0 : string) :
  (alternatives (new_Pattern raw0) = []
   <-> all_chars (fun c => is_bar c || Char.isspace c) raw0 = true)
  /\ (all_chars (fun c => is_bar c || Char.isspace c) raw0 = true ->
      forall text, matches (new_Pattern raw0) text = Ok false).
Proof.
  assert (Hiff : alternatives (new_Pattern raw0) = []
                 <-> all_chars (fun c => is_bar c || Char.isspace c) raw0
                     = true).
  { rewrite <- (all_chars_strip_back _ raw0)
      by (intros c Hc; rewrite Hc; apply orb_true_r).
    pose proof (split_bar_pieces_blank (Str.strip raw0) false
                  EmptyString EmptyString eq_refl) as Hblank.
    cbn [all_chars] in Hblank.
    assert (Hright : all_chars (fun c => is_bar c || Char.isspace c)
                               (Str.strip raw0) = true
                     <-> Forall (fun piece => all_chars Char.isspace piece = true)
                                (Str.re_split_bar (Str.strip raw0)))
      by (unfold Str.re_split_bar; tauto).
    rewrite Hright, Forall_forall. split.
    - intros Hnone piece Hin. apply strip_empty_iff.
      destruct (Str.strip piece) eqn:E; [reflexivity|].
      assert (Hin' : In (Str.strip piece) (alternatives (new_Pattern raw0))).
      { apply in_alternatives. exists piece. rewrite E.
        repeat split; [exact Hin | discriminate]. }
      rewrite Hnone in Hin'. destruct Hin'.
    - intro Hall. destruct (alternatives (new_Pattern raw0)) as [|alt rest] eqn:E;
        [reflexivity|].
      assert (Hin : In alt (alternatives (new_Pattern raw0)))
        by (rewrite E; left; reflexivity).
      apply in_alternatives in Hin as (piece & Hin & Hkeep & _).
      apply Hall, strip_empty_iff in Hin. congruence. }
  split; [exact Hiff|].
  intros Hblank text. unfold matches. rewrite (proj2 Hiff Hblank). reflexivity.
Qed.

(** X7. An alternative without content matches every text: when it is not
    a regular expression and each of its segments between stars normalises
    to the empty string (a literal such as "-" or "...", a wildcard such
    as "**" or "- * _"), it matches whatever the text is.  A pattern that
    has it among its alternatives never returns false; it returns true
    when the alternatives before it return, as they all do in a pattern
    without regular expressions. *)
Theorem blank_alternative_matches_everything (alt : string) :
  Str.startswith "regex:" alt = false ->
  Forall (fun t => normalize_name t = EmptyString) (Str.split "*" alt) ->
  forall text,
    alt_matches alt text = Ok true
    /\ (forall p, In alt (alternatives p) -> matches p text <> Ok false)
    /\ (forall p before after,
          alternatives p = (before ++ alt :: after)%list ->
          (forall a, In a before -> exists hit, alt_matches a text = Ok hit) ->
          matches p text = Ok true)
    /\ (forall p,
          In alt (alternatives p) ->
          Forall (fun a => Str.startswith "regex:" a = false) (alternatives p) ->
          matches p text = Ok true).
Proof.
  intros Hplain Hblank text.
  assert (Hhit : alt_matches alt text = Ok true).
  { unfold alt_matches. rewrite Hplain.
    destruct (Str.contains "*" alt) eqn:Estar.
    - f_equal. apply forallb_forall. intros tok Htok.
      apply in_map_iff in Htok as (t & <- & Ht).
      apply filter_In in Ht as [Ht _].
      rewrite Forall_forall in Hblank. rewrite (Hblank t Ht).
      apply contains_empty.
    - rewrite (split_without _ _ Estar) in Hblank.
      inversion Hblank as [|? ? Halt _]; subst. rewrite Halt.
      rewrite contains_empty. reflexivity. }
  split; [exact Hhit|]. split; [|split].
  - intros p Hin Hfalse.
    rewrite (proj1 (matches_from_false _ _) Hfalse alt Hin) in Hhit.
    discriminate.
  - intros p before after Halts Hret. unfold matches. rewrite Halts.
    apply matches_from_later; assumption.
  - intros p Hin Hall. apply (matches_from_hit _ alt); [|exact Hin | exact Hhit].
    intros a Ha. rewrite Forall_forall in Hall.
    exact (alt_matches_plain_total a text (Hall a Ha)).
Qed.

Lemma alt_matches_total_hit alts text :
  (forall alt, In alt alts -> exists hit, alt_matches alt text = Ok hit) ->
  (matches_from alts text = Ok true <->
   exists alt, In alt alts /\ alt_matches alt text = Ok true).
Proof.
  intro Hret. split; [apply matches_from_true_in|].
  intros (alt & Hin & Hhit). exact (matches_from_hit _ _ _ Hret Hin Hhit).
Qed.

(** X8. A pattern matches a text only when one of its alternatives does,
    and it returns false exactly when each of them does; what it raises,
    one of its alternatives raised.  When no alternative raises, the
    pattern matches exactly when one of its alternatives does, and the
    order of the alternatives does not matter: two patterns with the
    same alternatives in different orders give the same result. *)
Theorem matches_any_alternative (p : Pattern) (text : string) :
  (matches p text = Ok true ->
   exists alt, In alt (alternatives p) /\ alt_matches alt text = Ok true)
  /\ (matches p text = Ok false <->
      forall alt, In alt (alternatives p) -> alt_matches alt text = Ok false)
  /\ (forall e, matches p text = Raise e ->
        exists alt, In alt (alternatives p) /\ alt_matches alt text = Raise e)
  /\ ((forall alt, In alt (alternatives p) ->
                   exists hit, alt_matches alt text = Ok hit) ->
      (matches p text = Ok true <->
       exists alt, In alt (alternatives p) /\ alt_matches alt text = Ok true)
      /\ forall q, Permutation (alternatives p) (alternatives q) ->
                   matches p text = matches q text).
Proof.
  split; [apply matches_from_true_in|]. split; [apply matches_from_false|].
  split; [apply matches_from_raise|].
  intro Hret. split; [apply alt_matches_total_hit, Hret|].
  intros q Hperm. unfold matches.
  assert (Hretq : forall alt, In alt (alternatives q) ->
                              exists hit, alt_matches alt text = Ok hit).
  { intros alt Hin. apply Hret.
    exact (Permutation_in _ (Permutation_sym Hperm) Hin). }
  destruct (matches_from_total (alternatives p) text Hret) as [[|] Hp];
    destruct (matches_from_total (alternatives q) text Hretq) as [[|] Hq];
    rewrite Hp, Hq; try reflexivity; exfalso.
  - apply matches_from_true_in in Hp as (alt & Hin & Hhit).
    apply (Permutation_in _ Hperm) in Hin.
    rewrite (proj1 (matches_from_false _ _) Hq alt Hin) in Hhit. discriminate.
  - apply matches_from_true_in in Hq as (alt & Hin & Hhit).
    apply (Permutation_in _ (Permutation_sym Hperm)) in Hin.
    rewrite (proj1 (matches_from_false _ _) Hp alt Hin) in Hhit. discriminate.
Qed.

Lemma alt_matches_more_text alt text1 text2 :
  Str.startswith "regex:" alt = false ->
  Str.contains text1 text2 = true ->
  alt_matches alt text1 = Ok true -> alt_matches alt text2 = Ok true.
Proof.
  intros Hplain Hsub. unfold alt_matches. rewrite Hplain.
  destruct (Str.contains "*" alt).
  - intro H. injection H as H. f_equal.
    rewrite forallb_forall in *. intros tok Htok.
    exact (contains_trans _ _ _ (H tok Htok) Hsub).
  - intro H. injection H as H. f_equal.
    exact (contains_trans _ _ _ H Hsub).
Qed.

(** X9. A literal or wildcard match survives more text: when a pattern
    without regular expression alternatives matches a text, it matches
    every text that contains that text. *)
Theorem more_text_keeps_match (p : Pattern) (text1 text2 : string) :
  Forall (fun alt => Str.startswith "regex:" alt = false) (alternatives p) ->
  Str.contains text1 text2 = true ->
  matches p text1 = Ok true ->
  matches p text2 = Ok true.
Proof.
  intros Hplain Hsub H. rewrite Forall_forall in Hplain.
  apply matches_from_true_in in H as (alt & Hin & Hhit).
  apply (matches_from_hit _ alt); [|exact Hin|].
  - intros a Ha. exact (alt_matches_plain_total a text2 (Hplain a Ha)).
  - exact (alt_matches_more_text _ _ _ (Hplain alt Hin) Hsub Hhit).
Qed.

(** X10. The segments of a wildcard alternative are looked for in any
    order: exchanging what stands before a star and what stands after it
    does not change the texts the alternative matches. *)
Theorem wildcard_order_irrelevant (a b text : string) :
  Str.startswith "regex:" (a ++ "*" ++ b) = false ->
  Str.startswith "regex:" (b ++ "*" ++ a) = false ->
  alt_matches (a ++ "*" ++ b) text = alt_matches (b ++ "*" ++ a) text.
Proof.
  intros Hab Hba. unfold alt_matches. rewrite Hab, Hba.
  change (a ++ "*" ++ b) with (a ++ String "*" b).
  change (b ++ "*" ++ a) with (b ++ String "*" a).
  rewrite !contains_char_app, !split_app, !filter_app, !map_app, !forallb_app.
  rewrite andb_comm. reflexivity.
Qed.

End PatternMore.

Lemma no_alternatives_iff_witness :
  matches (new_Pattern " | ") "cooking recipes" = Ok false.
Proof.
  exact (proj2 (no_alternatives_iff " | ") eq_refl "cooking recipes").
Defined.

Lemma blank_alternative_matches_everything_witness :
  alternatives (new_Pattern "Python | - ") = ["Python"; "-"]
  /\ matches (new_Pattern "Python | - ") "cooking recipes" = Ok true.
Proof.
  split; [reflexivity|].
  refine (proj2 (proj2 (proj2 (blank_alternative_matches_everything
                                 "-" eq_refl _ "cooking recipes")))
            (new_Pattern "Python | - ") _ _).
  - repeat constructor.
  - right. left. reflexivity.
  - repeat constructor.
Defined.

Lemma matches_any_alternative_witness :
  matches (new_Pattern "PHP|PHP*MySQL") "php and mysql tutorial"
  = matches (new_Pattern "PHP*MySQL|PHP") "php and mysql tutorial".
Proof.
  refine (proj2 (proj2 (proj2 (proj2 (matches_any_alternative
            (new_Pattern "PHP|PHP*MySQL") "php and mysql tutorial"))) _)
            (new_Pattern "PHP*MySQL|PHP") _).
  - intros alt [<- | [<- | []]]; eexists; reflexivity.
  - apply perm_swap.
Defined.

Lemma more_text_keeps_match_witness :
  matches (new_Pattern "PHP*MySQL|PHP") "learning php and mysql in 24 hours"
  = Ok true.
Proof.
  apply (more_text_keeps_match _ "php and mysql").
  - repeat constructor.
  - reflexivity.
  - reflexivity.
Defined.

Lemma wildcard_order_irrelevant_witness :
  alt_matches "MySQL*PHP" "php and mysql tutorial" = Ok true.
Proof.
  rewrite <- (wildcard_order_irrelevant "PHP" "MySQL" "php and mysql tutorial"
                eq_refl eq_refl).
  reflexivity.
Defined.

(* ------------------------------------------------------------------ *)
(** ** The classifier, continued *)

Lemma groups_of_eq g :
  groups_of g = g :: flat_map groups_of (subgroups g).
Proof.
  destruct g as [n p subs inc exc]. reflexivity.
Qed.

Lemma in_groups_of_sub g sub x :
  In sub (subgroups g) -> In x (groups_of sub) -> In x (groups_of g).
Proof.
  intros Hsub Hx. rewrite groups_of_eq. right.
  apply in_flat_map. eauto.
Qed.

Lemma concat_nil_iff {A : Type} (ls : list (list A)) :
  List.concat ls = [] <-> Forall (fun l => l = []) ls.
Proof.
  induction ls as [|l rest IH]; simpl.
  - split; constructor.
  - split.
    + intro H. apply app_eq_nil in H as [-> H]. constructor; [reflexivity|].
      apply IH, H.
    + intro H. inversion H; subst. simpl. apply IH. assumption.
Qed.

Section ClassifierMore.

Context {engine : Regex} {os_path : OsPath}.

Lemma tree_result_in_tree file_path group :
  forall ms x,
    match_file_recursively file_path group = Ok ms -> In x ms ->
    In x (groups_of group)
    /\ match_file_recursively file_path x = Ok [x].
Proof.
  induction group as [group IH] using Group_ind_subs.
  intros ms x Hms Hx.
  destruct (subgroup_results file_path group ms Hms) as [found Hfound].
  pose proof Hms as Hms'.
  rewrite (match_file_recursively_from_subs _ _ _ Hfound) in Hms.
  destruct (is_nil (List.concat found)) eqn:Enil.
  - destruct (file_matches_group_name file_path group) as [[|]|e];
      simpl in Hms; inversion Hms; subst ms; [|destruct Hx].
    destruct Hx as [<- | []]. split; [|exact Hms'].
    rewrite groups_of_eq. left. reflexivity.
  - inversion Hms; subst ms.
    destruct (in_concat_results _ _ _ _ Hfound Hx) as (sub & r & Hsub & Hr & Hxr).
    rewrite Forall_forall in IH.
    destruct (IH sub Hsub r x Hr Hxr) as [Hin Hself].
    split; [exact (in_groups_of_sub _ _ _ Hsub Hin) | exact Hself].
Qed.

Lemma all_empty_results {A B : Type} (f : A -> result (list B)) xs found :
  Forall2 (fun x ms => f x = Ok ms) xs found ->
  List.concat found = [] -> Forall (fun x => f x = Ok []) xs.
Proof.
  induction 1 as [|x ms xs found Hx _ IH]; simpl; intro H; constructor.
  - apply app_eq_nil in H as [-> _]. exact Hx.
  - apply app_eq_nil in H as [_ H]. exact (IH H).
Qed.

Lemma empty_results {A B : Type} (f : A -> result (list B)) xs :
  Forall (fun x => f x = Ok []) xs ->
  exists found,
    Forall2 (fun x ms => f x = Ok ms) xs found /\ List.concat found = [].
Proof.
  induction 1 as [|x xs Hx _ (found & Hfound & Hnil)].
  - exists []. split; constructor.
  - exists ([] :: found). split; [constructor; assumption | exact Hnil].
Qed.

Lemma tree_skipped_iff file_path group :
  match_file_recursively file_path group = Ok [] <->
  forall x, In x (groups_of group) ->
            file_matches_group_name file_path x = Ok false.
Proof.
  induction group as [group IH] using Group_ind_subs.
  rewrite Forall_forall in IH. split.
  - intros Hms x Hx.
    destruct (subgroup_results _ _ _ Hms) as [found Hfound].
    rewrite (match_file_recursively_from_subs _ _ _ Hfound) in Hms.
    destruct (List.concat found) as [|y rest] eqn:Econcat; simpl in Hms;
      [|discriminate].
    pose proof (all_empty_results _ _ _ Hfound Econcat) as Hsubs.
    rewrite Forall_forall in Hsubs.
    rewrite groups_of_eq in Hx. destruct Hx as [<- | Hx].
    + destruct (file_matches_group_name file_path group) as [[|]|e];
        simpl in Hms; [discriminate | reflexivity | discriminate].
    + apply in_flat_map in Hx as (sub & Hsub & Hx).
      exact (proj1 (IH sub Hsub) (Hsubs sub Hsub) x Hx).
  - intro H.
    assert (Hsubs : Forall (fun sub => match_file_recursively file_path sub
                                       = Ok []) (subgroups group)).
    { apply Forall_forall. intros sub Hsub. apply (IH sub Hsub).
      intros x Hx. apply H. exact (in_groups_of_sub _ _ _ Hsub Hx). }
    destruct (empty_results _ _ Hsubs) as (found & Hfound & Hnil).
    rewrite (match_file_recursively_from_subs _ _ _ Hfound), Hnil. simpl.
    rewrite (H group); [reflexivity|].
    rewrite groups_of_eq. left. reflexivity.
Qed.

(** X11. The groups that the classifier returns for a tree are groups of
    that tree, and each of them is the whole answer for its own subtree:
    classifying the file against a returned group returns that group
    alone, so no returned group has a matching group below it. *)
Theorem returned_groups_are_most_specific
    (file_path : string) (group : Group) (ms : list Group) (x : Group) :
  match_file_recursively file_path group = Ok ms ->
  In x ms ->
  In x (groups_of group)
  /\ match_file_recursively file_path x = Ok [x]
  /\ file_matches_group_name file_path x = Ok true
  /\ forall y, In y (groups_of x) -> y <> x ->
               forall ys, match_file_recursively file_path y = Ok ys -> ys = [].
Proof.
  intros Hms Hx.
  destruct (tree_result_in_tree _ _ _ _ Hms Hx) as [Hin Hself].
  split; [exact Hin|]. split; [exact Hself|].
  split; [exact (proj1 (match_file_recursively_sound _ _ _ _ Hms Hx))|].
  intros y Hy Hne ys Hys.
  destruct ys as [|z rest]; [reflexivity|]. exfalso.
  rewrite groups_of_eq in Hy. destruct Hy as [-> | Hy]; [congruence|].
  apply in_flat_map in Hy as (sub & Hsub & Hy).
  destruct (subgroup_results file_path x _ Hself) as [found Hfound].
  rewrite (match_file_recursively_from_subs _ _ _ Hfound) in Hself.
  destruct (List.concat found) as [|w more] eqn:Econcat; simpl in Hself.
  - apply concat_nil_iff in Econcat.
    assert (Hsubnil : match_file_recursively file_path sub = Ok []).
    { clear -Hfound Econcat Hsub.
      induction Hfound as [|s ms subs found Hs _ IH]; [destruct Hsub|].
      inversion Econcat; subst. destruct Hsub as [<- | Hsub]; auto. }
    pose proof (proj1 (tree_skipped_iff _ _) Hsubnil y Hy) as Hdirect.
    destruct (tree_result_in_tree _ _ _ z Hys (or_introl eq_refl))
      as [Hz Hzself].
    assert (Hzsub : In z (groups_of sub)).
    { clear -Hy Hz. revert y Hy Hz.
      induction sub as [sub IHs] using Group_ind_subs. intros y Hy Hz.
      rewrite groups_of_eq in Hy. destruct Hy as [<- | Hy]; [exact Hz|].
      apply in_flat_map in Hy as (s & Hs & Hy).
      rewrite Forall_forall in IHs.
      exact (in_groups_of_sub _ _ _ Hs (IHs s Hs y Hy Hz)). }
    pose proof (proj1 (tree_skipped_iff _ _) Hsubnil z Hzsub) as Hzdirect.
    pose proof (proj1 (match_file_recursively_sound _ _ _ _ Hys
                         (or_introl eq_refl))).
    congruence.
  - inversion Hself as [Heq].
    assert (Hw : In x (List.concat found)) by (rewrite Econcat, Heq; left; reflexivity).
    destruct (in_concat_results _ _ _ _ Hfound Hw) as (s & r & Hs & Hr & Hxr).
    pose proof (proj2 (match_file_recursively_sound _ _ _ _ Hr Hxr)).
    pose proof (group_size_sub x s Hs). lia.
Qed.

(** X12. A file is skipped exactly when no group of the forest matches it
    on its own: the classifier returns no group, and the planner makes no
    decision, if and only if [file_matches_group_name] is false for every
    group of every tree. *)
Theorem skipped_iff_no_group_matches
    (top_groups : list Group) (src_path : string) :
  let nothing_matches :=
    forall root x, In root top_groups -> In x (groups_of root) ->
                   file_matches_group_name src_path x = Ok false in
  (match_forest top_groups src_path = Ok [] <-> nothing_matches)
  /\ (process_file top_groups src_path = Ok None <-> nothing_matches).
Proof.
  cbv zeta.
  assert (Hiff : match_forest top_groups src_path = Ok [] <->
                 forall root x, In root top_groups -> In x (groups_of root) ->
                                file_matches_group_name src_path x = Ok false).
  { split.
    - intros H root x Hroot Hx.
      destruct (forest_results _ _ _ H) as (found & Hfound & Hnil).
      pose proof (all_empty_results _ _ _ Hfound (eq_sym Hnil)) as Hall.
      rewrite Forall_forall in Hall.
      exact (proj1 (tree_skipped_iff _ _) (Hall root Hroot) x Hx).
    - intro H.
      assert (Hall : Forall (fun g => match_file_recursively src_path g = Ok [])
                            top_groups).
      { apply Forall_forall. intros g Hg. apply tree_skipped_iff.
        intros x Hx. exact (H g x Hg Hx). }
      destruct (empty_results _ _ Hall) as (found & Hfound & Hnil).
      unfold match_forest. rewrite (extend_each_results _ _ _ _ Hfound), Hnil.
      reflexivity. }
  split; [exact Hiff|].
  rewrite <- Hiff. unfold process_file. split.
  - intro H. apply bind_Ok in H as (ms & Hms & Hplan).
    rewrite plan_eq in Hplan. injection Hplan as Hplan.
    destruct (sorted sort_key ms) eqn:E; [|discriminate].
    pose proof (sorted_perm sort_key ms) as Hperm.
    rewrite E in Hperm. apply Permutation_sym, Permutation_nil in Hperm.
    rewrite Hms, Hperm. reflexivity.
  - intro H. rewrite H. reflexivity.
Qed.

(** X13. The roots of the forest are classified one by one: the result for
    a forest is the result for its first roots followed by the result for
    the other roots, so adding a root never removes or reorders the
    matches of the roots already there. *)
Theorem match_forest_app (roots1 roots2 : list Group) (src_path : string) :
  match_forest (roots1 ++ roots2)%list src_path =
  (ms1 <- match_forest roots1 src_path ;;
   ms2 <- match_forest roots2 src_path ;;
   Ok (ms1 ++ ms2)%list).
Proof.
  unfold match_forest.
  assert (Hacc : forall groups acc,
             extend_each (match_file_recursively src_path) acc groups
             = (ms <- extend_each (match_file_recursively src_path) [] groups ;;
                Ok (acc ++ ms)%list)).
  { induction groups as [|g rest IH]; intro acc; simpl.
    - rewrite app_nil_r. reflexivity.
    - destruct (match_file_recursively src_path g) as [found|e]; simpl;
        [|reflexivity].
      rewrite (IH (acc ++ found)%list), (IH found).
      destruct (extend_each (match_file_recursively src_path) [] rest);
        simpl; [rewrite app_assoc|]; reflexivity. }
  assert (Happ : forall groups1 acc,
             extend_each (match_file_recursively src_path) acc
                         (groups1 ++ roots2)%list
             = (ms <- extend_each (match_file_recursively src_path) acc groups1 ;;
                extend_each (match_file_recursively src_path) ms roots2)).
  { induction groups1 as [|g rest IH]; intro acc; simpl; [reflexivity|].
    destruct (match_file_recursively src_path g) as [found|e]; simpl;
      [apply IH | reflexivity]. }
  rewrite Happ.
  destruct (extend_each (match_file_recursively src_path) [] roots1)
    as [ms1|e]; simpl; [apply Hacc | reflexivity].
Qed.

(** X14. Classification reads a path only through its normalised stem: two
    paths whose base names without extension normalise to the same string
    get the same result from every tree and forest, and the same
    decision. *)
Theorem classification_depends_on_normalized_stem
    (path1 path2 : string) (group : Group) (top_groups : list Group) :
  normalized_stem path1 = normalized_stem path2 ->
  match_file_recursively path1 group = match_file_recursively path2 group
  /\ match_forest top_groups path1 = match_forest top_groups path2
  /\ process_file top_groups path1 = process_file top_groups path2.
Proof.
  intro Hstem.
  assert (Htree : forall g,
             match_file_recursively path1 g = match_file_recursively path2 g).
  { induction g as [g IH] using Group_ind_subs.
    rewrite !match_file_recursively_eq.
    rewrite (extend_each_ext _ _ _ _ IH).
    rewrite !file_matches_group_name_eq, Hstem. reflexivity. }
  assert (Hforest : match_forest top_groups path1
                    = match_forest top_groups path2).
  { unfold match_forest. apply extend_each_ext, Forall_forall.
    intros g _. apply Htree. }
  split; [apply Htree|]. split; [exact Hforest|].
  unfold process_file. rewrite Hforest. reflexivity.
Qed.

Lemma match_file_recursively_raise file_path group e :
  match_file_recursively file_path group = Raise e ->
  exists x, In x (groups_of group)
            /\ file_matches_group_name file_path x = Raise e.
Proof.
  induction group as [group IH] using Group_ind_subs.
  rewrite Forall_forall in IH.
  rewrite match_file_recursively_eq. intro H.
  apply bind_Raise in H as [H | (ms & _ & H)].
  - apply extend_each_Raise in H as (sub & Hsub & H).
    destruct (IH sub Hsub H) as (x & Hx & Hr).
    exists x. split; [exact (in_groups_of_sub _ _ _ Hsub Hx) | exact Hr].
  - destruct (is_nil ms); [|discriminate].
    apply bind_Raise in H as [H | (direct & _ & H)].
    + exists group. split; [rewrite groups_of_eq; left; reflexivity | exact H].
    + destruct direct; discriminate.
Qed.

(** What the classification of a file raises is what [re.search] raised
    on a regular expression of a pattern of some group; it is not
    [re.error]. *)
Lemma match_forest_raise top_groups src_path e :
  match_forest top_groups src_path = Raise e ->
  exists root x p alt,
    In root top_groups /\ In x (groups_of root)
    /\ In p (include_patterns x ++ exclude_patterns x)%list
    /\ In alt (alternatives p)
    /\ Str.startswith "regex:" alt = true
    /\ re_search (Str.drop (String.length "regex:") alt)
                 (normalized_stem src_path) = Raise e
    /\ e <> re_error.
Proof.
  unfold match_forest. intro H.
  apply extend_each_Raise in H as (root & Hroot & H).
  apply match_file_recursively_raise in H as (x & Hx & H).
  apply file_matches_group_name_raise in H as (p & Hp & H).
  apply matches_from_raise in H as (alt & Halt & H).
  apply alt_matches_raise in H as (Hregex & Hsearch & Hne).
  exists root, x, p, alt. auto 10.
Qed.

(** X15. The decision for a file: either the classification raised what
    [re.search] raised on a regular expression of a pattern of some
    group, an exception other than [re.error], and the decision raises
    it; or the file is skipped; or there is a primary group and
    secondaries which together are exactly the groups the classifier
    returned, each of which matches the file on its own, and no group
    has a higher priority than the primary.  The planner itself never
    raises. *)
Theorem process_file_decides (top_groups : list Group) (src_path : string) :
  (exists e root x p alt,
      process_file top_groups src_path = Raise e
      /\ match_forest top_groups src_path = Raise e
      /\ In root top_groups /\ In x (groups_of root)
      /\ In p (include_patterns x ++ exclude_patterns x)%list
      /\ In alt (alternatives p)
      /\ Str.startswith "regex:" alt = true
      /\ re_search (Str.drop (String.length "regex:") alt)
                   (normalized_stem src_path) = Raise e
      /\ e <> re_error)
  \/ process_file top_groups src_path = Ok None
  \/ exists primary secondaries ms,
       process_file top_groups src_path = Ok (Some (primary, secondaries))
       /\ match_forest top_groups src_path = Ok ms
       /\ Permutation ms (primary :: secondaries)
       /\ Forall (fun g => file_matches_group_name src_path g = Ok true)
                 (primary :: secondaries)
       /\ Forall (fun g => max_priority g <= max_priority primary) secondaries.
Proof.
  unfold process_file.
  destruct (match_forest top_groups src_path) as [ms|e] eqn:Hforest; simpl.
  - right. rewrite plan_eq.
    pose proof (sorted_perm sort_key ms) as Hperm.
    pose proof (sorted_groups_descending ms) as Hdesc.
    destruct (sorted sort_key ms) as [|p s]; [left; reflexivity|].
    right. exists p, s, ms.
    repeat split; try reflexivity; [exact Hperm | |].
    + apply Forall_forall. intros g Hg.
      apply (Permutation_in _ (Permutation_sym Hperm)) in Hg.
      exact (match_forest_sound _ _ _ _ Hforest Hg).
    + inversion Hdesc; assumption.
  - left. destruct (match_forest_raise _ _ _ Hforest)
      as (root & x & p & alt & H).
    exists e, root, x, p, alt. auto.
Qed.

(** The decision returns when the classification does. *)
Lemma process_file_Ok top_groups src_path ms :
  match_forest top_groups src_path = Ok ms ->
  exists decision, process_file top_groups src_path = Ok decision.
Proof.
  intro H. unfold process_file. rewrite H. simpl. rewrite plan_eq. eauto.
Qed.

End ClassifierMore.

Lemma returned_groups_are_most_specific_witness :
  match_file_recursively "Python_Basics.pdf" Sample.python = Ok [Sample.python].
Proof.
  assert (H : match_file_recursively "Python_Basics.pdf" Sample.it_books
              = Ok [Sample.python]) by reflexivity.
  exact (proj1 (proj2 (returned_groups_are_most_specific
                         _ _ _ _ H (or_introl eq_refl)))).
Defined.

Lemma classification_depends_on_normalized_stem_witness :
  normalized_stem "/new/Python_Basics.pdf" = "python basics"
  /\ normalized_stem "old/PYTHON--basics.v2" = "python basics"
  /\ process_file [Sample.it_books] "/new/Python_Basics.pdf"
     = process_file [Sample.it_books] "old/PYTHON--basics.v2".
Proof.
  split; [reflexivity|]. split; [reflexivity|].
  apply (classification_depends_on_normalized_stem
           "/new/Python_Basics.pdf" "old/PYTHON--basics.v2" Sample.it_books).
  reflexivity.
Defined.

(* ------------------------------------------------------------------ *)
(** ** Full names and destinations under [posixpath] *)

Lemma last_char_app a b :
  b <> EmptyString -> last_char (a ++ b) = last_char b.
Proof.
  intro Hb. induction a as [|c r IH]; [reflexivity|].
  cbn [append last_char]. rewrite IH.
  destruct b as [|d b']; [congruence|].
  cbn [last_char]. destruct (last_char b'); reflexivity.
Qed.

Lemma drop_last c r :
  exists d, Str.drop (String.length r) (String c r) = String d EmptyString
            /\ last_char (String c r) = Some d.
Proof.
  revert c. induction r as [|e r IH]; intro c.
  - exists c. split; reflexivity.
  - destruct (IH e) as (d & Hdrop & Hlast). exists d.
    split; [exact Hdrop|]. cbn [last_char] in *. rewrite Hlast. reflexivity.
Qed.

Lemma endswith_sep_last s :
  Posix.endswith_sep s =
  match last_char s with
  | Some c => (c =? "/")%char
  | None => false
  end.
Proof.
  destruct s as [|c r]; [reflexivity|].
  unfold Posix.endswith_sep. cbn [String.length].
  destruct (drop_last c r) as (d & -> & ->).
  cbn. destruct (d =? "/")%char; reflexivity.
Qed.

Lemma last_char_all P s c :
  all_chars P s = true -> last_char s = Some c -> P c = true.
Proof.
  induction s as [|d r IH]; [discriminate|].
  cbn [all_chars last_char]. intro H. apply andb_true_iff in H as [Hd Hr].
  destruct (last_char r) as [e|] eqn:E.
  - intro Heq. injection Heq as <-. auto.
  - intro Heq. injection Heq as <-. exact Hd.
Qed.

Lemma plain_name_facts b :
  plain_name b = true ->
  b <> EmptyString
  /\ Str.startswith "/" b = false
  /\ Posix.endswith_sep b = false.
Proof.
  unfold plain_name. intro H. apply andb_true_iff in H as [Hne Hall].
  destruct b as [|c r]; [discriminate|].
  split; [discriminate|]. split.
  - unfold Str.startswith. rewrite prefix_cons, prefix_nil_l, andb_true_r.
    cbn [all_chars] in Hall. apply andb_true_iff in Hall as [Hc _].
    apply negb_true_iff in Hc. exact Hc.
  - rewrite endswith_sep_last.
    destruct (last_char (String c r)) as [d|] eqn:E; [|reflexivity].
    pose proof (last_char_all _ _ _ Hall E) as Hd. cbn in Hd.
    apply negb_true_iff in Hd. rewrite Ascii.eqb_sym. exact Hd.
Qed.

Lemma concat_cons_app sep x y l :
  String.concat sep ((x ++ sep ++ y) :: l)
  = x ++ sep ++ String.concat sep (y :: l).
Proof.
  destruct l as [|z l]; cbn [String.concat]; [reflexivity|].
  rewrite !append_assoc. reflexivity.
Qed.

Lemma posix_join_plain p :
  forall path,
    path <> EmptyString -> Posix.endswith_sep path = false ->
    Forall (fun b => plain_name b = true) p ->
    Posix.join path p = String.concat "/" (path :: p).
Proof.
  unfold Posix.join.
  induction p as [|b p IH]; intros path Hne Hend Hplain; [reflexivity|].
  inversion Hplain as [|? ? Hb Hp]; subst.
  destruct (plain_name_facts b Hb) as (Hbne & Hbstart & Hbend).
  cbn [fold_left]. rewrite Hbstart, Hend.
  destruct path as [|c r]; [congruence|]. cbn [Str.is_empty orb].
  rewrite IH; [apply concat_cons_app | discriminate | | exact Hp].
  rewrite endswith_sep_last in *.
  replace (String c r ++ "/" ++ b) with ((String c r ++ "/") ++ b)
    by apply append_assoc.
  rewrite last_char_app by exact Hbne. exact Hbend.
Qed.

(** X16. Under [posixpath], the full name of a group whose name and whose
    ancestors' names are plain path components (not empty, without a
    slash) is those names, from the root down to the group, joined by
    slashes. *)
Theorem full_name_is_joined_path (g : Group) :
  Forall (fun s => plain_name s = true) (name g :: parent g) ->
  @full_name posixpath g = String.concat "/" (rev (parent g) ++ [name g])%list.
Proof.
  intro Hplain. unfold full_name. cbn [rev].
  apply Forall_rev in Hplain. cbn [rev] in Hplain.
  destruct (rev (parent g) ++ [name g])%list as [|a p] eqn:E.
  - destruct (rev (parent g)); discriminate.
  - inversion Hplain as [|? ? Ha Hp]; subst.
    destruct (plain_name_facts a Ha) as (Hne & _ & Hend).
    exact (posix_join_plain p a Hne Hend Hp).
Qed.

Lemma full_name_is_joined_path_witness :
  full_name Sample.biology = "Science/Biology".
Proof.
  apply (full_name_is_joined_path Sample.biology).
  repeat constructor.
Defined.

(** X17. Under [posixpath], a group whose name starts with a slash leaves
    the destination directory: its full name is its name alone, whatever
    its ancestors, and the file is placed under that name, whatever the
    destination directory is. *)
Theorem absolute_name_escapes_destination
    (g : Group) (secondaries : list Group) (dst_dir fname : string) :
  Str.startswith "/" (name g) = true ->
  @full_name posixpath g = name g
  /\ fst (@destinations posixpath dst_dir fname (g, secondaries))
     = Posix.join (name g) [fname].
Proof.
  intro Habs.
  assert (Hfull : full_name g = name g).
  { unfold full_name. cbn [rev].
    destruct (rev (parent g)) as [|a q]; [reflexivity|].
    cbn [app join posixpath]. unfold Posix.join.
    rewrite fold_left_app. cbn [fold_left]. rewrite Habs. reflexivity. }
  split; [exact Hfull|].
  unfold destinations. cbn [fst join posixpath]. rewrite Hfull.
  unfold Posix.join. cbn [fold_left]. rewrite Habs. reflexivity.
Qed.

Lemma absolute_name_escapes_destination_witness :
  fst (destinations "/home/me/sorted" "passwd.txt" (SampleMore.escaped, []))
  = "/etc/passwd.txt".
Proof.
  exact (proj2 (absolute_name_escapes_destination
                  SampleMore.escaped [] "/home/me/sorted" "passwd.txt"
                  eq_refl)).
Defined.

(* ------------------------------------------------------------------ *)
(** ** The group tree builder, continued *)

Section BuilderMore.

Context {builtins : Repr} {interpreter : Interpreter}.

Lemma append_built_image build groups children gs :
  append_built build groups children = Ok gs ->
  exists built,
    gs = (groups ++ built)%list
    /\ Forall2 (fun child g => build child = Ok g) (dicts_of children) built.
Proof.
  revert groups. induction children as [|v rest IH]; intros groups H;
    cbn [append_built] in H.
  - injection H as <-. exists []. rewrite app_nil_r. split; constructor.
  - destruct v as [| | | | |child];
      try (destruct (IH _ H) as (built & -> & Hall); exists built;
           split; [reflexivity | exact Hall]).
    apply bind_Ok in H as (g & Hg & H).
    destruct (IH _ H) as (built & -> & Hall). exists (g :: built).
    split; [rewrite <- app_assoc; reflexivity|].
    cbn. constructor; assumption.
Qed.

Lemma named_first_true node :
  named node = true -> exists given, first_true node "name" "Group" = Some given.
Proof.
  unfold named. destruct (first_true node "name" "Group"); [eauto | discriminate].
Qed.

Lemma build_node_mirrors depth :
  forall node ancestors g,
    build_node depth node ancestors = Ok g -> mirrors node ancestors g.
Proof.
  induction depth as [|depth IH]; intros node ancestors g H; [discriminate|].
  rewrite build_node_eq in H.
  destruct (has_name node) eqn:Hname; simpl in H; [|discriminate].
  rewrite has_name_named in Hname.
  destruct (named_first_true _ Hname) as [given Hgiven].
  rewrite (node_name_first_true _ _ Hgiven) in H.
  apply bind_Ok in H as (includes & Hinc & H).
  apply bind_Ok in H as (excludes & Hexc & H).
  apply bind_Ok in H as (items & Hitems & H).
  apply bind_Ok in H as (subs & Hsubs & H).
  injection H as <-.
  apply append_built_image in Hsubs as (built & -> & Hbuilt).
  apply (mirrors_node node ancestors _ given); cbn.
  - exact Hgiven.
  - reflexivity.
  - reflexivity.
  - exact (patterns_of_keys_texts _ _ _ _ Hinc).
  - exact (patterns_of_keys_texts _ _ _ _ Hexc).
  - rewrite (children_of _ _ Hitems).
    eapply Forall2_impl; [|exact Hbuilt]. intros child sub Hsub.
    exact (IH _ _ _ Hsub).
Qed.

(** X18. The forest that is built mirrors the configuration: one root
    group for each root node and, below every group, one subgroup for each
    child node, all in the order of the configuration; each group carries
    the name of its node, the names of its ancestors, and one pattern for
    each text of the node's include and exclude fields, in the order of
    the field. *)
Theorem build_mirrors_config (config : value) (groups : list Group) :
  build_groups_from_config config = Ok groups ->
  Forall2 (fun node g => mirrors node [] g) (roots config) groups
  /\ List.length groups = List.length (roots config)
  /\ Forall2 (fun node g =>
                include_patterns g
                = map new_Pattern (field_texts node "include"
                                   ++ field_texts node "Include")%list
                /\ exclude_patterns g
                   = map new_Pattern (field_texts node "exclude"
                                      ++ field_texts node "Exclude")%list
                /\ List.length (subgroups g) = List.length (children node)
                /\ exists given,
                     first_true node "name" "Group" = Some given
                     /\ name g = str given)
             (roots config) groups.
Proof.
  intro H. destruct config as [| | | | |entries]; try discriminate.
  unfold build_groups_from_config in H.
  apply bind_Ok in H as (tns & Htns & H).
  apply append_built_image in H as (built & -> & Hbuilt).
  rewrite (roots_of _ _ Htns). cbn [app].
  assert (Hmirror : Forall2 (fun node g => mirrors node [] g)
                            (dicts_of tns) built).
  { eapply Forall2_impl; [|exact Hbuilt]. intros node g Hg.
    exact (build_node_mirrors _ _ _ _ Hg). }
  split; [exact Hmirror|]. split.
  - symmetry. exact (Forall2_length Hmirror).
  - eapply Forall2_impl; [|exact Hmirror]. intros node g Hg.
    inversion Hg as [? ? ? given Hgiven Hn _ Hinc Hexc Hsubs]; subst.
    split; [exact Hinc|]. split; [exact Hexc|]. split.
    + symmetry. exact (Forall2_length Hsubs).
    + exists given. auto.
Qed.






End BuilderMore.



Lemma build_mirrors_config_witness :
  exists it,
    build_groups_from_config SampleConfig.named = Ok [it]
    /\ name it = "IT"
    /\ include_patterns it = []
    /\ exists python programming,
         subgroups it = [python; programming]
         /\ name python = "Python" /\ parent python = ["IT"]
         /\ include_patterns python = [new_Pattern "Python"]
         /\ name programming = "Programming"
         /\ include_patterns programming = [new_Pattern "Prog*Lang"].
Proof.
  destruct (build_groups_from_config SampleConfig.named) as [groups|e] eqn:E;
    [|vm_compute in E; discriminate].
  destruct (build_mirrors_config _ _ E) as (Hmirror & _).
  inversion Hmirror as [|node it nodes rest Hit Hrest]; subst.
  inversion Hrest; subst. exists it. split; [reflexivity|].
  inversion Hit as [? ? ? given Hgiven Hname Hparent Hinc _ Hsubs]; subst.
  injection Hgiven as <-.
  split; [exact Hname|]. split; [exact Hinc|].
  inversion Hsubs as [|n1 python ns ss Hpython Htail]; subst.
  inversion Htail as [|n2 programming ns' ss' Hprogramming Hnil]; subst.
  inversion Hnil; subst.
  exists python, programming. split; [reflexivity|].
  inversion Hpython as [? ? ? g1 Hg1 Hn1 Hp1 Hi1 _ _]; subst.
  inversion Hprogramming as [? ? ? g2 Hg2 Hn2 Hp2 Hi2 _ _]; subst.
  injection Hg1 as <-. injection Hg2 as <-.
  rewrite Hname in Hp1.
  repeat split; assumption.
Defined.

(* ------------------------------------------------------------------ *)
(** ** File operations *)

Section FileOpsFacts.

Context {engine : Regex} {os_path : OsPath} {fs : FileSystem}.

Lemma bind_run {A B : Type} (m : io A) (k : A -> io B) w :
  io_bind m k w =
  match outcome_of (m w) with
  | Returned a =>
      (outcome_of (k a (world_of (m w))), world_of (k a (world_of (m w))),
       (events_of (m w) ++ events_of (k a (world_of (m w))))%list)
  | Thrown e => (Thrown e, world_of (m w), events_of (m w))
  end.
Proof.
  unfold io_bind, outcome_of, world_of, events_of.
  destruct (m w) as [[[a|e] w1] t1]; cbn; [|reflexivity].
  destruct (k a w1) as [[r w2] t2]. reflexivity.
Qed.

Lemma try_run {A : Type} (body : io A) (handler : exception -> io A) w :
  try_except_all body handler w =
  match outcome_of (body w) with
  | Returned a => (Returned a, world_of (body w), events_of (body w))
  | Thrown e =>
      (outcome_of (handler e (world_of (body w))),
       world_of (handler e (world_of (body w))),
       (events_of (body w) ++ events_of (handler e (world_of (body w))))%list)
  end.
Proof.
  unfold try_except_all, outcome_of, world_of, events_of.
  destruct (body w) as [[[a|e] w1] t1]; cbn; [reflexivity|].
  destruct (handler e w1) as [[r w2] t2]. reflexivity.
Qed.

Lemma emits_ret {A : Type} P (a : A) : emits P (ret a).
Proof. intro w. constructor. Qed.

Lemma emits_throw {A : Type} P e : emits P (@throw _ A e).
Proof. intro w. constructor. Qed.

Lemma emits_read {A : Type} P (f : world -> A) : emits P (read f).
Proof. intro w. constructor. Qed.

Lemma emits_lift {A : Type} P (r : result A) : emits P (lift r).
Proof. destruct r; [apply emits_ret | apply emits_throw]. Qed.

Lemma emits_log (P : event -> Prop) lvl msg args :
  P (Log lvl msg args) -> emits P (log lvl msg args).
Proof. intros H w. repeat constructor. exact H. Qed.

Lemma emits_call (P : event -> Prop) ev op : P ev -> emits P (call ev op).
Proof.
  intros H w. unfold call, events_of. destruct (op w). cbn.
  repeat constructor. exact H.
Qed.

Lemma emits_bind {A B : Type} P (m : io A) (k : A -> io B) :
  emits P m -> (forall a, emits P (k a)) -> emits P (io_bind m k).
Proof.
  intros Hm Hk w. rewrite bind_run. specialize (Hm w).
  destruct (outcome_of (m w)) as [a|e]; cbn; [|exact Hm].
  apply Forall_app. split; [exact Hm | apply Hk].
Qed.

Lemma emits_bind_from {A B : Type} P (m : io A) (k : A -> io B) :
  emits P m ->
  (forall w a, outcome_of (m w) = Returned a -> emits P (k a)) ->
  emits P (io_bind m k).
Proof.
  intros Hm Hk w. rewrite bind_run. specialize (Hm w).
  destruct (outcome_of (m w)) as [a|e] eqn:E; cbn; [|exact Hm].
  apply Forall_app. split; [exact Hm | exact (Hk w a E _)].
Qed.

Lemma emits_then {A : Type} P (m : io unit) (k : io A) :
  emits P m -> emits P k -> emits P (and_then m k).
Proof. intros Hm Hk. apply emits_bind; [exact Hm | intros _; exact Hk]. Qed.

Lemma emits_try {A : Type} P (body : io A) handler :
  emits P body -> (forall e, emits P (handler e)) ->
  emits P (try_except_all body handler).
Proof.
  intros Hb Hh w. rewrite try_run. specialize (Hb w).
  destruct (outcome_of (body w)) as [a|e]; cbn; [exact Hb|].
  apply Forall_app. split; [exact Hb | apply Hh].
Qed.

Lemma emits_for_each {A : Type} P (xs : list A) body :
  (forall x, In x xs -> emits P (body x)) -> emits P (for_each xs body).
Proof.
  induction xs as [|x rest IH]; intro H; cbn [for_each].
  - apply emits_ret.
  - apply emits_then; [apply H; left; reflexivity|].
    apply IH. intros y Hy. apply H. right. exact Hy.
Qed.

Lemma emits_for_each_with {A S : Type} P (xs : list A) (s : S) body :
  (forall s x, In x xs -> emits P (body s x)) ->
  emits P (for_each_with xs s body).
Proof.
  revert s. induction xs as [|x rest IH]; intros s H; cbn [for_each_with].
  - apply emits_ret.
  - apply emits_bind; [apply H; left; reflexivity|].
    intro s1. apply IH. intros s2 y Hy. apply H. right. exact Hy.
Qed.

Lemma emits_weaken {A : Type} (P Q : event -> Prop) (m : io A) :
  (forall ev, P ev -> Q ev) -> emits P m -> emits Q m.
Proof. intros HPQ Hm w. eapply Forall_impl; [exact HPQ | apply Hm]. Qed.

(** A loop that returns ran each of its rounds to the end, and the events
    of each round are among the events of the loop. *)
Lemma for_each_with_rounds {A S : Type} (xs : list A) body :
  forall (s : S) w s',
    outcome_of (for_each_with xs s body w) = Returned s' ->
    forall x, In x xs ->
      exists s0 w0 s1,
        outcome_of (body s0 x w0) = Returned s1
        /\ incl (events_of (body s0 x w0))
                (events_of (for_each_with xs s body w)).
Proof.
  induction xs as [|y rest IH]; intros s w s' Hret x Hx; [destruct Hx|].
  cbn [for_each_with] in *. rewrite bind_run in *.
  destruct (outcome_of (body s y w)) as [s1|e] eqn:Ebody; [|discriminate].
  cbn [outcome_of events_of fst snd] in *.
  destruct Hx as [<- | Hx].
  - exists s, w, s1. split; [exact Ebody|]. apply incl_appl, incl_refl.
  - destruct (IH _ _ _ Hret x Hx) as (s0 & w0 & s2 & Hr & Hincl).
    exists s0, w0, s2. split; [exact Hr|]. apply incl_appr, Hincl.
Qed.

Lemma for_each_rounds {A : Type} (xs : list A) body :
  forall w,
    outcome_of (for_each xs body w) = Returned tt ->
    forall x, In x xs ->
      exists w0,
        outcome_of (body x w0) = Returned tt
        /\ incl (events_of (body x w0)) (events_of (for_each xs body w)).
Proof.
  induction xs as [|y rest IH]; intros w Hret x Hx; [destruct Hx|].
  cbn [for_each] in *. unfold and_then in *. rewrite bind_run in *.
  destruct (outcome_of (body y w)) as [[]|e] eqn:Ebody; [|discriminate].
  cbn [outcome_of events_of fst snd] in *.
  destruct Hx as [<- | Hx].
  - exists w. split; [exact Ebody|]. apply incl_appl, incl_refl.
  - destruct (IH _ Hret x Hx) as (w0 & Hr & Hincl).
    exists w0. split; [exact Hr|]. apply incl_appr, Hincl.
Qed.

(** What a loop keeps true of its variable. *)
Lemma for_each_with_invariant {A S : Type} (Q : S -> Prop) (xs : list A) body :
  (forall s x w s1, In x xs -> Q s ->
                    outcome_of (body s x w) = Returned s1 -> Q s1) ->
  forall (s : S) w s',
    Q s -> outcome_of (for_each_with xs s body w) = Returned s' -> Q s'.
Proof.
  induction xs as [|y rest IH]; intros Hstep s w s' Hs Hret;
    cbn [for_each_with] in Hret.
  - injection Hret as <-. exact Hs.
  - rewrite bind_run in Hret.
    destruct (outcome_of (body s y w)) as [s1|e] eqn:Ebody; [|discriminate].
    cbn [outcome_of fst] in Hret.
    refine (IH (fun s0 x w0 s2 Hx => Hstep s0 x w0 s2 (or_intror Hx))
               s1 _ s' _ Hret).
    exact (Hstep s y w s1 (or_introl eq_refl) Hs Ebody).
Qed.

End FileOpsFacts.

Section FileOpsRuns.

Context {engine : Regex} {os_path : OsPath} {fs : FileSystem}.

Lemma events_bind_l {A B : Type} (m : io A) (k : A -> io B) w :
  incl (events_of (m w)) (events_of (io_bind m k w)).
Proof.
  rewrite bind_run. destruct (outcome_of (m w)); cbn;
    [apply incl_appl|]; apply incl_refl.
Qed.

Lemma events_bind_r {A B : Type} (m : io A) (k : A -> io B) w a :
  outcome_of (m w) = Returned a ->
  incl (events_of (k a (world_of (m w)))) (events_of (io_bind m k w)).
Proof.
  intro H. rewrite bind_run, H. cbn. apply incl_appr, incl_refl.
Qed.

Lemma bind_returned {A B : Type} (m : io A) (k : A -> io B) w b :
  outcome_of (io_bind m k w) = Returned b ->
  exists a, outcome_of (m w) = Returned a
            /\ outcome_of (k a (world_of (m w))) = Returned b.
Proof.
  rewrite bind_run. destruct (outcome_of (m w)) as [a|e]; cbn;
    [eauto | discriminate].
Qed.

Lemma in_events_bind {A B : Type} (m : io A) (k : A -> io B) w ev :
  In ev (events_of (io_bind m k w)) ->
  In ev (events_of (m w))
  \/ exists a, outcome_of (m w) = Returned a
               /\ In ev (events_of (k a (world_of (m w)))).
Proof.
  rewrite bind_run. destruct (outcome_of (m w)) as [a|e]; cbn; [|auto].
  intro H. apply in_app_or in H as [H | H]; eauto.
Qed.

Lemma read_bind {A B : Type} (f : world -> A) (k : A -> io B) w :
  io_bind (read f) k w = k (f w) w.
Proof.
  unfold io_bind, read. destruct (k (f w) w) as [[r w2] t2]. reflexivity.
Qed.

Lemma events_call ev op w : events_of (call ev op w) = [ev].
Proof. unfold call, events_of. destruct (op w). reflexivity. Qed.

Lemma inert_ret {A : Type} (a : A) : inert (ret a).
Proof. intro w. repeat split; [eexists; reflexivity | constructor]. Qed.

Lemma inert_read {A : Type} (f : world -> A) : inert (read f).
Proof. intro w. repeat split; [eexists; reflexivity | constructor]. Qed.

Lemma inert_log lvl msg args : inert (log lvl msg args).
Proof.
  intro w. repeat split; [eexists; reflexivity | repeat constructor].
Qed.

Lemma inert_bind {A B : Type} (m : io A) (k : A -> io B) :
  inert m -> (forall a, inert (k a)) -> inert (io_bind m k).
Proof.
  intros Hm Hk w. destruct (Hm w) as ([a Ha] & Hw & Hev).
  rewrite bind_run, Ha. cbn. rewrite Hw.
  destruct (Hk a w) as ([b Hb] & Hw' & Hev').
  repeat split; [eauto | exact Hw' |].
  apply Forall_app. split; assumption.
Qed.

Lemma inert_then {A : Type} (m : io unit) (k : io A) :
  inert m -> inert k -> inert (and_then m k).
Proof. intros Hm Hk. apply inert_bind; [exact Hm | intros _; exact Hk]. Qed.

Lemma inert_for_each {A : Type} (xs : list A) body :
  (forall x, inert (body x)) -> inert (for_each xs body).
Proof.
  intro H. induction xs as [|x rest IH]; cbn [for_each].
  - apply inert_ret.
  - apply inert_then; [apply H | exact IH].
Qed.

Lemma inert_for_each_with {A S : Type} (xs : list A) (s : S) body :
  (forall s x, inert (body s x)) -> inert (for_each_with xs s body).
Proof.
  intro H. revert s. induction xs as [|x rest IH]; intro s; cbn [for_each_with].
  - apply inert_ret.
  - apply inert_bind; [apply H | intro s1; apply IH].
Qed.

Lemma inert_harmless {A : Type} (m : io A) : inert m -> harmless m.
Proof. intros H w. destruct (H w) as (_ & Hw & Hev). auto. Qed.

Lemma harmless_throw {A : Type} e : harmless (@throw _ A e).
Proof. intro w. split; [reflexivity | constructor]. Qed.

Lemma harmless_lift {A : Type} (r : result A) : harmless (lift r).
Proof.
  destruct r; [apply inert_harmless, inert_ret | apply harmless_throw].
Qed.

Lemma harmless_bind {A B : Type} (m : io A) (k : A -> io B) :
  harmless m -> (forall a, harmless (k a)) -> harmless (io_bind m k).
Proof.
  intros Hm Hk w. destruct (Hm w) as (Hw & Hev). rewrite bind_run.
  destruct (outcome_of (m w)) as [a|e]; cbn; [|auto].
  rewrite Hw. destruct (Hk a w) as (Hw' & Hev').
  split; [exact Hw'|]. apply Forall_app. split; assumption.
Qed.

Lemma harmless_for_each_with {A S : Type} (xs : list A) (s : S) body :
  (forall s x, harmless (body s x)) -> harmless (for_each_with xs s body).
Proof.
  intro H. revert s. induction xs as [|x rest IH]; intro s; cbn [for_each_with].
  - apply inert_harmless, inert_ret.
  - apply harmless_bind; [apply H | intro s1; apply IH].
Qed.

Lemma inert_for_each_with_in {A S : Type} (xs : list A) (s : S) body :
  (forall s x, In x xs -> inert (body s x)) -> inert (for_each_with xs s body).
Proof.
  revert s. induction xs as [|x rest IH]; intros s H; cbn [for_each_with].
  - apply inert_ret.
  - apply inert_bind; [apply H; left; reflexivity|].
    intro s1. apply IH. intros s2 y Hy. apply H. right. exact Hy.
Qed.

Lemma lift_returned {A : Type} (r : result A) w a :
  outcome_of (lift r w) = Returned a -> r = Ok a.
Proof. destruct r; cbn; intro H; [congruence | discriminate]. Qed.

Section Placement.

Variables (dst_dir : string) (top_groups : list Group)
          (walk : list (string * list string)).
Variables (root fname : string) (primary : Group) (secondaries : list Group).
Hypothesis Hplaced : placed top_groups walk root fname primary secondaries.

Lemma emits_ensure_dir g dry_run :
  In g (primary :: secondaries) ->
  emits (placement_event dst_dir top_groups walk)
        (ensure_dir (dirname (destination dst_dir fname g)) dry_run).
Proof.
  intro Hg. unfold ensure_dir. destruct dry_run.
  - apply emits_log. exact I.
  - apply emits_call. exists root, fname, primary, secondaries, g. auto.
Qed.

Lemma emits_create_hardlink_or_copy g dry_run :
  In g secondaries ->
  emits (placement_event dst_dir top_groups walk)
        (create_hardlink_or_copy (destination dst_dir fname primary)
                                 (destination dst_dir fname g) dry_run).
Proof.
  intro Hg. unfold create_hardlink_or_copy.
  apply emits_then.
  { apply emits_call.
    exists root, fname, primary, secondaries, g.
    split; [exact Hplaced|]. split; [right; exact Hg | reflexivity]. }
  destruct dry_run; [apply emits_log; exact I|].
  apply emits_try.
  - intro w. unfold and_then. rewrite !read_bind.
    set (l := win_long_path w (destination dst_dir fname g)).
    set (s := win_long_path w (destination dst_dir fname primary)).
    assert (Hl : placement_event dst_dir top_groups walk (Remove l))
      by (exists root, fname, primary, secondaries, g, w; auto).
    assert (Hs : placement_event dst_dir top_groups walk (Link s l))
      by (exists root, fname, primary, secondaries, g, w; auto).
    assert (Hrest : emits (placement_event dst_dir top_groups walk)
                      (io_bind (if path_exists w l
                                then call (Remove l) (remove l) else ret tt)
                         (fun _ => io_bind (call (Link s l) (link s l))
                            (fun _ => log INFO HardlinkMade
                                        [Text (destination dst_dir fname g)])))).
    { apply emits_bind.
      - destruct (path_exists w l); [apply emits_call; exact Hl | apply emits_ret].
      - intros _. apply emits_bind; [apply emits_call; exact Hs|].
        intros _. apply emits_log. exact I. }
    exact (Hrest w).
  - intro e. apply emits_then; [apply emits_log; exact I|].
    apply emits_call. exists root, fname, primary, secondaries.
    split; [exact Hplaced|]. right. exists g. auto.
Qed.

Lemma emits_place hl dry_run :
  emits (placement_event dst_dir top_groups walk)
        (place dst_dir hl dry_run (join root [fname]) fname primary secondaries).
Proof.
  unfold place.
  apply emits_then; [apply emits_ensure_dir; left; reflexivity|].
  apply emits_then.
  - destruct dry_run; [apply emits_log; exact I|].
    apply emits_call. exists root, fname, primary, secondaries.
    split; [exact Hplaced|]. left. auto.
  - apply emits_for_each. intros g Hg. destruct hl.
    + apply emits_create_hardlink_or_copy, Hg.
    + apply emits_then; [apply emits_ensure_dir; right; exact Hg|].
      destruct dry_run; [apply emits_log; exact I|].
      apply emits_call. exists root, fname, primary, secondaries.
      split; [exact Hplaced|]. right. exists g. auto.
Qed.

Lemma emits_place_dry hl :
  emits (dry_event dst_dir top_groups walk)
        (place dst_dir hl true (join root [fname]) fname primary secondaries).
Proof.
  unfold place, ensure_dir, create_hardlink_or_copy.
  apply emits_then; [apply emits_log; exact I|].
  apply emits_then; [apply emits_log; exact I|].
  apply emits_for_each. intros g Hg. destruct hl.
  - apply emits_then; [|apply emits_log; exact I].
    apply emits_call. exists root, fname, primary, secondaries, g. auto.
  - apply emits_then; apply emits_log; exact I.
Qed.

End Placement.

(** The events of the two loops, from those of the placement of one
    file. *)
Lemma emits_place_all_from (P : event -> Prop)
    dst_dir top_groups hl dry_run move walk :
  (forall root fname primary secondaries,
      placed top_groups walk root fname primary secondaries ->
      emits P (place dst_dir hl dry_run (join root [fname]) fname
                     primary secondaries)) ->
  emits P (place_all dst_dir top_groups hl dry_run move walk).
Proof.
  intro Hplace. unfold place_all.
  apply emits_for_each_with. intros files [root names] Hentry.
  apply emits_for_each_with. intros files' fname Hfname. cbn [fst snd] in *.
  unfold process_one. apply emits_bind_from; [apply emits_lift|].
  intros w [[primary secondaries]|] Hd; [|apply emits_ret].
  apply lift_returned in Hd.
  apply emits_then; [|apply emits_ret].
  apply Hplace. exists names. auto.
Qed.

Lemma emits_place_all dst_dir top_groups hl dry_run move walk :
  emits (placement_event dst_dir top_groups walk)
        (place_all dst_dir top_groups hl dry_run move walk).
Proof.
  apply emits_place_all_from. intros root fname primary secondaries Hplaced.
  apply emits_place, Hplaced.
Qed.

Lemma emits_place_all_dry dst_dir top_groups hl move walk :
  emits (dry_event dst_dir top_groups walk)
        (place_all dst_dir top_groups hl true move walk).
Proof.
  apply emits_place_all_from. intros root fname primary secondaries Hplaced.
  apply emits_place_dry, Hplaced.
Qed.

Lemma emits_and {A : Type} (P Q : event -> Prop) (m : io A) :
  emits P m -> emits Q m -> emits (fun ev => P ev /\ Q ev) m.
Proof.
  intros HP HQ w. specialize (HP w). specialize (HQ w).
  rewrite Forall_forall in *. auto.
Qed.

Lemma emits_check_same_drive P src_dir dst_dir :
  (forall lvl msg args, P (Log lvl msg args)) ->
  emits P (check_same_drive src_dir dst_dir).
Proof.
  intro HP. unfold check_same_drive. destruct (negb nt); [apply emits_ret|].
  apply emits_bind; [apply emits_read|]. intro a.
  apply emits_bind; [apply emits_read|]. intro b.
  destruct (negb (a =? b)); [|apply emits_ret].
  apply emits_then; [apply emits_log, HP | apply emits_ret].
Qed.

Lemma inert_check_same_drive src_dir dst_dir :
  inert (check_same_drive src_dir dst_dir).
Proof.
  unfold check_same_drive. destruct (negb nt); [apply inert_ret|].
  apply inert_bind; [apply inert_read|]. intro a.
  apply inert_bind; [apply inert_read|]. intro b.
  destruct (negb (a =? b)); [|apply inert_ret].
  apply inert_then; [apply inert_log | apply inert_ret].
Qed.

(** The deletion loop: it always returns, and asks for nothing but the
    removal of the files it was given. *)
Lemma delete_sources_run dry_run files w :
  outcome_of (delete_sources dry_run files w) = Returned tt
  /\ Forall (fun ev => is_record ev
                       \/ (dry_run = false /\ exists f, In f files /\ ev = Remove f))
            (events_of (delete_sources dry_run files w)).
Proof.
  unfold delete_sources. revert w.
  induction files as [|f rest IH]; intro w; cbn [for_each].
  - split; [reflexivity | constructor].
  - unfold and_then. rewrite bind_run.
    set (body := if dry_run then log INFO DryRunDelete [Text f]
                 else try_except_all _ _).
    assert (Hbody : outcome_of (body w) = Returned tt
                    /\ Forall (fun ev => is_record ev
                                         \/ (dry_run = false /\ ev = Remove f))
                              (events_of (body w))).
    { subst body. destruct dry_run.
      - split; [reflexivity|]. constructor; [left; exact I | constructor].
      - rewrite try_run. unfold and_then. rewrite bind_run, events_call.
        unfold call, outcome_of, world_of, events_of.
        destruct (remove f w) as [[[]|e] w1]; cbn.
        + split; [reflexivity|].
          constructor; [right; split; reflexivity|].
          constructor; [left; exact I | constructor].
        + split; [reflexivity|].
          constructor; [right; split; reflexivity|].
          constructor; [left; exact I | constructor]. }
    destruct Hbody as [Hret Hev]. rewrite Hret. cbn.
    destruct (IH (world_of (body w))) as [Hret' Hev'].
    split; [exact Hret'|]. apply Forall_app. split.
    + eapply Forall_impl; [|exact Hev]. intros ev [H | [Hd ->]]; [auto|].
      right. split; [exact Hd|]. exists f. split; [left|]; reflexivity.
    + eapply Forall_impl; [|exact Hev'].
      intros ev [H | (Hd & g & Hg & ->)]; [auto|].
      right. split; [exact Hd|]. exists g. split; [right|]; auto.
Qed.

End FileOpsRuns.

Section FileOpsProperties.

Context {engine : Regex} {os_path : OsPath} {fs : FileSystem}.

Lemma ret_bind {A B : Type} (a : A) (k : A -> io B) w :
  io_bind (ret a) k w = k a w.
Proof.
  unfold io_bind, ret. destruct (k a w) as [[r w2] t2]. reflexivity.
Qed.

Lemma process_one_matched dst_dir top_groups hl dry_run move files root fname
    primary secondaries w :
  process_file top_groups (join root [fname]) = Ok (Some (primary, secondaries)) ->
  process_one dst_dir top_groups hl dry_run move files root fname w =
  and_then (place dst_dir hl dry_run (join root [fname]) fname primary secondaries)
           (ret (if move then (files ++ [join root [fname]])%list else files)) w.
Proof.
  intro H. unfold process_one. rewrite H. cbn [lift]. rewrite ret_bind.
  reflexivity.
Qed.

Lemma process_one_skipped dst_dir top_groups hl dry_run move files root fname w :
  process_file top_groups (join root [fname]) = Ok None ->
  process_one dst_dir top_groups hl dry_run move files root fname w
  = (Returned files, w, []).
Proof.
  intro H. unfold process_one. rewrite H. cbn [lift]. rewrite ret_bind.
  reflexivity.
Qed.

(** What [files_to_delete] holds when the loops end. *)
Lemma place_all_files dst_dir top_groups hl dry_run move walk w files :
  outcome_of (place_all dst_dir top_groups hl dry_run move walk w)
  = Returned files ->
  (forall f, In f files -> move = true /\ matched top_groups walk f)
  /\ (move = true ->
      forall root names fname decision,
        In (root, names) walk -> In fname names ->
        process_file top_groups (join root [fname]) = Ok (Some decision) ->
        In (join root [fname]) files).
Proof.
  unfold place_all. intro Hret.
  set (body := fun (fs0 : list string) (entry : string * list string) =>
                 for_each_with (snd entry) fs0
                   (fun fs1 fname =>
                      process_one dst_dir top_groups hl dry_run move fs1
                                  (fst entry) fname)) in *.
  assert (Hone : forall fs0 root fname w0 fs1,
             outcome_of (process_one dst_dir top_groups hl dry_run move fs0
                                     root fname w0) = Returned fs1 ->
             (process_file top_groups (join root [fname]) = Ok None
              /\ fs1 = fs0)
             \/ (exists decision,
                    process_file top_groups (join root [fname])
                    = Ok (Some decision)
                    /\ fs1 = if move then (fs0 ++ [join root [fname]])%list
                             else fs0)).
  { intros fs0 root fname w0 fs1 H.
    destruct (process_file top_groups (join root [fname]))
      as [[[primary secondaries]|]|e] eqn:Hd.
    - right. exists (primary, secondaries). split; [reflexivity|].
      rewrite (process_one_matched _ _ _ _ _ _ _ _ _ _ _ Hd) in H.
      unfold and_then in H. apply bind_returned in H as (u & _ & H).
      cbn in H. congruence.
    - left. split; [reflexivity|].
      rewrite (process_one_skipped _ _ _ _ _ _ _ _ _ Hd) in H. cbn in H.
      congruence.
    - unfold process_one in H. rewrite Hd in H. cbn in H. discriminate. }
  split.
  - refine (for_each_with_invariant
              (fun fs0 => forall f, In f fs0 ->
                                    move = true /\ matched top_groups walk f)
              walk body _ [] w files _ Hret); [|intros f []].
    intros fs0 [root names] w0 fs1 Hentry Hfs0 Hinner. subst body.
    cbn [fst snd] in Hinner.
    refine (for_each_with_invariant
              (fun fs2 => forall f, In f fs2 ->
                                    move = true /\ matched top_groups walk f)
              names _ _ fs0 w0 fs1 Hfs0 Hinner).
    intros fs2 fname w1 fs3 Hfname Hfs2 Hstep f Hf.
    destruct (Hone _ _ _ _ _ Hstep) as [[_ ->] | (decision & Hd & ->)];
      [auto|].
    destruct move; [|auto].
    apply in_app_or in Hf as [Hf | [<- | []]]; [auto|].
    split; [reflexivity|]. exists root, names, fname, decision. auto.
  - intros Hmove root names fname decision Hentry Hfname Hd.
    assert (Hgrow : forall fs0 r n w0 fs1,
               outcome_of (process_one dst_dir top_groups hl dry_run move fs0
                                       r n w0) = Returned fs1 ->
               incl fs0 fs1).
    { intros fs0 r n w0 fs1 H.
      destruct (Hone _ _ _ _ _ H) as [[_ ->] | (d & _ & ->)];
        [apply incl_refl|].
      destruct move; [apply incl_appl|]; apply incl_refl. }
    assert (Hinner : forall names0 r fs0 w0 fs1,
               outcome_of (for_each_with names0 fs0
                             (fun fs1 fname =>
                                process_one dst_dir top_groups hl dry_run move
                                            fs1 r fname) w0) = Returned fs1 ->
               incl fs0 fs1
               /\ forall n d, In n names0 ->
                              process_file top_groups (join r [n]) = Ok (Some d) ->
                              In (join r [n]) fs1).
    { induction names0 as [|n0 rest IH]; intros r fs0 w0 fs1 H;
        cbn [for_each_with] in H.
      - injection H as <-. split; [apply incl_refl | intros n d []].
      - apply bind_returned in H as (fs2 & Hstep & H).
        destruct (IH _ _ _ _ H) as [Hincl Hall].
        pose proof (Hgrow _ _ _ _ _ Hstep) as Hincl0.
        split; [eapply incl_tran; eassumption|].
        intros n d [<- | Hn] Hdn; [|eauto].
        apply Hincl.
        destruct (Hone _ _ _ _ _ Hstep) as [[Hnone _] | (d' & _ & ->)];
          [congruence|].
        rewrite Hmove. apply in_or_app. right. left. reflexivity. }
    assert (Houter : forall entries fs0 w0 fs1,
               outcome_of (for_each_with entries fs0 body w0) = Returned fs1 ->
               incl fs0 fs1
               /\ forall r ns n d,
                    In (r, ns) entries -> In n ns ->
                    process_file top_groups (join r [n]) = Ok (Some d) ->
                    In (join r [n]) fs1).
    { induction entries as [|entry rest IH]; intros fs0 w0 fs1 H;
        cbn [for_each_with] in H.
      - injection H as <-. split; [apply incl_refl | intros r ns n d []].
      - apply bind_returned in H as (fs2 & Hstep & H).
        subst body. cbn beta in Hstep.
        destruct (Hinner _ _ _ _ _ Hstep) as [Hincl0 Hall0].
        destruct (IH _ _ _ H) as [Hincl Hall].
        split; [eapply incl_tran; eassumption|].
        intros r ns n d [-> | Hentry0] Hn Hdn.
        + apply Hincl. exact (Hall0 n d Hn Hdn).
        + exact (Hall r ns n d Hentry0 Hn Hdn). }
    destruct (Houter _ _ _ _ Hret) as [_ Hall].
    exact (Hall root names fname decision Hentry Hfname Hd).
Qed.

End FileOpsProperties.

Section FileOpsTheorems.

Context {engine : Regex} {os_path : OsPath} {fs : FileSystem}.

(** X21. A dry run copies, links and removes nothing: all it does is to
    write log records and to create directories, and the only
    directories it creates are those of the destinations of the files of
    the walk in their secondary groups. *)
Theorem dry_run_only_logs_and_makes_directories
    (src_dir dst_dir : string) (top_groups : list Group) (move : bool)
    (walk : list (string * list string)) (w : world) :
  Forall (dry_event dst_dir top_groups walk)
         (events_of (process_all src_dir dst_dir top_groups true move walk w)).
Proof.
  revert w. change (emits (dry_event dst_dir top_groups walk)
                      (process_all src_dir dst_dir top_groups true move walk)).
  unfold process_all.
  apply emits_bind; [apply emits_check_same_drive; intros; exact I|].
  intro hl. apply emits_bind; [apply emits_place_all_dry|].
  intro files. destruct move; [|apply emits_ret].
  intro w. destruct (delete_sources_run true files w) as [_ Hev].
  eapply Forall_impl; [|exact Hev].
  intros ev [Hrec | [Hfalse _]]; [|discriminate].
  destruct ev; cbn in *; tauto.
Qed.

Lemma inert_place_dry_copy dst_dir src_path fname primary secondaries :
  inert (place dst_dir false true src_path fname primary secondaries).
Proof.
  unfold place, ensure_dir.
  apply inert_then; [apply inert_log|].
  apply inert_then; [apply inert_log|].
  apply inert_for_each. intro g. apply inert_then; apply inert_log.
Qed.

(** X22. Where hard links are not supported, a dry run leaves the world
    as it is.  The placement loop changes nothing and only writes log
    records, whether it returns or the classification of a file raises;
    it returns when the classification of every file of the walk
    returns.  The deletion loop and the drive check, dry run or not,
    return, change nothing and only write log records. *)
Theorem dry_run_without_hardlinks_is_inert
    (src_dir dst_dir : string) (top_groups : list Group) (move : bool)
    (walk : list (string * list string)) (files : list string) :
  harmless (place_all dst_dir top_groups false true move walk)
  /\ ((forall root names fname,
         In (root, names) walk -> In fname names ->
         exists decision,
           process_file top_groups (join root [fname]) = Ok decision) ->
      inert (place_all dst_dir top_groups false true move walk))
  /\ inert (delete_sources true files)
  /\ inert (check_same_drive src_dir dst_dir).
Proof.
  split; [|split; [|split]].
  - unfold place_all. apply harmless_for_each_with. intros fs0 entry.
    apply harmless_for_each_with. intros fs1 fname. unfold process_one.
    apply harmless_bind; [apply harmless_lift|].
    intros [[primary secondaries]|]; [|apply inert_harmless, inert_ret].
    apply inert_harmless.
    apply inert_then; [apply inert_place_dry_copy | apply inert_ret].
  - intro Hret. unfold place_all.
    apply inert_for_each_with_in. intros fs0 [root names] Hentry.
    apply inert_for_each_with_in. intros fs1 fname Hfname. cbn [fst snd] in *.
    unfold process_one.
    destruct (Hret root names fname Hentry Hfname) as [decision ->].
    apply inert_bind; [apply inert_ret|].
    intros [[primary secondaries]|]; [|apply inert_ret].
    apply inert_then; [apply inert_place_dry_copy | apply inert_ret].
  - unfold delete_sources. apply inert_for_each. intro f. apply inert_log.
  - apply inert_check_same_drive.
Qed.

(** A run that returns placed each matched file of the walk. *)
Lemma process_all_rounds src_dir dst_dir top_groups dry_run move walk w
    root names fname primary secondaries :
  outcome_of (process_all src_dir dst_dir top_groups dry_run move walk w)
  = Returned tt ->
  In (root, names) walk -> In fname names ->
  process_file top_groups (join root [fname]) = Ok (Some (primary, secondaries)) ->
  exists hl w0,
    outcome_of (check_same_drive src_dir dst_dir w) = Returned hl
    /\ outcome_of (place dst_dir hl dry_run (join root [fname]) fname
                         primary secondaries w0) = Returned tt
    /\ incl (events_of (place dst_dir hl dry_run (join root [fname]) fname
                              primary secondaries w0))
            (events_of (process_all src_dir dst_dir top_groups dry_run move
                                    walk w)).
Proof.
  intros Hret Hentry Hfname Hd. unfold process_all in *.
  pose proof (events_bind_r (check_same_drive src_dir dst_dir)
                (fun hl => io_bind (place_all dst_dir top_groups hl dry_run
                                              move walk)
                             (fun files => if move
                                           then delete_sources dry_run files
                                           else ret tt)) w) as Hin1.
  apply bind_returned in Hret as (hl & Hcheck & Hret).
  specialize (Hin1 hl Hcheck).
  set (w1 := world_of (check_same_drive src_dir dst_dir w)) in *.
  pose proof (events_bind_l (place_all dst_dir top_groups hl dry_run move walk)
                (fun files => if move then delete_sources dry_run files
                              else ret tt) w1) as Hin2.
  apply bind_returned in Hret as (files & Hplace & _).
  unfold place_all in Hplace, Hin2.
  destruct (for_each_with_rounds _ _ _ _ _ Hplace _ Hentry)
    as (fs0 & w2 & fs1 & Hinner & Hin3).
  cbn [fst snd] in Hinner, Hin3.
  destruct (for_each_with_rounds _ _ _ _ _ Hinner _ Hfname)
    as (fs2 & w3 & fs3 & Hone & Hin4).
  rewrite (process_one_matched _ _ _ _ _ _ _ _ _ _ _ Hd) in Hone, Hin4.
  pose proof (events_bind_l
                (place dst_dir hl dry_run (join root [fname]) fname primary
                       secondaries)
                (fun _ => ret (if move then (fs2 ++ [join root [fname]])%list
                               else fs2)) w3) as Hin5.
  unfold and_then in Hone, Hin4.
  apply bind_returned in Hone as ([] & Hplaced & _).
  exists hl, w3. split; [exact Hcheck|]. split; [exact Hplaced|].
  eapply incl_tran; [exact Hin5|].
  eapply incl_tran; [exact Hin4|].
  eapply incl_tran; [exact Hin3|].
  eapply incl_tran; [exact Hin2 | exact Hin1].
Qed.

Lemma check_same_drive_elsewhere src_dir dst_dir w :
  nt = false ->
  outcome_of (check_same_drive src_dir dst_dir w) = Returned true.
Proof. intro H. unfold check_same_drive. rewrite H. reflexivity. Qed.

Lemma create_hardlink_or_copy_makedirs source link_path dry_run w :
  In (Makedirs (dirname link_path))
     (events_of (create_hardlink_or_copy source link_path dry_run w)).
Proof.
  unfold create_hardlink_or_copy, and_then.
  apply (events_bind_l _ _ w). rewrite events_call. left. reflexivity.
Qed.

(** X23. A dry run is not without effect on a platform other than
    Windows: in a dry run that returns, the directory of every secondary
    destination of every matched file is created, as in a real run. *)
Theorem dry_run_creates_link_directories
    (src_dir dst_dir : string) (top_groups : list Group) (move : bool)
    (walk : list (string * list string)) (w : world)
    (root fname : string) (names : list string)
    (primary g : Group) (secondaries : list Group) :
  nt = false ->
  outcome_of (process_all src_dir dst_dir top_groups true move walk w)
  = Returned tt ->
  In (root, names) walk -> In fname names ->
  process_file top_groups (join root [fname]) = Ok (Some (primary, secondaries)) ->
  In g secondaries ->
  In (Makedirs (dirname (destination dst_dir fname g)))
     (events_of (process_all src_dir dst_dir top_groups true move walk w)).
Proof.
  intros Hnt Hret Hentry Hfname Hd Hg.
  destruct (process_all_rounds _ _ _ _ _ _ _ _ _ _ _ _ Hret Hentry Hfname Hd)
    as (hl & w0 & Hcheck & Hplaced & Hincl).
  rewrite (check_same_drive_elsewhere _ _ _ Hnt) in Hcheck.
  injection Hcheck as <-. apply Hincl.
  unfold place, and_then in *.
  apply bind_returned in Hplaced as ([] & H1 & Hplaced).
  apply (events_bind_r _ _ _ _ H1).
  apply bind_returned in Hplaced as ([] & H2 & Hplaced).
  apply (events_bind_r _ _ _ _ H2).
  destruct (for_each_rounds _ _ _ Hplaced g Hg) as (w1 & _ & Hin).
  apply Hin. apply create_hardlink_or_copy_makedirs.
Qed.

Lemma bind_outcome {A B : Type} (m : io A) (k : A -> io B) w a :
  outcome_of (m w) = Returned a ->
  outcome_of (io_bind m k w) = outcome_of (k a (world_of (m w))).
Proof. intro H. rewrite bind_run, H. reflexivity. Qed.

(** X24. What a run touches.  Besides writing log records, every call of
    [process_all] is made for a file of the walk that has a decision: it
    creates the directory of the destination of that file in one of its
    groups, copies the file to its primary destination or the primary
    copy to a secondary destination, links a secondary destination to
    the primary copy, removes what stands at a secondary destination, or
    removes the file itself.  A source is removed only if the run moves,
    is not a dry run and has placed every file without an exception, and
    only if it is a file of the walk that has a primary group. *)
Theorem process_all_touches
    (src_dir dst_dir : string) (top_groups : list Group) (dry_run move : bool)
    (walk : list (string * list string)) (w : world) (ev : event) :
  In ev (events_of (process_all src_dir dst_dir top_groups dry_run move walk w)) ->
  placement_event dst_dir top_groups walk ev
  \/ exists f,
       ev = Remove f /\ move = true /\ dry_run = false
       /\ outcome_of (process_all src_dir dst_dir top_groups dry_run move walk w)
          = Returned tt
       /\ matched top_groups walk f.
Proof.
  intro Hev. unfold process_all in *.
  apply in_events_bind in Hev as [Hev | (hl & Hcheck & Hev)].
  { left.
    pose proof (emits_check_same_drive
                  (placement_event dst_dir top_groups walk) src_dir dst_dir
                  (fun _ _ _ => I) w) as Hall.
    rewrite Forall_forall in Hall. auto. }
  rewrite (bind_outcome _ _ _ _ Hcheck).
  set (w1 := world_of (check_same_drive src_dir dst_dir w)) in *.
  apply in_events_bind in Hev as [Hev | (files & Hplace & Hev)].
  { left. pose proof (emits_place_all dst_dir top_groups hl dry_run move walk w1)
      as Hall.
    rewrite Forall_forall in Hall. auto. }
  rewrite (bind_outcome _ _ _ _ Hplace).
  destruct move; [|destruct Hev].
  destruct (delete_sources_run dry_run files
              (world_of (place_all dst_dir top_groups hl dry_run true walk w1)))
    as [Hret Hall].
  rewrite Forall_forall in Hall.
  destruct (Hall ev Hev) as [Hrec | (Hdry & f & Hf & ->)].
  - left. destruct ev; cbn in *; tauto.
  - right. exists f. repeat split; try assumption.
    exact (proj2 (proj1 (place_all_files _ _ _ _ _ _ _ _ Hplace) f Hf)).
Qed.

Lemma delete_sources_attempts files w f :
  In f files -> In (Remove f) (events_of (delete_sources false files w)).
Proof.
  unfold delete_sources. revert w.
  induction files as [|g rest IH]; intros w Hf; [destruct Hf|].
  cbn [for_each]. unfold and_then.
  destruct Hf as [<- | Hf].
  - apply (events_bind_l _ _ w). rewrite try_run. unfold and_then.
    rewrite bind_run, events_call.
    destruct (outcome_of (call (Remove g) (remove g) w)); cbn;
      left; reflexivity.
  - pose proof (delete_sources_run false [g] w) as [Hret _].
    unfold delete_sources in Hret. cbn [for_each] in Hret.
    unfold and_then in Hret. apply bind_returned in Hret as ([] & Hbody & _).
    apply (events_bind_r _ _ w tt Hbody). apply IH, Hf.
Qed.

Lemma create_hardlink_or_copy_returned source link_path w :
  outcome_of (create_hardlink_or_copy source link_path false w) = Returned tt ->
  In (Link (win_long_path (world_of (call (Makedirs (dirname link_path))
                                          (makedirs (dirname link_path)) w))
                          source)
           (win_long_path (world_of (call (Makedirs (dirname link_path))
                                          (makedirs (dirname link_path)) w))
                          link_path))
     (events_of (create_hardlink_or_copy source link_path false w))
  \/ In (Copy2 source link_path)
        (events_of (create_hardlink_or_copy source link_path false w)).
Proof.
  unfold create_hardlink_or_copy, and_then. intro Hret.
  apply bind_returned in Hret as ([] & Hmk & _).
  match goal with
  | |- In _ (events_of (io_bind ?m ?k w)) \/ _ =>
      pose proof (events_bind_r m k w tt Hmk) as Hincl
  end.
  cbn beta in Hincl.
  set (w1 := world_of (call (Makedirs (dirname link_path))
                            (makedirs (dirname link_path)) w)) in *.
  match type of Hincl with
  | incl (events_of (try_except_all ?b _ w1)) _ => set (body := b) in *
  end.
  destruct (outcome_of (body w1)) as [[]|e] eqn:Ebody.
  - left. apply Hincl. rewrite try_run, Ebody. cbn [events_of snd].
    subst body. rewrite !read_bind in Ebody |- *.
    set (l := win_long_path w1 link_path) in *.
    set (s := win_long_path w1 source) in *.
    apply bind_returned in Ebody as ([] & Hrm & Ebody).
    apply (events_bind_r _ _ _ _ Hrm).
    apply (events_bind_l _ _ _). rewrite events_call. left. reflexivity.
  - right. apply Hincl. rewrite try_run, Ebody. cbn [events_of snd].
    apply in_or_app. right.
    match goal with
    | |- In _ (events_of (io_bind ?m ?k ?w0)) =>
        apply (events_bind_r m k w0 tt
                 (eq_refl : outcome_of (m w0) = Returned tt))
    end.
    rewrite events_call. left. reflexivity.
Qed.

(** X25. A real run that returns has placed every matched file of the
    walk: the directory of its primary destination was asked for, the
    source was copied to the primary destination, each secondary
    destination got a hard link to, or else a copy of, the primary copy,
    and, when the run moves, the removal of the source was asked for. *)
Theorem returned_run_places_every_match
    (src_dir dst_dir : string) (top_groups : list Group) (move : bool)
    (walk : list (string * list string)) (w : world)
    (root fname : string) (names : list string)
    (primary : Group) (secondaries : list Group) :
  let run := process_all src_dir dst_dir top_groups false move walk w in
  let src_path := join root [fname] in
  let dst_primary := destination dst_dir fname primary in
  outcome_of run = Returned tt ->
  In (root, names) walk -> In fname names ->
  process_file top_groups src_path = Ok (Some (primary, secondaries)) ->
  In (Makedirs (dirname dst_primary)) (events_of run)
  /\ In (Copy2 src_path dst_primary) (events_of run)
  /\ (forall g, In g secondaries ->
        (exists w1, In (Link (win_long_path w1 dst_primary)
                             (win_long_path w1 (destination dst_dir fname g)))
                       (events_of run))
        \/ In (Copy2 dst_primary (destination dst_dir fname g)) (events_of run))
  /\ (move = true -> In (Remove src_path) (events_of run)).
Proof.
  cbv zeta. intros Hret Hentry Hfname Hd.
  destruct (process_all_rounds _ _ _ _ _ _ _ _ _ _ _ _ Hret Hentry Hfname Hd)
    as (hl & w0 & Hcheck & Hplaced & Hincl).
  unfold place, ensure_dir, and_then in Hplaced, Hincl.
  split; [|split; [|split]].
  - apply Hincl. eapply events_bind_l. rewrite events_call. left. reflexivity.
  - apply Hincl. apply bind_returned in Hplaced as ([] & H1 & Hplaced).
    apply (events_bind_r _ _ _ _ H1). eapply events_bind_l.
    rewrite events_call. left. reflexivity.
  - intros g Hg. apply bind_returned in Hplaced as ([] & H1 & Hplaced).
    apply bind_returned in Hplaced as ([] & H2 & Hplaced).
    destruct (for_each_rounds _ _ _ Hplaced g Hg) as (w1 & Hbody & Hin).
    assert (Hup : incl (events_of
                          ((fun g0 =>
                              if hl
                              then create_hardlink_or_copy
                                     (destination dst_dir fname primary)
                                     (destination dst_dir fname g0) false
                              else io_bind
                                     (call (Makedirs
                                              (dirname (destination dst_dir fname g0)))
                                           (makedirs
                                              (dirname (destination dst_dir fname g0))))
                                     (fun _ =>
                                        call (Copy2 (destination dst_dir fname primary)
                                                    (destination dst_dir fname g0))
                                             (copy2 (destination dst_dir fname primary)
                                                    (destination dst_dir fname g0))))
                             g w1))
                       (events_of (process_all src_dir dst_dir top_groups false
                                               move walk w))).
    { eapply incl_tran; [exact Hin|].
      eapply incl_tran; [|exact Hincl].
      eapply incl_tran; [|exact (events_bind_r _ _ _ _ H1)].
      exact (events_bind_r _ _ _ _ H2). }
    cbn beta in Hup, Hbody. destruct hl.
    + destruct (create_hardlink_or_copy_returned _ _ _ Hbody) as [Hl | Hc].
      * left. eexists. apply Hup, Hl.
      * right. apply Hup, Hc.
    + right. apply Hup. apply bind_returned in Hbody as ([] & Hmk & _).
      apply (events_bind_r _ _ _ _ Hmk). rewrite events_call. left. reflexivity.
  - intro Hmove. subst move. unfold process_all in *.
    apply bind_returned in Hret as (hl' & Hcheck' & Hret).
    apply (events_bind_r _ _ _ _ Hcheck').
    apply bind_returned in Hret as (files & Hplace & _).
    apply (events_bind_r _ _ _ _ Hplace).
    apply delete_sources_attempts.
    exact (proj2 (place_all_files _ _ _ _ _ _ _ _ Hplace) eq_refl
             root names fname (primary, secondaries) Hentry Hfname Hd).
Qed.

(** X26. A file that cannot be removed does not stop the run: the
    deletion loop always returns, having asked for the removal of each of
    its files in a real run and for none in a dry run; so an exception of
    [process_all] is one of the placement loop. *)
Theorem delete_failures_are_not_fatal
    (src_dir dst_dir : string) (top_groups : list Group) (dry_run move : bool)
    (walk : list (string * list string)) (files : list string) (w : world) :
  outcome_of (delete_sources dry_run files w) = Returned tt
  /\ (dry_run = false ->
      forall f, In f files ->
                In (Remove f) (events_of (delete_sources dry_run files w)))
  /\ (dry_run = true ->
      Forall is_record (events_of (delete_sources dry_run files w)))
  /\ (forall e,
        outcome_of (process_all src_dir dst_dir top_groups dry_run move walk w)
        = Thrown e ->
        exists hl,
          outcome_of (place_all dst_dir top_groups hl dry_run move walk w)
          = Thrown e).
Proof.
  destruct (delete_sources_run dry_run files w) as [Hret Hev].
  split; [exact Hret|]. split; [|split].
  - intros -> f Hf. apply delete_sources_attempts, Hf.
  - intros ->. eapply Forall_impl; [|exact Hev].
    intros ev [H | [H _]]; [exact H | discriminate].
  - intros e He. unfold process_all in He.
    destruct (inert_check_same_drive src_dir dst_dir w) as ([hl Hcheck] & Hw & _).
    rewrite (bind_outcome _ _ _ _ Hcheck), Hw in He. exists hl.
    destruct (outcome_of (place_all dst_dir top_groups hl dry_run move walk w))
      as [fs0|e'] eqn:Eplace.
    + rewrite (bind_outcome _ _ _ _ Eplace) in He.
      destruct move; [|discriminate].
      rewrite (proj1 (delete_sources_run _ _ _)) in He. discriminate.
    + rewrite bind_run, Eplace in He. cbn in He. injection He as ->.
      reflexivity.
Qed.

(** X27. [win_long_path] leaves a path as it is on a platform other than
    Windows, and on Windows returns a path with the prefix of long
    paths. *)
Theorem win_long_path_prefix (w : world) (path : string) :
  (nt = false -> win_long_path w path = path)
  /\ (nt = true -> Str.startswith "\\?\" (win_long_path w path) = true).
Proof.
  unfold win_long_path. split; intros ->; cbn [negb]; [reflexivity|].
  destruct (Str.startswith "\\?\" (abspath w path)) eqn:E; [exact E|].
  destruct (Str.startswith "\\" (abspath w path));
    apply prefix_iff; eexists; reflexivity.
Qed.

End FileOpsTheorems.

Lemma dry_run_creates_link_directories_witness :
  In (Makedirs "sorted/Science/Biology")
     (events_of (process_all "lib" "sorted" SampleRun.forest true true
                             SampleRun.walk SampleRun.library)).
Proof.
  change (In (Makedirs
                (dirname (destination "sorted" "kids_encyclopedia.pdf"
                                      Sample.biology)))
             (events_of (process_all "lib" "sorted" SampleRun.forest true true
                                     SampleRun.walk SampleRun.library))).
  refine (dry_run_creates_link_directories
            "lib" "sorted" SampleRun.forest true SampleRun.walk
            SampleRun.library "lib" "kids_encyclopedia.pdf"
            ["kids_encyclopedia.pdf"; "notes.txt"]
            Sample.kids Sample.biology [Sample.biology] eq_refl _ _ _ _ _).
  - vm_compute. reflexivity.
  - left. reflexivity.
  - left. reflexivity.
  - vm_compute. reflexivity.
  - left. reflexivity.
Defined.

Lemma dry_run_without_hardlinks_is_inert_witness :
  inert (place_all "sorted" SampleRun.forest false true true SampleRun.walk).
Proof.
  destruct (dry_run_without_hardlinks_is_inert
              "lib" "sorted" SampleRun.forest true SampleRun.walk [])
    as (_ & Hreturns & _).
  apply Hreturns. intros root names fname Hentry Hfname.
  destruct Hentry as [Hentry | []]. injection Hentry as <- <-.
  destruct Hfname as [<- | [<- | []]].
  - exists (Some (Sample.kids, [Sample.biology])). vm_compute. reflexivity.
  - exists None. vm_compute. reflexivity.
Defined.

Lemma process_all_touches_witness :
  In (Remove "lib/kids_encyclopedia.pdf")
     (events_of (process_all "lib" "sorted" SampleRun.forest false true
                             SampleRun.walk SampleRun.library))
  /\ matched SampleRun.forest SampleRun.walk "lib/kids_encyclopedia.pdf".
Proof.
  assert (Hev : In (Remove "lib/kids_encyclopedia.pdf")
                   (events_of (process_all "lib" "sorted" SampleRun.forest
                                           false true SampleRun.walk
                                           SampleRun.library)))
    by (vm_compute; tauto).
  split; [exact Hev|].
  destruct (process_all_touches "lib" "sorted" SampleRun.forest false true
              SampleRun.walk SampleRun.library
              (Remove "lib/kids_encyclopedia.pdf") Hev)
    as [Hplace | (f & Hf & _ & _ & _ & Hm)].
  - exfalso.
    destruct Hplace as (root & fname & primary & secondaries & g & w
                        & (names & Hentry & Hfname & Hd) & Hg & Hl).
    destruct Hentry as [Hentry | []]. injection Hentry as <- <-.
    destruct Hfname as [<- | [<- | []]].
    + vm_compute in Hd. injection Hd as <- <-.
      destruct Hg as [<- | []]. vm_compute in Hl. discriminate.
    + vm_compute in Hd. discriminate.
  - injection Hf as <-. exact Hm.
Defined.

Lemma returned_run_places_every_match_witness :
  In (Copy2 "lib/kids_encyclopedia.pdf" "sorted/Kids/kids_encyclopedia.pdf")
     (events_of (process_all "lib" "sorted" SampleRun.forest false true
                             SampleRun.walk SampleRun.library)).
Proof.
  change (In (Copy2 (join "lib" ["kids_encyclopedia.pdf"])
                    (destination "sorted" "kids_encyclopedia.pdf" Sample.kids))
             (events_of (process_all "lib" "sorted" SampleRun.forest false true
                                     SampleRun.walk SampleRun.library))).
  refine (proj1 (proj2 (returned_run_places_every_match
                          "lib" "sorted" SampleRun.forest true SampleRun.walk
                          SampleRun.library "lib" "kids_encyclopedia.pdf"
                          ["kids_encyclopedia.pdf"; "notes.txt"]
                          Sample.kids [Sample.biology] _ _ _ _))).
  - vm_compute. reflexivity.
  - left. reflexivity.
  - left. reflexivity.
  - vm_compute. reflexivity.
Defined.

Lemma delete_failures_are_not_fatal_witness :
  outcome_of (delete_sources false ["lib/missing.pdf"] SampleRun.library)
  = Returned tt
  /\ In (Remove "lib/missing.pdf")
        (events_of (delete_sources false ["lib/missing.pdf"]
                                   SampleRun.library)).
Proof.
  destruct (delete_failures_are_not_fatal
              "lib" "sorted" SampleRun.forest false true SampleRun.walk
              ["lib/missing.pdf"] SampleRun.library) as (Hret & Hall & _).
  split; [exact Hret|].
  apply (Hall eq_refl). left. reflexivity.
Defined.

Lemma win_long_path_prefix_witness :
  win_long_path SampleRun.library "lib/notes.txt" = "lib/notes.txt".
Proof.
  exact (proj1 (win_long_path_prefix SampleRun.library "lib/notes.txt")
               eq_refl).
Defined.
(* ------------------------------------------------------------------ *)
(** ** Extensions under [posixpath] *)














(* ------------------------------------------------------------------ *)
(** ** Names over the whole of Unicode *)

Module UnicodeProperties.

Import Unicode.

Local Open Scope list_scope.

Section Normalisation.

Context {ucd : Database}.

Lemma is_sep_space : is_sep space = false.
Proof. reflexivity. Qed.

Lemma no_sep_sub_seps b s : no_sep (sub_runs is_sep b s) = true.
Proof.
  unfold no_sep. revert b; induction s as [|c r IH]; intro b; simpl;
    [reflexivity|].
  destruct (is_sep c) eqn:E.
  - destruct b; simpl; auto.
  - simpl. rewrite E. simpl. apply IH.
Qed.

Lemma no_sep_sub_spaces b s :
  no_sep s = true -> no_sep (sub_runs isspace b s) = true.
Proof.
  unfold no_sep. revert b; induction s as [|c r IH]; intros b H; simpl in *;
    [reflexivity|].
  apply andb_true_iff in H as [Hc Hr].
  destruct (isspace c).
  - destruct b; simpl; auto.
  - simpl. rewrite Hc. simpl. auto.
Qed.

Lemma sub_seps_fixed b s : no_sep s = true -> sub_runs is_sep b s = s.
Proof.
  unfold no_sep. revert b; induction s as [|c r IH]; intros b H; simpl in *;
    [reflexivity|].
  apply andb_true_iff in H as [Hc Hr].
  apply negb_true_iff in Hc. rewrite Hc. f_equal. auto.
Qed.

Lemma tidy_sub_spaces b s :
  isspace space = true -> tidy b (sub_runs isspace b s) = true.
Proof.
  intro Hsp. revert b; induction s as [|c r IH]; intro b; simpl;
    [reflexivity|].
  destruct (isspace c) eqn:E.
  - destruct b; [apply IH|]. simpl. rewrite Hsp. simpl. apply IH.
  - simpl. rewrite E. apply IH.
Qed.

Lemma sub_spaces_fixed b s :
  tidy b s = true -> sub_runs isspace b s = s.
Proof.
  revert b; induction s as [|c r IH]; intros b H; simpl in *; [reflexivity|].
  destruct (isspace c).
  - apply andb_true_iff in H as [H Hr]. apply andb_true_iff in H as [Hc Hb].
    apply negb_true_iff in Hb. subst b.
    apply N.eqb_eq in Hc. subst c. f_equal. auto.
  - f_equal. auto.
Qed.

Lemma no_sep_lstrip s : no_sep s = true -> no_sep (lstrip s) = true.
Proof.
  unfold no_sep. induction s as [|c r IH]; simpl; [reflexivity|].
  intro H. destruct (isspace c); [|exact H].
  apply andb_true_iff in H as [_ Hr]. auto.
Qed.

Lemma no_sep_rstrip s : no_sep s = true -> no_sep (rstrip s) = true.
Proof.
  unfold no_sep. induction s as [|c r IH]; simpl; [reflexivity|].
  intro H. apply andb_true_iff in H as [Hc Hr].
  destruct (isspace c && is_nil (rstrip r)); simpl; [reflexivity|].
  rewrite Hc. simpl. auto.
Qed.

Lemma tidy_lstrip b s : tidy b s = true -> tidy false (lstrip s) = true.
Proof.
  revert b; induction s as [|c r IH]; intros b H; simpl in *; [reflexivity|].
  destruct (isspace c) eqn:E.
  - apply andb_true_iff in H as [_ Hr]. eauto.
  - simpl. rewrite E. exact H.
Qed.

Lemma tidy_rstrip b s : tidy b s = true -> tidy b (rstrip s) = true.
Proof.
  revert b; induction s as [|c r IH]; intros b H; simpl in *; [reflexivity|].
  destruct (isspace c) eqn:E; simpl.
  - destruct (is_nil (rstrip r)); simpl; [reflexivity|].
    rewrite E. apply andb_true_iff in H as [H Hr]. rewrite H. simpl. auto.
  - rewrite E. auto.
Qed.

Lemma lstrip_twice s : lstrip (lstrip s) = lstrip s.
Proof.
  induction s as [|c r IH]; simpl; [reflexivity|].
  destruct (isspace c) eqn:E; [exact IH|]. simpl. rewrite E. reflexivity.
Qed.

Lemma rstrip_twice s : rstrip (rstrip s) = rstrip s.
Proof.
  induction s as [|c r IH]; simpl; [reflexivity|].
  destruct (isspace c && is_nil (rstrip r)) eqn:E; simpl; [reflexivity|].
  rewrite IH, E. reflexivity.
Qed.

Lemma rstrip_of_lstrip s : rstrip s = s -> rstrip (lstrip s) = lstrip s.
Proof.
  induction s as [|c r IH]; simpl; [reflexivity|].
  intro H.
  destruct (isspace c && is_nil (rstrip r)) eqn:E; [discriminate|].
  injection H as Hr.
  destruct (isspace c) eqn:Ec; [auto|].
  simpl. rewrite Ec. simpl. rewrite Hr. reflexivity.
Qed.

Lemma lstrip_shorter s : List.length (lstrip s) <= List.length s.
Proof.
  induction s as [|c r IH]; simpl; [lia|].
  destruct (isspace c); simpl; lia.
Qed.

Lemma lstrip_fixed_iff s :
  lstrip s = s <->
  match s with
  | [] => True
  | c :: _ => isspace c = false
  end.
Proof.
  destruct s as [|c r]; simpl; [tauto|].
  destruct (isspace c) eqn:E.
  - split; [|discriminate]. intro H.
    pose proof (lstrip_shorter r) as Hlen. rewrite H in Hlen. simpl in Hlen. lia.
  - tauto.
Qed.

Lemma rstrip_fixed_iff s : rstrip s = s <-> clean_end s = true.
Proof.
  induction s as [|c r IH]; [simpl; tauto|].
  cbn [rstrip clean_end]. destruct r as [|d r'].
  - simpl. destruct (isspace c); simpl; split; congruence.
  - split.
    + intro H.
      destruct (isspace c && is_nil (rstrip (d :: r'))); [discriminate|].
      injection H as H. apply IH, H.
    + intro H. apply IH in H. rewrite H. simpl.
      rewrite andb_false_r. reflexivity.
Qed.

(** *** The lower case *)

Lemma image_lowered s s' : image s s' -> Forall lowered s'.
Proof.
  induction 1 as [|c blk s s' (_ & Hlow & _) _ IH]; [constructor|].
  apply Forall_app. split; assumption.
Qed.

Lemma image_nonempty c s s' : image (c :: s) s' -> s' <> [].
Proof.
  intro H. inversion H as [|? blk ? t (Hne & _) _]; subst.
  destruct blk; [congruence | discriminate].
Qed.

Lemma image_nil_iff s s' : image s s' -> (s' = [] <-> s = []).
Proof.
  intro H. destruct s as [|c r].
  - inversion H. tauto.
  - pose proof (image_nonempty _ _ _ H). split; [tauto | discriminate].
Qed.

Lemma lower_from_lowered s :
  Forall lowered s -> forall seen, lower_from seen s = s.
Proof.
  induction 1 as [|c r [Hc Hlow] _ IH]; intro seen; simpl; [reflexivity|].
  unfold lower_at. apply N.eqb_neq in Hc. rewrite Hc, Hlow, IH. reflexivity.
Qed.

Lemma image_no_sep s s' : image s s' -> no_sep s = true -> no_sep s' = true.
Proof.
  unfold no_sep.
  induction 1 as [|c blk s s' (_ & _ & _ & _ & Hsep) _ IH]; [reflexivity|].
  simpl. intro H. apply andb_true_iff in H as [Hc Hr].
  apply negb_true_iff in Hc. rewrite forallb_app, (IH Hr), andb_true_r.
  apply forallb_forall. intros d Hd.
  pose proof (Hsep Hc) as Hall. rewrite Forall_forall in Hall.
  rewrite (Hall d Hd). reflexivity.
Qed.

Lemma tidy_block blk t :
  blk <> [] -> Forall (fun d => isspace d = false) blk ->
  forall prev, tidy prev (blk ++ t) = tidy false t.
Proof.
  intros Hne Hall. induction Hall as [|d rest Hd Hrest IH]; [congruence|].
  intro prev. simpl. rewrite Hd.
  destruct rest as [|e rest']; [reflexivity|].
  apply IH. discriminate.
Qed.

Lemma image_tidy s s' :
  image s s' -> forall prev, tidy prev s = true -> tidy prev s' = true.
Proof.
  induction 1 as [|c blk s s' (Hne & _ & Hsp & Hnsp & _) _ IH];
    intros prev H; [reflexivity|].
  simpl in H. destruct (isspace c) eqn:E.
  - rewrite (Hsp eq_refl). simpl. rewrite E.
    apply andb_true_iff in H as [H Hr]. rewrite H. simpl. auto.
  - rewrite (tidy_block _ _ Hne (Hnsp eq_refl)). auto.
Qed.

Lemma image_lstrip s s' : image s s' -> lstrip s = s -> lstrip s' = s'.
Proof.
  intros H Hs. apply lstrip_fixed_iff in Hs. apply lstrip_fixed_iff.
  destruct H as [|c blk s s' (Hne & _ & _ & Hnsp & _) _]; [exact I|].
  destruct blk as [|d rest]; [congruence|].
  simpl. specialize (Hnsp Hs). inversion Hnsp. assumption.
Qed.

Lemma clean_end_app blk t : t <> [] -> clean_end (blk ++ t) = clean_end t.
Proof.
  intro Ht. induction blk as [|d rest IH]; [reflexivity|].
  cbn [app clean_end]. destruct (rest ++ t) eqn:E; [|exact IH].
  apply app_eq_nil in E as [_ E]. congruence.
Qed.

Lemma clean_end_block blk :
  Forall (fun d => isspace d = false) blk -> clean_end blk = true.
Proof.
  induction 1 as [|d rest Hd _ IH]; [reflexivity|].
  cbn [clean_end]. destruct rest; [rewrite Hd; reflexivity | exact IH].
Qed.

Lemma image_clean_end s s' :
  image s s' -> clean_end s = true -> clean_end s' = true.
Proof.
  induction 1 as [|c blk s s' (Hne & _ & _ & Hnsp & _) Himage IH];
    [reflexivity|].
  cbn [clean_end]. destruct s as [|d s0].
  - inversion Himage; subst. rewrite app_nil_r. intro H.
    apply negb_true_iff in H. exact (clean_end_block _ (Hnsp H)).
  - intro H. rewrite clean_end_app; [auto|].
    exact (image_nonempty _ _ _ Himage).
Qed.

Section UnderLaws.

Hypothesis Hlaws : laws.

Lemma lower_at_good seen c rest : good_block c (lower_at seen c rest).
Proof.
  destruct Hlaws
    as [Hsp (Hs1 & Hs2 & Hs3) (Hl2 & Hl3) Hne Hlow Hspace _ Hnsp Hsep].
  unfold lower_at. destruct (N.eqb_spec c capital_sigma) as [-> | Hc].
  - assert (Hlowered : forall d, d = final_sigma \/ d = small_sigma ->
                                 lowered d /\ isspace d = false
                                 /\ is_sep d = false).
    { intros d [-> | ->]; repeat split; try assumption; discriminate. }
    destruct (Hlowered (if final_sigma_context seen rest
                        then final_sigma else small_sigma))
      as (H1 & H2 & H3);
      [destruct (final_sigma_context seen rest); auto|].
    repeat split.
    + discriminate.
    + constructor; [exact H1 | constructor].
    + intro H. congruence.
    + intros _. constructor; [exact H2 | constructor].
    + intros _. constructor; [exact H3 | constructor].
  - repeat split.
    + exact (Hne c Hc).
    + apply Forall_forall. intros d Hd. exact (Hlow c d Hc Hd).
    + apply Hspace.
    + intro H. apply Forall_forall. intros d Hd. exact (Hnsp c d Hc H Hd).
    + intro H. apply Forall_forall. intros d Hd. exact (Hsep c d Hc H Hd).
Qed.

Lemma lower_image s : forall seen, image s (lower_from seen s).
Proof.
  induction s as [|c r IH]; intro seen; simpl; constructor;
    [apply lower_at_good | apply IH].
Qed.

(** [str.lower] is idempotent. *)
Lemma lower_twice s : lower (lower s) = lower s.
Proof.
  apply lower_from_lowered. exact (image_lowered _ _ (lower_image s [])).
Qed.

Lemma lower_nil_iff s : lower s = [] <-> s = [].
Proof. exact (image_nil_iff _ _ (lower_image s [])). Qed.

(** What is left after the substitutions and the stripping. *)
Lemma stripped_shape x :
  let y := strip (sub_runs isspace false (sub_runs is_sep false x)) in
  no_sep y = true /\ tidy false y = true /\ lstrip y = y /\ rstrip y = y.
Proof.
  cbv zeta. set (u := sub_runs isspace false (sub_runs is_sep false x)).
  assert (Hsep : no_sep u = true)
    by (apply no_sep_sub_spaces, no_sep_sub_seps).
  assert (Htidy : tidy false u = true)
    by (apply tidy_sub_spaces, (space_isspace Hlaws)).
  unfold strip. repeat split.
  - apply no_sep_lstrip, no_sep_rstrip, Hsep.
  - apply (tidy_lstrip false), tidy_rstrip, Htidy.
  - apply lstrip_twice.
  - apply rstrip_of_lstrip, rstrip_twice.
Qed.

(** What [normalize_name] returns. *)
Lemma normalize_name_shape x :
  let y := normalize_name x in
  no_sep y = true /\ tidy false y = true /\ lstrip y = y /\ rstrip y = y
  /\ lower y = y.
Proof.
  cbv zeta. unfold normalize_name.
  destruct (stripped_shape x) as (Hsep & Htidy & Hl & Hr).
  set (y := strip _) in *.
  pose proof (lower_image y []) as Himage. fold (lower y) in Himage.
  split; [exact (image_no_sep _ _ Himage Hsep)|].
  split; [exact (image_tidy _ _ Himage false Htidy)|].
  split; [exact (image_lstrip _ _ Himage Hl)|].
  split; [|apply lower_twice].
  apply rstrip_fixed_iff, (image_clean_end _ _ Himage), rstrip_fixed_iff, Hr.
Qed.

(** Normalising a name that was normalised returns it unchanged. *)
Lemma normalize_name_twice (x : text) :
  normalize_name (normalize_name x) = normalize_name x.
Proof.
  destruct (normalize_name_shape x) as (Hsep & Htidy & Hl & Hr & Hlow).
  set (y := normalize_name x) in *. unfold normalize_name.
  rewrite (sub_seps_fixed false y Hsep), (sub_spaces_fixed false y Htidy).
  unfold strip. rewrite Hr, Hl. exact Hlow.
Qed.

Lemma tidy_double a b :
  forall prev, tidy prev (a ++ space :: space :: b) = false.
Proof.
  pose proof (space_isspace Hlaws) as Hsp.
  induction a as [|c r IH]; intro prev; simpl.
  - rewrite Hsp. simpl. rewrite andb_false_r. reflexivity.
  - destruct (isspace c); [rewrite IH; apply andb_false_r | apply IH].
Qed.

Lemma tidy_only_spaces y :
  forall prev, tidy prev y = true ->
  forallb (fun c => negb (isspace c) || (c =? space)%N) y = true.
Proof.
  induction y as [|c r IH]; intros prev H; [reflexivity|].
  simpl in *. destruct (isspace c).
  - apply andb_true_iff in H as [H Hr]. apply andb_true_iff in H as [Hc _].
    rewrite Hc. simpl. eauto.
  - simpl. eauto.
Qed.

(** X1. What [normalize_name] returns, for every input string: it has no
    character of [[._\-]], single spaces are its only white space, it has
    no white space at either end, and [str.lower] leaves it as it is. *)
Theorem normalize_name_output (x : text) :
  forallb (fun c => negb (is_sep c)) (normalize_name x) = true
  /\ forallb (fun c => negb (isspace c) || (c =? space)%N)
             (normalize_name x) = true
  /\ (forall a b, normalize_name x <> a ++ space :: space :: b)
  /\ lstrip (normalize_name x) = normalize_name x
  /\ rstrip (normalize_name x) = normalize_name x
  /\ lower (normalize_name x) = normalize_name x.
Proof.
  destruct (normalize_name_shape x) as (Hsep & Htidy & Hl & Hr & Hlow).
  split; [exact Hsep|]. split; [exact (tidy_only_spaces _ _ Htidy)|].
  split; [|auto].
  intros a b Heq. rewrite Heq, tidy_double in Htidy. discriminate.
Qed.

End UnderLaws.

(** The two substitutions of [normalize_name] amount to one, over the
    union of the two classes. *)
Lemma sub_runs_fused s :
  isspace space = true ->
  forall b' b, (b' = true -> b = true) ->
    sub_runs isspace b (sub_runs is_sep b' s) = sub_runs is_gap b s.
Proof.
  intro Hsp. induction s as [|c r IH]; intros b' b Hb; simpl; [reflexivity|].
  unfold is_gap at 1.
  destruct (is_sep c) eqn:Esep.
  - simpl. destruct b'.
    + rewrite (Hb eq_refl). apply IH. auto.
    + simpl. rewrite Hsp. destruct b; rewrite IH; auto.
  - simpl. destruct (isspace c) eqn:Espace.
    + destruct b; rewrite IH; auto.
    + rewrite IH; [reflexivity | discriminate].
Qed.

Lemma normalize_name_fused s :
  isspace space = true ->
  normalize_name s = lower (strip (sub_runs is_gap false s)).
Proof. intro Hsp. unfold normalize_name. rewrite sub_runs_fused; auto. Qed.

Lemma sub_gaps_spaced b s :
  isspace space = true ->
  sub_runs is_gap b (spaced s) = sub_runs is_gap b s.
Proof.
  intro Hsp. revert b. induction s as [|c r IH]; intro b; [reflexivity|].
  cbn [spaced map sub_runs]. fold (spaced r).
  destruct (is_sep c) eqn:Esep.
  - assert (Hgap : is_gap c = true) by (unfold is_gap; rewrite Esep; reflexivity).
    assert (Hspace : is_gap space = true)
      by (unfold is_gap; rewrite Hsp; apply orb_true_r).
    rewrite Hgap, Hspace. destruct b; rewrite IH; reflexivity.
  - destruct (is_gap c); [destruct b|]; rewrite IH; reflexivity.
Qed.

Lemma sub_gaps_all_space b s :
  isspace space = true ->
  forallb isspace (sub_runs is_gap b s) = forallb is_gap s.
Proof.
  intro Hsp. revert b. induction s as [|c r IH]; intro b; simpl; [reflexivity|].
  destruct (is_gap c) eqn:E; simpl.
  - destruct b; simpl; rewrite ?Hsp; apply IH.
  - unfold is_gap in E. apply orb_false_iff in E as [_ E]. rewrite E.
    reflexivity.
Qed.

Lemma rstrip_of_spaces s :
  forallb isspace (rstrip s) = true -> rstrip s = [].
Proof.
  induction s as [|c r IH]; simpl; [reflexivity|].
  destruct (isspace c) eqn:Ec; simpl.
  - destruct (is_nil (rstrip r)) eqn:Er; [reflexivity|].
    simpl. rewrite Ec. simpl. intro H. rewrite (IH H) in Er. discriminate.
  - rewrite Ec. discriminate.
Qed.

Lemma rstrip_nil_iff s : rstrip s = [] <-> forallb isspace s = true.
Proof.
  induction s as [|c r IH]; simpl; [tauto|].
  destruct (isspace c) eqn:Ec; simpl.
  - destruct (rstrip r) eqn:Er; simpl.
    + split; [intros _; apply IH; reflexivity | reflexivity].
    + split; [discriminate|]. intro H. apply IH in H. discriminate.
  - split; discriminate.
Qed.

Lemma lstrip_nil_iff s : lstrip s = [] <-> forallb isspace s = true.
Proof.
  induction s as [|c r IH]; simpl; [tauto|].
  destruct (isspace c) eqn:Ec; simpl; [exact IH|].
  split; discriminate.
Qed.

Lemma strip_nil_iff s : strip s = [] <-> forallb isspace s = true.
Proof.
  unfold strip. rewrite lstrip_nil_iff. split.
  - intro H. apply rstrip_nil_iff, rstrip_of_spaces, H.
  - intro H. apply rstrip_nil_iff in H. rewrite H. reflexivity.
Qed.

Section LowerFirst.

Hypothesis Hlaws : laws.

Lemma lower_from_plain s :
  plain s -> forall seen, lower_from seen s = lower_each s.
Proof.
  induction 1 as [|c r Hc _ IH]; intro seen; simpl; [reflexivity|].
  unfold lower_at. apply N.eqb_neq in Hc. rewrite Hc, IH. reflexivity.
Qed.

Lemma lower_each_cons c r :
  lower_each (c :: r) = to_lower_full c ++ lower_each r.
Proof. reflexivity. Qed.

Lemma lower_each_space c r :
  isspace c = true -> lower_each (c :: r) = c :: lower_each r.
Proof.
  intro H. unfold lower_each. simpl. rewrite (lower_space Hlaws c H).
  reflexivity.
Qed.

Lemma lower_each_sep c r :
  is_sep c = true -> lower_each (c :: r) = c :: lower_each r.
Proof.
  intro H. unfold lower_each. simpl. rewrite (lower_sep Hlaws c H).
  reflexivity.
Qed.

Lemma lower_each_nil s : plain s -> is_nil (lower_each s) = is_nil s.
Proof.
  intros [|c r Hc _]; [reflexivity|]. unfold lower_each. simpl.
  pose proof (lower_nonempty Hlaws c Hc) as Hne.
  destruct (to_lower_full c); [congruence | reflexivity].
Qed.

Lemma lower_each_lowered s : plain s -> Forall lowered (lower_each s).
Proof.
  induction 1 as [|c r Hc _ IH]; [constructor|].
  unfold lower_each. simpl. apply Forall_app. split; [|exact IH].
  apply Forall_forall. intros d Hd. exact (lower_lowered Hlaws c d Hc Hd).
Qed.

Lemma plain_sub_runs cls s :
  plain s -> forall b, plain (sub_runs cls b s).
Proof.
  induction 1 as [|c r Hc _ IH]; intro b; simpl; [constructor|].
  destruct (cls c); [destruct b|].
  - apply IH.
  - constructor; [discriminate | apply IH].
  - constructor; [exact Hc | apply IH].
Qed.

Lemma plain_lstrip s : plain s -> plain (lstrip s).
Proof.
  induction 1 as [|c r Hc Hr IH]; simpl; [constructor|].
  destruct (isspace c); [exact IH | constructor; assumption].
Qed.

Lemma plain_rstrip s : plain s -> plain (rstrip s).
Proof.
  induction 1 as [|c r Hc Hr IH]; simpl; [constructor|].
  destruct (isspace c && is_nil (rstrip r)); constructor; assumption.
Qed.

Lemma sub_runs_block cls blk t :
  blk <> [] -> Forall (fun d => cls d = false) blk ->
  forall b, sub_runs cls b (blk ++ t) = blk ++ sub_runs cls false t.
Proof.
  intros Hne Hall. induction Hall as [|d rest Hd Hrest IH]; [congruence|].
  intro b. simpl. rewrite Hd. f_equal.
  destruct rest as [|e rest']; [reflexivity|]. apply IH. discriminate.
Qed.

Lemma lstrip_block blk t :
  blk <> [] -> Forall (fun d => isspace d = false) blk ->
  lstrip (blk ++ t) = blk ++ t.
Proof.
  intros Hne Hall. destruct Hall as [|d rest Hd _]; [congruence|].
  simpl. rewrite Hd. reflexivity.
Qed.

Lemma rstrip_block blk t :
  blk <> [] -> Forall (fun d => isspace d = false) blk ->
  rstrip (blk ++ t) = blk ++ rstrip t.
Proof.
  intros Hne Hall. induction Hall as [|d rest Hd Hrest IH]; [congruence|].
  simpl. rewrite Hd. simpl. f_equal.
  destruct rest as [|e rest']; [reflexivity|]. apply IH. discriminate.
Qed.

Lemma lower_block c :
  c <> capital_sigma ->
  to_lower_full c <> []
  /\ (isspace c = false ->
      Forall (fun d => isspace d = false) (to_lower_full c))
  /\ (is_sep c = false ->
      Forall (fun d => is_sep d = false) (to_lower_full c)).
Proof.
  intro Hc. split; [exact (lower_nonempty Hlaws c Hc)|].
  split; intro H; apply Forall_forall; intros d Hd.
  - exact (lower_not_space Hlaws c d Hc H Hd).
  - exact (lower_not_sep Hlaws c d Hc H Hd).
Qed.

Lemma sub_seps_lower_each s :
  plain s ->
  forall b, sub_runs is_sep b (lower_each s)
            = lower_each (sub_runs is_sep b s).
Proof.
  induction 1 as [|c r Hc _ IH]; intro b; [reflexivity|].
  destruct (is_sep c) eqn:E.
  - rewrite (lower_each_sep c r E). simpl. rewrite E.
    destruct b; rewrite IH; [reflexivity|].
    rewrite (lower_each_space space _ (space_isspace Hlaws)). reflexivity.
  - destruct (lower_block c Hc) as (Hne & _ & Hsep).
    simpl sub_runs at 2. rewrite E, !lower_each_cons.
    rewrite (sub_runs_block is_sep _ _ Hne (Hsep E)), IH. reflexivity.
Qed.

Lemma sub_spaces_lower_each s :
  plain s ->
  forall b, sub_runs isspace b (lower_each s)
            = lower_each (sub_runs isspace b s).
Proof.
  induction 1 as [|c r Hc _ IH]; intro b; [reflexivity|].
  destruct (isspace c) eqn:E.
  - rewrite (lower_each_space c r E). simpl. rewrite E.
    destruct b; rewrite IH; [reflexivity|].
    rewrite (lower_each_space space _ (space_isspace Hlaws)). reflexivity.
  - destruct (lower_block c Hc) as (Hne & Hsp & _).
    simpl sub_runs at 2. rewrite E, !lower_each_cons.
    rewrite (sub_runs_block isspace _ _ Hne (Hsp E)), IH. reflexivity.
Qed.

Lemma lstrip_lower_each s :
  plain s -> lstrip (lower_each s) = lower_each (lstrip s).
Proof.
  induction 1 as [|c r Hc _ IH]; [reflexivity|].
  destruct (isspace c) eqn:E.
  - rewrite (lower_each_space c r E). simpl. rewrite E. exact IH.
  - destruct (lower_block c Hc) as (Hne & Hsp & _).
    simpl lstrip at 2. rewrite E, lower_each_cons.
    apply (lstrip_block _ _ Hne (Hsp E)).
Qed.

Lemma rstrip_lower_each s :
  plain s -> rstrip (lower_each s) = lower_each (rstrip s).
Proof.
  induction 1 as [|c r Hc Hr IH]; [reflexivity|].
  destruct (isspace c) eqn:E.
  - rewrite (lower_each_space c r E). simpl. rewrite E, IH.
    rewrite (lower_each_nil _ (plain_rstrip _ Hr)).
    destruct (is_nil (rstrip r)); [reflexivity|]. simpl andb. cbv iota.
    rewrite (lower_each_space c _ E). reflexivity.
  - destruct (lower_block c Hc) as (Hne & Hsp & _).
    simpl rstrip at 2. rewrite E. simpl andb. cbv iota.
    rewrite !lower_each_cons.
    rewrite (rstrip_block _ _ Hne (Hsp E)), IH. reflexivity.
Qed.

Lemma normalize_name_lower_first s :
  plain s -> normalize_name (lower s) = normalize_name s.
Proof.
  intro Hs. unfold normalize_name, lower, strip.
  rewrite (lower_from_plain s Hs).
  rewrite (sub_seps_lower_each s Hs).
  pose proof (plain_sub_runs is_sep s Hs false) as H1.
  rewrite (sub_spaces_lower_each _ H1).
  pose proof (plain_sub_runs isspace _ H1 false) as H2.
  rewrite (rstrip_lower_each _ H2).
  pose proof (plain_rstrip _ H2) as H3.
  rewrite (lstrip_lower_each _ H3).
  pose proof (plain_lstrip _ H3) as H4.
  rewrite (lower_from_plain _ H4).
  apply lower_from_lowered, lower_each_lowered, H4.
Qed.

(** X2. The choice of separator does not matter to [normalize_name]: a
    name and the name with a space for each of [.], [_] and [-] normalise
    to the same string.  Nor does the case, for a name without a capital
    sigma: the name and its lower case normalise to the same string. *)
Theorem normalize_name_insensitive (s : text) :
  normalize_name (spaced s) = normalize_name s
  /\ (Forall (fun c => c <> capital_sigma) s ->
      normalize_name (lower s) = normalize_name s).
Proof.
  pose proof (space_isspace Hlaws) as Hsp. split.
  - rewrite !normalize_name_fused by exact Hsp.
    rewrite sub_gaps_spaced by exact Hsp. reflexivity.
  - apply normalize_name_lower_first.
Qed.

End LowerFirst.

(** X3. [normalize_name] returns the empty string exactly for the names
    made of separators and white space only. *)
Theorem normalize_name_empty_iff (s : text) :
  laws ->
  (normalize_name s = [] <-> forallb is_gap s = true).
Proof.
  intro Hlaws. pose proof (space_isspace Hlaws) as Hsp.
  rewrite (normalize_name_fused _ Hsp), (lower_nil_iff Hlaws).
  rewrite strip_nil_iff, (sub_gaps_all_space _ _ Hsp). reflexivity.
Qed.

End Normalisation.

(** *** The database of CPython *)

Lemma eqb_text_eq s t : CPython.eqb_text s t = true -> s = t.
Proof.
  revert t; induction s as [|c s IH]; intros [|d t] H; simpl in H;
    try discriminate; [reflexivity|].
  apply andb_true_iff in H as [Hc Hs]. apply N.eqb_eq in Hc.
  rewrite Hc, (IH _ Hs). reflexivity.
Qed.

Lemma in_span lo hi c : (lo <= c <= hi)%N -> In c (CPython.span lo hi).
Proof.
  intro H. unfold CPython.span. apply in_map_iff.
  exists (N.to_nat (c - lo)). split; [lia|]. apply in_seq. lia.
Qed.

Lemma moved_in_domain c :
  CPython.to_lower_full c = [c] \/ In c CPython.lower_domain.
Proof.
  unfold CPython.to_lower_full.
  destruct (find (CPython.in_row c) CPython.lower_rows)
    as [[[[lo hi] step] r]|] eqn:E; [right | left; reflexivity].
  apply find_some in E as [Hin Hrow].
  unfold CPython.lower_domain. apply in_flat_map.
  exists (lo, hi, step, r). split; [exact Hin|].
  unfold CPython.in_row in Hrow.
  apply andb_true_iff in Hrow as [Hrow _].
  apply andb_true_iff in Hrow as [Hlo Hhi].
  apply N.leb_le in Hlo, Hhi. apply in_span. lia.
Qed.

Lemma lower_domain_checked :
  forallb CPython.law_check CPython.lower_domain = true.
Proof. vm_compute. reflexivity. Qed.

Lemma law_checked c :
  CPython.to_lower_full c = [c] \/ CPython.law_check c = true.
Proof.
  destruct (moved_in_domain c) as [H | H]; [left; exact H | right].
  pose proof lower_domain_checked as Hall.
  rewrite forallb_forall in Hall. exact (Hall c H).
Qed.

Lemma unless_sigma c b :
  c <> capital_sigma -> (c =? capital_sigma)%N || b = true -> b = true.
Proof.
  intros Hc H. apply N.eqb_neq in Hc. rewrite Hc in H. exact H.
Qed.

Lemma law_check_true c :
  CPython.law_check c = true ->
  CPython.to_lower_full c <> []
  /\ (c <> capital_sigma ->
      (forall d, In d (CPython.to_lower_full c) ->
                 d <> capital_sigma /\ CPython.to_lower_full d = [d])
      /\ (CPython.isspace c = false ->
          forall d, In d (CPython.to_lower_full c) ->
                    CPython.isspace d = false)
      /\ (is_sep c = false ->
          forall d, In d (CPython.to_lower_full c) -> is_sep d = false))
  /\ (CPython.isspace c = true -> CPython.to_lower_full c = [c])
  /\ (is_sep c = true -> CPython.to_lower_full c = [c]).
Proof.
  unfold CPython.law_check. cbv zeta. intro H.
  apply andb_true_iff in H as [H H5]. apply andb_true_iff in H as [H H4].
  apply andb_true_iff in H as [H H3]. apply andb_true_iff in H as [H1 H2].
  split; [|split; [|split]].
  - destruct (CPython.to_lower_full c); [discriminate H1 | discriminate].
  - intro Hc. apply (unless_sigma _ _ Hc) in H2, H4, H5.
    rewrite forallb_forall in H2. repeat split.
    + specialize (H2 d H). apply andb_true_iff in H2 as [H2 _].
      apply negb_true_iff, N.eqb_neq in H2. exact H2.
    + specialize (H2 d H). apply andb_true_iff in H2 as [_ H2].
      apply eqb_text_eq, H2.
    + intros Hsp d Hd. rewrite Hsp, orb_false_l, forallb_forall in H4.
      apply negb_true_iff, (H4 d Hd).
    + intros Hsep d Hd. rewrite Hsep, orb_false_l, forallb_forall in H5.
      apply negb_true_iff, (H5 d Hd).
  - intro Hsp. rewrite Hsp in H3. apply eqb_text_eq. exact H3.
  - intro Hsep. rewrite Hsep, orb_true_r in H3. apply eqb_text_eq. exact H3.
Qed.

(** The database of CPython has the properties that [normalize_name]
    rests on. *)
Lemma cpython_laws : @laws cpython.
Proof.
  split.
  - reflexivity.
  - repeat split; reflexivity.
  - split; vm_compute; reflexivity.
  - intros c _. change (CPython.to_lower_full c <> []).
    destruct (law_checked c) as [H | H]; [rewrite H; discriminate|].
    apply law_check_true, H.
  - intros c d Hc.
    change (In d (CPython.to_lower_full c) ->
            d <> capital_sigma /\ CPython.to_lower_full d = [d]).
    destruct (law_checked c) as [H | H].
    + rewrite H. intros [<- | []]. split; [exact Hc | exact H].
    + apply law_check_true in H as (_ & H & _). apply (H Hc).
  - intros c. change (CPython.isspace c = true -> CPython.to_lower_full c = [c]).
    destruct (law_checked c) as [H | H]; [intros _; exact H|].
    apply law_check_true, H.
  - intros c. change (is_sep c = true -> CPython.to_lower_full c = [c]).
    destruct (law_checked c) as [H | H]; [intros _; exact H|].
    apply law_check_true, H.
  - intros c d Hc.
    change (CPython.isspace c = false -> In d (CPython.to_lower_full c) ->
            CPython.isspace d = false).
    destruct (law_checked c) as [H | H].
    + rewrite H. intros Hsp [<- | []]. exact Hsp.
    + apply law_check_true in H as (_ & H & _). intro Hsp.
      apply (H Hc), Hsp.
  - intros c d Hc.
    change (is_sep c = false -> In d (CPython.to_lower_full c) ->
            is_sep d = false).
    destruct (law_checked c) as [H | H].
    + rewrite H. intros Hsep [<- | []]. exact Hsep.
    + apply law_check_true in H as (_ & H & _). intro Hsep.
      apply (H Hc), Hsep.
Qed.

(** C7. The normalisation is idempotent, for every input string:
    normalising a name that was normalised returns it unchanged.  The
    strings are those of any code points, and the character database is
    that of CPython; the same holds with every character database that
    has the properties of [laws]. *)
Theorem normalize_name_idempotent :
  (forall x : text,
      @normalize_name cpython (@normalize_name cpython x)
      = @normalize_name cpython x)
  /\ (forall ucd : Database,
        @laws ucd ->
        forall x : text,
          @normalize_name ucd (@normalize_name ucd x)
          = @normalize_name ucd x).
Proof.
  split.
  - intro x. exact (@normalize_name_twice cpython cpython_laws x).
  - intros ucd Hlaws x. exact (@normalize_name_twice ucd Hlaws x).
Qed.

Lemma normalize_name_idempotent_witness :
  @normalize_name cpython (@normalize_name cpython odyssey)
  = @normalize_name cpython odyssey
  /\ @normalize_name cpython odyssey
     = [959; 948; 965; 963; 963; 949; 965; 962; 32;
        1082; 1085; 1080; 1075; 1072; 32; 49; 32; 112; 100; 102]%N.
Proof.
  split.
  - exact (proj1 normalize_name_idempotent odyssey).
  - vm_compute. reflexivity.
Defined.

Lemma normalize_name_output_witness :
  @lower cpython (@normalize_name cpython odyssey)
  = @normalize_name cpython odyssey.
Proof.
  exact (proj2 (proj2 (proj2 (proj2 (proj2
    (@normalize_name_output cpython cpython_laws odyssey)))))).
Defined.

Lemma normalize_name_insensitive_witness :
  @normalize_name cpython (spaced kniga)
  = @normalize_name cpython kniga
  /\ @normalize_name cpython (@lower cpython kniga)
     = @normalize_name cpython kniga.
Proof.
  destruct (@normalize_name_insensitive cpython cpython_laws kniga)
    as [Hsep Hcase].
  split; [exact Hsep|]. apply Hcase.
  repeat constructor; discriminate.
Defined.

Lemma normalize_name_empty_iff_witness :
  @normalize_name cpython blank = []
  /\ @normalize_name cpython odyssey <> [].
Proof.
  split.
  - apply (@normalize_name_empty_iff cpython blank cpython_laws).
    vm_compute. reflexivity.
  - intro H.
    apply (@normalize_name_empty_iff cpython odyssey cpython_laws) in H.
    vm_compute in H. discriminate H.
Defined.

(** The case of a name can matter to [normalize_name] when the name
    has a capital sigma: in "ΑΣ.Β" the sigma ends a word once the
    full stop has become a space, and its lower case is the final sigma;
    in the lower case of "ΑΣ.Β" it does not end a word. *)
Theorem normalize_name_final_sigma :
  @normalize_name cpython alpha_sigma_beta = [945; 962; 32; 946]%N
  /\ @normalize_name cpython (@lower cpython alpha_sigma_beta)
     = [945; 963; 32; 946]%N.
Proof. split; vm_compute; reflexivity. Qed.

End UnicodeProperties.

(** *** The code points below U+0100 *)

Lemma char_facts (c : ascii) :
  Unicode.CPython.isspace (N_of_ascii c) = Char.isspace c
  /\ Unicode.CPython.to_lower_full (N_of_ascii c)
     = [N_of_ascii (Char.lower c)]
  /\ Unicode.is_sep (N_of_ascii c) = Char.is_sep c
  /\ (N_of_ascii c =? Unicode.capital_sigma)%N = false.
Proof.
  destruct c as [[] [] [] [] [] [] [] []]; vm_compute; repeat split.
Qed.

Lemma codes_sub_runs (cls : N -> bool) (cls' : ascii -> bool) :
  (forall c, cls (N_of_ascii c) = cls' c) ->
  forall s b, Unicode.sub_runs cls b (Unicode.codes s)
              = Unicode.codes (Str.sub_runs cls' b s).
Proof.
  intros Hcls. induction s as [|c r IH]; intro b; simpl; [reflexivity|].
  rewrite Hcls. destruct (cls' c); [destruct b|]; simpl; rewrite IH;
    reflexivity.
Qed.

Lemma codes_lstrip s :
  @Unicode.lstrip Unicode.cpython (Unicode.codes s)
  = Unicode.codes (Str.lstrip s).
Proof.
  induction s as [|c r IH]; simpl; [reflexivity|].
  change (@Unicode.isspace Unicode.cpython (N_of_ascii c))
    with (Unicode.CPython.isspace (N_of_ascii c)).
  rewrite (proj1 (char_facts c)). destruct (Char.isspace c); [exact IH|].
  reflexivity.
Qed.

Lemma codes_is_nil s : is_nil (Unicode.codes s) = Str.is_empty s.
Proof. destruct s; reflexivity. Qed.

Lemma codes_rstrip s :
  @Unicode.rstrip Unicode.cpython (Unicode.codes s)
  = Unicode.codes (Str.rstrip s).
Proof.
  induction s as [|c r IH]; simpl; [reflexivity|].
  change (@Unicode.isspace Unicode.cpython (N_of_ascii c))
    with (Unicode.CPython.isspace (N_of_ascii c)).
  rewrite (proj1 (char_facts c)), IH, codes_is_nil.
  destruct (Char.isspace c && Str.is_empty (Str.rstrip r)); reflexivity.
Qed.

Lemma codes_lower s :
  forall seen, @Unicode.lower_from Unicode.cpython seen (Unicode.codes s)
               = Unicode.codes (Str.lower s).
Proof.
  induction s as [|c r IH]; intro seen; simpl; [reflexivity|].
  unfold Unicode.lower_at.
  destruct (char_facts c) as (_ & Hlow & _ & Hsigma).
  rewrite Hsigma.
  change (@Unicode.to_lower_full Unicode.cpython (N_of_ascii c))
    with (Unicode.CPython.to_lower_full (N_of_ascii c)).
  rewrite Hlow, IH. reflexivity.
Qed.

(** On the strings of code points below U+0100, [normalize_name]
    over the whole of Unicode, with the character database of CPython, is
    [normalize_name] of the model of the program. *)
Theorem latin1_normalize_name (s : string) :
  @Unicode.normalize_name Unicode.cpython (Unicode.codes s)
  = Unicode.codes (normalize_name s).
Proof.
  unfold Unicode.normalize_name, normalize_name, Unicode.strip, Str.strip,
    Unicode.lower.
  rewrite (codes_sub_runs Unicode.is_sep Char.is_sep)
    by (intro c; apply (char_facts c)).
  rewrite (codes_sub_runs (@Unicode.isspace Unicode.cpython) Char.isspace)
    by (intro c; apply (char_facts c)).
  rewrite codes_rstrip, codes_lstrip, codes_lower. reflexivity.
Qed.
